(** * Thumbnail generator scripts: a shallow embedding and its properties

    The repository is a set of maintenance scripts over a storage bucket laid
    out as [collection/eventId/filename].  This development embeds

    - the bucket scanner and the selection policies,
    - the transcoders ([create_thumbnail], [upscale_image],
      [_optimize_image_size]) over an abstract image library,
    - the uploaders and the per-event pipeline with its three counters,

    and states the properties of the specification about them.

    Python values are modelled as follows: [int] is [Z]; [float] is an IEEE 754
    binary64 number ([spec_float] with precision 53); [bytes] is a list of
    [byte]; [str] is [string]; a [dict] whose iteration order is observable is
    an association list in insertion order; the bucket is a [gmap] from object
    names to stored objects.  A computation that may raise is a [result]. *)

From Stdlib Require Import ZArith Lia Floats.SpecFloat.
From Stdlib.Strings Require Import Byte Ascii.
From stdpp Require Import base option list strings gmap sorting.

Open Scope Z_scope.

(** ** Results of Python computations *)

(** A call either returns a value or raises.  Loops of the scripts are bounded
    by a fuel argument; [OutOfFuel] is the answer of a loop that was given too
    little of it, and is shown below to be unreachable. *)
Inductive result (A : Type) : Type :=
  | Ret (a : A)
  | Raise
  | OutOfFuel.
Arguments Ret {A} a.
Arguments Raise {A}.
Arguments OutOfFuel {A}.

Global Instance result_ret : MRet result := @Ret.
Global Instance result_bind : MBind result := λ A B f m,
  match m with
  | Ret a => f a
  | Raise => Raise
  | OutOfFuel => OutOfFuel
  end.

(** [try: m except Exception: return handler] *)
Definition try_except {A} (m : result A) (handler : A) : result A :=
  match m with
  | Ret a => Ret a
  | Raise => Ret handler
  | OutOfFuel => OutOfFuel
  end.

Definition returns {A} (m : result A) : Prop := ∃ a, m = Ret a.

(** ** Bytes *)

Abbreviation bytes := (list Byte.byte).

Global Instance byte_eq_decision : EqDecision Byte.byte := Byte.byte_eq_dec.

Definition len {A} (l : list A) : Z := Z.of_nat (length l).

(** [data.startswith(prefix)] *)
Fixpoint startswith (data prefix : bytes) : bool :=
  match prefix, data with
  | [], _ => true
  | _ :: _, [] => false
  | p :: prefix, d :: data => if decide (p = d) then startswith data prefix else false
  end.

Definition jpeg_magic : bytes := [Byte.xff; Byte.xd8; Byte.xff].

(** Truth value of an [Optional[bytes]]: [None] and [b''] are false. *)
Definition truthy (o : option bytes) : bool :=
  match o with
  | None => false
  | Some [] => false
  | Some (_ :: _) => true
  end.

(** ** Python floats *)

Module Float.

Definition float := spec_float.
Definition prec : Z := 53.
Definition emax : Z := 1024.

(** [float(n)], exact for |n| ≤ 2^53, rounded to nearest even beyond. *)
Definition of_int (n : Z) : float := binary_normalize prec emax n 0 false.

Definition div : float → float → float := SFdiv prec emax.
Definition mul : float → float → float := SFmul prec emax.
Definition sub : float → float → float := SFsub prec emax.
Definition ltb : float → float → bool := SFltb.
Definition leb : float → float → bool := SFleb.

(** The decimal literal [num/den] of the source text, e.g. [0.1] is
    [lit 1 10]: the binary64 number nearest to the rational. *)
Definition lit (num den : Z) : float := div (of_int num) (of_int den).

Definition is_zero (x : float) : bool :=
  match x with S754_zero _ => true | _ => false end.

(** [a / b] on two ints (true division). *)
Definition truediv_int (a b : Z) : result float :=
  if decide (b = 0) then Raise else Ret (div (of_int a) (of_int b)).

(** [a / b] with a float divisor. *)
Definition truediv (a b : float) : result float :=
  if is_zero b then Raise else Ret (div a b).

(** [int(x)]: truncation toward zero; raises on infinities and NaN. *)
Definition to_int (x : float) : result Z :=
  match x with
  | S754_zero _ => Ret 0
  | S754_finite s m e =>
      let a := if decide (0 ≤ e) then Z.pos m * 2 ^ e else Z.pos m / 2 ^ (- e) in
      Ret (if s then - a else a)
  | S754_infinity _ => Raise
  | S754_nan => Raise
  end.

End Float.

Abbreviation float := Float.float.

Arguments Float.of_int : simpl never.
Arguments Float.div : simpl never.
Arguments Float.mul : simpl never.
Arguments Float.sub : simpl never.
Arguments Float.ltb : simpl never.
Arguments Float.leb : simpl never.
Arguments Float.lit : simpl never.
Arguments Float.to_int : simpl never.

(** ** The image library

    The scripts call Pillow for decoding, resizing and encoding.  Its behaviour
    is a parameter of the development: every call may raise, which is the
    answer [None] of the library. *)

Class ImageLib := {
  image : Type;
  (** [Image.open(io.BytesIO(data))] *)
  pil_open : bytes → option image;
  (** [img.size], as [(width, height)] *)
  im_size : image → Z * Z;
  (** [img.mode] *)
  im_mode : image → string;
  (** [img.convert(mode)] *)
  pil_convert : image → string → option image;
  (** [img.resize((w, h), Image.Resampling.LANCZOS)] *)
  pil_resize : image → Z * Z → option image;
  (** [img.save(output, format='PNG', optimize=True, compress_level=c)];
      the bytes written to [output] *)
  pil_save_png : image → option Z → option bytes;
  (** [img.save(output, format='JPEG', quality=q, optimize=True)] *)
  pil_save_jpeg : image → Z → option bytes;
  (** [img.filter(ImageFilter.UnsharpMask(radius=1, percent=120, threshold=3))] *)
  pil_unsharp_mask : image → option image;
  (** [ImageEnhance.Sharpness(img).enhance(1.1)] *)
  pil_enhance_sharpness : image → option image;
  (** [ImageEnhance.Color(img).enhance(1.05)] *)
  pil_enhance_color : image → option image;
}.

(** A call into a library: [None] is an exception. *)
Definition call {A} (o : option A) : result A :=
  match o with
  | Some a => Ret a
  | None => Raise
  end.

Section Calls.
Context `{L : ImageLib}.
Definition Image_open (image_data : bytes) := call (pil_open image_data).
Definition im_convert (img : image) (mode : string) := call (pil_convert img mode).
Definition im_resize (img : image) (box : Z * Z) := call (pil_resize img box).
Definition im_save_png (img : image) (compress_level : option Z) :=
  call (pil_save_png img compress_level).
Definition im_save_jpeg (img : image) (quality : Z) := call (pil_save_jpeg img quality).
Definition im_unsharp_mask (img : image) := call (pil_unsharp_mask img).
Definition im_enhance_sharpness (img : image) := call (pil_enhance_sharpness img).
Definition im_enhance_color (img : image) := call (pil_enhance_color img).
End Calls.

(** [if img.mode in ('RGBA', 'LA', 'P'): img = img.convert('RGB')] *)
Definition normalize_mode `{ImageLib} (img : image) : result image :=
  if decide (im_mode img ∈ ["RGBA"; "LA"; "P"]%string)
  then im_convert img "RGB"%string
  else Ret img.

(** Every while loop of the transcoders runs under this bound. *)
Definition loop_fuel : nat := 100.

(** ** Dictionaries in insertion order *)

Section Dict.
Context {V : Type}.

Fixpoint dict_get (k : string) (d : list (string * V)) : option V :=
  match d with
  | [] => None
  | (k', v) :: d => if decide (k = k') then Some v else dict_get k d
  end.

(** [d[k] = v]: in place for a known key, at the end for a new one. *)
Fixpoint dict_set (k : string) (v : V) (d : list (string * V)) : list (string * V) :=
  match d with
  | [] => [(k, v)]
  | (k', v') :: d => if decide (k = k') then (k, v) :: d else (k', v') :: dict_set k v d
  end.
End Dict.

(** ** The bucket scanner *)

(** [name.split('/')] *)
Fixpoint split_slash (name : string) : list string :=
  match name with
  | EmptyString => [EmptyString]
  | String c rest =>
      match split_slash rest with
      | segment :: segments =>
          if decide (c = "/"%char) then EmptyString :: segment :: segments
          else String c segment :: segments
      | [] => [String c EmptyString]
      end
  end.

Definition image_names : list string := ["event_image.png"; "event_image.jpg"]%string.
Definition thumbnail_names : list string :=
  ["event_thumbnail.png"; "event_thumbnail.jpg"]%string.

(** A listed blob: its name and what [blob.reload(); blob.time_created]
    yields: [None] when the reload raises, else the creation time if there is
    one, a datetime with a time zone, as seconds since 1970. *)
Record blob := { name : string; reload_time_created : option (option Z) }.

(** ** The bucket and the requests to it *)

Record object := { data : bytes; content_type : string }.

(** The calls of the storage client.  Each one may fail (no network, no
    permission); which ones do is a parameter [fails] of the scripts. *)
Inductive request :=
  | Exists (path : string)
  | Download (path : string)
  | Upload (path : string).

Definition blob_path (collection event_id filename : string) : string :=
  collection +:+ "/" +:+ event_id +:+ "/" +:+ filename.

Section Storage.
Context (fails : request → bool).

(** [blob.exists()] *)
Definition blob_exists (bucket : gmap string object) (path : string) : result bool :=
  if fails (Exists path) then Raise
  else Ret (bool_decide (is_Some (bucket !! path))).

(** [blob.download_as_bytes()]; a missing object is an error (404). *)
Definition download_as_bytes (bucket : gmap string object) (path : string)
    : result bytes :=
  if fails (Download path) then Raise
  else match bucket !! path with
       | Some o => Ret (data o)
       | None => Raise
       end.

(** [blob.upload_from_string(data, content_type=...)]: one atomic write. *)
Definition upload_from_string (bucket : gmap string object) (path : string)
    (contents : bytes) (type : string) : result (gmap string object) :=
  if fails (Upload path) then Raise
  else Ret (<[path := {| data := contents; content_type := type |}]> bucket).

(** [for ext in ['png', 'jpg']: ... if blob.exists(): return
    blob.download_as_bytes()], then [return None]; inside a [try] whose
    handler returns [None]. *)
Fixpoint first_existing (bucket : gmap string object) (paths : list string)
    : result (option bytes) :=
  match paths with
  | [] => Ret None
  | path :: paths =>
      found ← blob_exists bucket path;
      if (found : bool) then contents ← download_as_bytes bucket path; Ret (Some contents)
      else first_existing bucket paths
  end.

Definition download_asset (stem : string) (bucket : gmap string object)
    (collection event_id : string) : result (option bytes) :=
  try_except
    (first_existing bucket
       [blob_path collection event_id (stem +:+ ".png");
        blob_path collection event_id (stem +:+ ".jpg")])
    None.

(** The content type read off the first bytes. *)
Definition sniff (contents : bytes) : string :=
  if startswith contents jpeg_magic then "image/jpeg" else "image/png".

(** The shape of every [upload_*] function: write [contents] at [path]
    under the content type [type]; [False] when the write raises. *)
Definition upload_as (path type : string) (bucket : gmap string object)
    (contents : bytes) : result (bool * gmap string object) :=
  try_except
    (bucket ← upload_from_string bucket path contents type; Ret (true, bucket))
    (false, bucket).

End Storage.

(** ** The generator object and the per-event pipeline *)

(** The fields of [self]: the bucket and the three counters. *)
Record generator := {
  bucket : gmap string object;
  processed_count : Z;
  skipped_count : Z;
  error_count : Z;
}.

(** [__init__] *)
Definition connect (b : gmap string object) : generator :=
  {| bucket := b; processed_count := 0; skipped_count := 0; error_count := 0 |}.

(** [self.error_count += 1] *)
Definition count_error (self : generator) : generator :=
  {| bucket := bucket self; processed_count := processed_count self;
     skipped_count := skipped_count self; error_count := error_count self + 1 |}.

(** [self.processed_count += 1], after the upload changed the bucket *)
Definition count_processed (self : generator) (b : gmap string object) : generator :=
  {| bucket := b; processed_count := processed_count self + 1;
     skipped_count := skipped_count self; error_count := error_count self |}.

Definition with_bucket (self : generator) (b : gmap string object) : generator :=
  {| bucket := b; processed_count := processed_count self;
     skipped_count := skipped_count self; error_count := error_count self |}.

(** The three numbers of the final summary. *)
Record summary := {
  successfully_processed : Z;
  skipped_already_existed : Z;
  errors_encountered : Z;
}.

Definition final_summary (self : generator) : summary :=
  {| successfully_processed := processed_count self;
     skipped_already_existed := skipped_count self;
     errors_encountered := error_count self |}.

(** The five generator scripts share [process_event] and the main loop up to
    the names of their three stages. *)
Module Pipeline.

Record stages := {
  download : gmap string object → string → string → result (option bytes);
  transcode : bytes → result (option bytes);
  upload : gmap string object → string → string → bytes
           → result (bool * gmap string object);
}.

(** [process_event]: download, transcode, upload; every failure is counted
    and answered by [False]. *)
Definition process_event (s : stages) (self : generator)
    (collection event_id : string) : result (bool * generator) :=
  try_except
    (source ← download s (bucket self) collection event_id;
     if negb (truthy source) then Ret (false, count_error self)
     else
       produced ← transcode s (default [] source);
       if negb (truthy produced) then Ret (false, count_error self)
       else
         '(uploaded, b) ← upload s (bucket self) collection event_id
                                 (default [] produced);
         if (uploaded : bool) then Ret (true, count_processed self b)
         else Ret (false, count_error (with_bucket self b)))
    (false, count_error self).

(** The loop over the completed futures.  The events are taken one at a
    time, in the order [as_completed] hands them back. *)
Fixpoint run_batch (s : stages) (self : generator) (collection : string)
    (completed : list string) : result (list bool * generator) :=
  match completed with
  | [] => Ret ([], self)
  | event_id :: completed =>
      match process_event s self collection event_id with
      | Ret (success, self) =>
          '(successes, self) ← run_batch s self collection completed;
          Ret (success :: successes, self)
      | Raise =>
          '(successes, self) ← run_batch s (count_error self) collection completed;
          Ret (false :: successes, self)
      | OutOfFuel => OutOfFuel
      end
  end.

(** The main function: [events] is the selection of the script, [schedule]
    the order in which the pool completes the events. *)
Definition generate (s : stages) (self : generator)
    (events : list string) (schedule : list string → list string)
    : result (list bool * generator) :=
  match events with
  | [] => Ret ([], self)
  | _ :: _ => run_batch s self "events" (schedule events)
  end.

End Pipeline.

(** ** generate_thumbnails.py *)

Module Thumbnails.

Record files := { has_image : bool; has_thumbnail : bool }.

Definition fresh : files := {| has_image := false; has_thumbnail := false |}.

(** Lines 89-100 of [generate_thumbnails.py]: one blob of the listing. *)
Definition record_blob (events : list (string * files)) (blob_name : string)
    : list (string * files) :=
  let path_parts := split_slash blob_name in
  if decide (3 ≤ len path_parts) then
    match path_parts with
    | _ :: event_id :: filename :: _ =>
        let events :=
          match dict_get event_id events with
          | None => dict_set event_id fresh events
          | Some _ => events
          end in
        let entry := default fresh (dict_get event_id events) in
        if decide (filename ∈ image_names) then
          dict_set event_id {| has_image := true;
                               has_thumbnail := has_thumbnail entry |} events
        else if decide (filename ∈ thumbnail_names) then
          dict_set event_id {| has_image := has_image entry;
                               has_thumbnail := true |} events
        else events
    | _ => events
    end
  else events.

Fixpoint scan_from (events : list (string * files)) (blob_names : list string)
    : list (string * files) :=
  match blob_names with
  | [] => events
  | blob_name :: blob_names => scan_from (record_blob events blob_name) blob_names
  end.

(** The grouping pass over the whole listing. *)
Definition scan (blob_names : list string) : list (string * files) :=
  scan_from [] blob_names.

Definition needs_thumbnail (entry : string * files) : bool :=
  has_image entry.2 && negb (has_thumbnail entry.2).

(** [get_events_needing_thumbnails]; [listing] is what
    [bucket.list_blobs(prefix=...)] yields, [None] when it raises, which the
    handler answers by the empty list. *)
Definition get_events_needing_thumbnails (listing : option (list blob))
    : list string :=
  match listing with
  | Some blobs =>
      let events := scan (name <$> blobs) in
      (filter (λ e, needs_thumbnail e = true) events).*1
  | None => []
  end.

Section Transcoder.
Context `{L : ImageLib}.

(** Lines 147-157: the target box of the first resize. *)
Definition thumbnail_dims (original_width original_height : Z) (aspect_ratio : float)
    : result (Z * Z) :=
  let max_dimension := 400 in
  if decide (original_height ≤ original_width) then
    let new_width := Z.min max_dimension original_width in
    q ← Float.truediv (Float.of_int new_width) aspect_ratio;
    new_height ← Float.to_int q;
    Ret (new_width, new_height)
  else
    let new_height := Z.min max_dimension original_height in
    new_width ← Float.to_int (Float.mul (Float.of_int new_height) aspect_ratio);
    Ret (new_width, new_height).

(** Lines 203-211: the parameters of the next iteration. *)
Definition adjust (quality : Z) (dimension_scale : float) : Z * float :=
  if decide (50 < quality) then (quality - 10, dimension_scale)
  else if decide (25 < quality) then (quality - 5, dimension_scale)
  else (85, Float.sub dimension_scale (Float.lit 1 10)).

(** Line 166: the loop condition. *)
Definition continue (quality : Z) (dimension_scale : float) : bool :=
  bool_decide (15 < quality) && Float.ltb (Float.lit 3 10) dimension_scale.

(** Lines 166-211.  [Ret (Some b)] is a [return b] from inside the loop,
    [Ret None] is leaving the loop (by its condition or by [break]). *)
Fixpoint optimize_loop (fuel : nat) (img : image) (target_size : Z)
    (new_width new_height : Z) (quality : Z) (dimension_scale : float)
    : result (option bytes) :=
  match fuel with
  | O => OutOfFuel
  | S fuel =>
      if continue quality dimension_scale then
        current_width ← Float.to_int (Float.mul (Float.of_int new_width) dimension_scale);
        current_height ← Float.to_int (Float.mul (Float.of_int new_height) dimension_scale);
        if decide (current_width < 100 ∨ current_height < 100) then Ret None
        else
          resized_img ← (if Float.ltb dimension_scale (Float.of_int 1)
                         then im_resize img (current_width, current_height)
                         else Ret img);
          png ← im_save_png resized_img None;
          if decide (len png ≤ target_size) then Ret (Some png)
          else
            jpeg ← im_save_jpeg resized_img quality;
            if decide (len jpeg ≤ target_size) then Ret (Some jpeg)
            else
              let '(quality, dimension_scale) := adjust quality dimension_scale in
              optimize_loop fuel img target_size new_width new_height
                            quality dimension_scale
      else Ret None
  end.

(** Lines 213-215: the box of the final attempt. *)
Definition final_dims (new_width new_height : Z) : result (Z * Z) :=
  w ← Float.to_int (Float.mul (Float.of_int new_width) (Float.lit 1 2));
  h ← Float.to_int (Float.mul (Float.of_int new_height) (Float.lit 1 2));
  Ret (Z.max 100 w, Z.max 100 h).

(** Lines 213-224: the final attempt, returned without a size check. *)
Definition final_attempt (img : image) (new_width new_height : Z) : result bytes :=
  '(final_width, final_height) ← final_dims new_width new_height;
  final_img ← im_resize img (final_width, final_height);
  im_save_jpeg final_img 15.

(** The body of the [try] block of [create_thumbnail]. *)
Definition create_thumbnail_body (image_data : bytes) (target_size : Z)
    : result (option bytes) :=
  img ← Image_open image_data;
  let '(original_width, original_height) := im_size img in
  aspect_ratio ← Float.truediv_int original_width original_height;
  img ← normalize_mode img;
  '(new_width, new_height) ← thumbnail_dims original_width original_height aspect_ratio;
  img ← im_resize img (new_width, new_height);
  found ← optimize_loop loop_fuel img target_size new_width new_height
                        85 (Float.of_int 1);
  match found with
  | Some result => Ret (Some result)
  | None => result ← final_attempt img new_width new_height; Ret (Some result)
  end.

Definition create_thumbnail (image_data : bytes) (target_size : Z)
    : result (option bytes) :=
  try_except (create_thumbnail_body image_data target_size) None.

Definition default_target_size : Z := 63 * 1024.

End Transcoder.

Section Script.
Context `{L : ImageLib} (fails : request → bool).

Definition download_image := download_asset fails "event_image".

(** [upload_thumbnail]: the content type follows the first bytes. *)
Definition upload_thumbnail (b : gmap string object) (collection event_id : string)
    (thumbnail_data : bytes) : result (bool * gmap string object) :=
  upload_as fails (blob_path collection event_id "event_thumbnail.png")
            (sniff thumbnail_data) b thumbnail_data.

Definition stages : Pipeline.stages :=
  {| Pipeline.download := download_image;
     Pipeline.transcode := λ image_data, create_thumbnail image_data default_target_size;
     Pipeline.upload := upload_thumbnail |}.

Definition process_event := Pipeline.process_event stages.

Definition generate_thumbnails (self : generator) (listing : option (list blob))
    (schedule : list string → list string) : result (list bool * generator) :=
  Pipeline.generate stages self (get_events_needing_thumbnails listing) schedule.

End Script.
End Thumbnails.

(** ** The size search of the upscaling scripts

    [generate_missing_images_recent.py] and [generate_missing_images_simple.py]
    carry the same [_optimize_image_size] up to its constants, which are
    collected in [params]. *)

Module Optimizer.

Record params := {
  (** [quality = 95] (recent), [85] (simple) *)
  start_quality : Z;
  (** [if quality > 70: quality -= 10] (recent), [60] (simple) *)
  coarse_above : Z;
  (** [elif quality > 50: quality -= 5] (recent), [45] (simple) *)
  fine_above : Z;
  (** [quality = 80] (recent), [75] (simple) on scaling down *)
  reset_quality : Z;
  (** recent only: the attempt at quality 30 and original size that
      follows the first loop *)
  full_size_retry : option Z;
  (** [scale_factor = 0.7] (recent), [0.6] (simple) before the last loop *)
  rescue_scale : float;
  (** quality of the last loop: 60 (recent), 70 (simple) *)
  rescue_quality : Z;
}.

Section Search.
Context `{L : ImageLib} (p : params).

Definition adjust (quality : Z) (scale_factor : float) : Z * float :=
  if decide (coarse_above p < quality) then (quality - 10, scale_factor)
  else if decide (fine_above p < quality) then (quality - 5, scale_factor)
  else (reset_quality p, Float.sub scale_factor (Float.lit 1 10)).

(** [while quality > 30 and scale_factor > 0.5] *)
Definition continue (quality : Z) (scale_factor : float) : bool :=
  bool_decide (30 < quality) && Float.ltb (Float.lit 1 2) scale_factor.

Definition scaled (img : image) (width height : Z) (scale_factor : float)
    : result image :=
  scaled_width ← Float.to_int (Float.mul (Float.of_int width) scale_factor);
  scaled_height ← Float.to_int (Float.mul (Float.of_int height) scale_factor);
  im_resize img (scaled_width, scaled_height).

(** The first loop: JPEG at falling quality, then at falling scale. *)
Fixpoint jpeg_loop (fuel : nat) (img : image) (max_size : Z) (width height : Z)
    (quality : Z) (scale_factor : float) : result (option bytes) :=
  match fuel with
  | O => OutOfFuel
  | S fuel =>
      if continue quality scale_factor then
        current_img ← (if Float.ltb scale_factor (Float.of_int 1)
                       then scaled img width height scale_factor
                       else Ret img);
        jpeg ← im_save_jpeg current_img quality;
        if decide (len jpeg ≤ max_size) then Ret (Some jpeg)
        else
          let '(quality, scale_factor) := adjust quality scale_factor in
          jpeg_loop fuel img max_size width height quality scale_factor
      else Ret None
  end.

(** The last loop: [while scale_factor > 0.3], at a fixed quality. *)
Fixpoint rescue_loop (fuel : nat) (img : image) (max_size : Z) (width height : Z)
    (scale_factor : float) : result (option bytes) :=
  match fuel with
  | O => OutOfFuel
  | S fuel =>
      if Float.ltb (Float.lit 3 10) scale_factor then
        scaled_img ← scaled img width height scale_factor;
        jpeg ← im_save_jpeg scaled_img (rescue_quality p);
        if decide (len jpeg ≤ max_size) then Ret (Some jpeg)
        else rescue_loop fuel img max_size width height
                         (Float.sub scale_factor (Float.lit 1 10))
      else Ret None
  end.

Definition retry_full_size (img : image) (max_size : Z) : result (option bytes) :=
  match full_size_retry p with
  | None => Ret None
  | Some quality =>
      jpeg ← im_save_jpeg img quality;
      if decide (len jpeg ≤ max_size) then Ret (Some jpeg) else Ret None
  end.

(** The body of the [try] block of [_optimize_image_size]. *)
Definition optimize_body (img : image) (max_size : Z) (width height : Z)
    : result (option bytes) :=
  png ← im_save_png img (Some 9);
  if decide (len png ≤ max_size) then Ret (Some png)
  else
    found ← jpeg_loop loop_fuel img max_size width height
                      (start_quality p) (Float.of_int 1);
    match found with
    | Some jpeg => Ret (Some jpeg)
    | None =>
        found ← retry_full_size img max_size;
        match found with
        | Some jpeg => Ret (Some jpeg)
        | None => rescue_loop loop_fuel img max_size width height (rescue_scale p)
        end
    end.

Definition optimize_image_size (img : image) (max_size : Z) (width height : Z)
    : result (option bytes) :=
  try_except (optimize_body img max_size width height) None.

End Search.
End Optimizer.

(** ** The upscaling transcoders *)

Module Upscale.
Section Transcoder.
Context `{L : ImageLib}.

(** The target box: [target_size] fitted to the aspect ratio. *)
Definition upscale_dims (target_width target_height : Z) (aspect_ratio : float)
    : result (Z * Z) :=
  if Float.leb (Float.of_int 1) aspect_ratio then
    w ← Float.to_int (Float.mul (Float.of_int target_height) aspect_ratio);
    let new_width := Z.min target_width w in
    q ← Float.truediv (Float.of_int new_width) aspect_ratio;
    new_height ← Float.to_int q;
    Ret (new_width, new_height)
  else
    q ← Float.truediv (Float.of_int target_width) aspect_ratio;
    h ← Float.to_int q;
    let new_height := Z.min target_height h in
    new_width ← Float.to_int (Float.mul (Float.of_int new_height) aspect_ratio);
    Ret (new_width, new_height).

(** Sharpen, resize and enhance when the thumbnail is smaller than the box,
    resize only otherwise. *)
Definition enlarge (img : image) (original_width original_height : Z)
    (new_width new_height : Z) : result image :=
  if decide (original_width < new_width ∨ original_height < new_height) then
    img ← im_unsharp_mask img;
    img ← im_resize img (new_width, new_height);
    img ← im_enhance_sharpness img;
    im_enhance_color img
  else im_resize img (new_width, new_height).

(** What all variants of [upscale_image] do before encoding. *)
Definition prepare (thumbnail_data : bytes) (target_size : Z * Z)
    : result (image * (Z * Z)) :=
  img ← Image_open thumbnail_data;
  let '(original_width, original_height) := im_size img in
  aspect_ratio ← Float.truediv_int original_width original_height;
  img ← normalize_mode img;
  let '(target_width, target_height) := target_size in
  '(new_width, new_height) ← upscale_dims target_width target_height aspect_ratio;
  img ← enlarge img original_width original_height new_width new_height;
  Ret (img, (new_width, new_height)).

(** [upscale_image] of [generate_missing_images.py] and of
    [generate_missing_images_limited.py]: always a PNG. *)
Definition upscale_image_png (thumbnail_data : bytes) (target_size : Z * Z)
    : result (option bytes) :=
  try_except
    ('(img, _) ← prepare thumbnail_data target_size;
     result ← im_save_png img (Some 6);
     Ret (Some result))
    None.

(** [upscale_image] of the recent and simple scripts: the size search. *)
Definition upscale_image_bounded (p : Optimizer.params) (thumbnail_data : bytes)
    (target_size : Z * Z) (max_file_size : Z) : result (option bytes) :=
  try_except
    ('(img, (new_width, new_height)) ← prepare thumbnail_data target_size;
     result ← Optimizer.optimize_image_size p img max_file_size new_width new_height;
     if truthy result then Ret result else Ret None)
    None.

End Transcoder.
End Upscale.

Definition default_box : Z * Z := (800, 800).
Definition default_max_file_size : Z := 1024 * 1024.

(** generate_missing_images.py *)
Module Missing.
Section Script.
Context `{L : ImageLib} (fails : request → bool).

Definition download_thumbnail := download_asset fails "event_thumbnail".

Definition upscale_image := Upscale.upscale_image_png.

(** [upload_image]: "Upload as PNG". *)
Definition upload_image (b : gmap string object) (collection event_id : string)
    (image_data : bytes) : result (bool * gmap string object) :=
  upload_as fails (blob_path collection event_id "event_image.png")
            "image/png" b image_data.

Definition stages : Pipeline.stages :=
  {| Pipeline.download := download_thumbnail;
     Pipeline.transcode := λ thumbnail_data, upscale_image thumbnail_data default_box;
     Pipeline.upload := upload_image |}.

Definition process_event := Pipeline.process_event stages.
Definition generate_missing_images := Pipeline.generate stages.

End Script.
End Missing.

(** generate_missing_images_recent.py *)
Module Recent.

Definition constants : Optimizer.params :=
  {| Optimizer.start_quality := 95;
     Optimizer.coarse_above := 70;
     Optimizer.fine_above := 50;
     Optimizer.reset_quality := 80;
     Optimizer.full_size_retry := Some 30;
     Optimizer.rescue_scale := Float.lit 7 10;
     Optimizer.rescue_quality := 60 |}.

Section Script.
Context `{L : ImageLib} (fails : request → bool).

Definition _optimize_image_size := Optimizer.optimize_image_size constants.
Definition upscale_image := Upscale.upscale_image_bounded constants.

Definition download_thumbnail := download_asset fails "event_thumbnail".

(** [upload_image]: "Upload as PNG", whatever [upscale_image] produced. *)
Definition upload_image (b : gmap string object) (collection event_id : string)
    (image_data : bytes) : result (bool * gmap string object) :=
  upload_as fails (blob_path collection event_id "event_image.png")
            "image/png" b image_data.

Definition stages : Pipeline.stages :=
  {| Pipeline.download := download_thumbnail;
     Pipeline.transcode := λ thumbnail_data,
       upscale_image thumbnail_data default_box default_max_file_size;
     Pipeline.upload := upload_image |}.

Definition process_event := Pipeline.process_event stages.
Definition generate_missing_images := Pipeline.generate stages.

End Script.
End Recent.

(** generate_missing_images_simple.py *)
Module Simple.

Definition constants : Optimizer.params :=
  {| Optimizer.start_quality := 85;
     Optimizer.coarse_above := 60;
     Optimizer.fine_above := 45;
     Optimizer.reset_quality := 75;
     Optimizer.full_size_retry := None;
     Optimizer.rescue_scale := Float.lit 6 10;
     Optimizer.rescue_quality := 70 |}.

Section Script.
Context `{L : ImageLib} (fails : request → bool).

Definition _optimize_image_size := Optimizer.optimize_image_size constants.
Definition upscale_image := Upscale.upscale_image_bounded constants.

Definition download_thumbnail := download_asset fails "event_thumbnail".

(** [upload_image]: "Upload as PNG or JPEG based on the data". *)
Definition upload_image (b : gmap string object) (collection event_id : string)
    (image_data : bytes) : result (bool * gmap string object) :=
  upload_as fails (blob_path collection event_id "event_image.png")
            (sniff image_data) b image_data.

Definition stages : Pipeline.stages :=
  {| Pipeline.download := download_thumbnail;
     Pipeline.transcode := λ thumbnail_data,
       upscale_image thumbnail_data default_box default_max_file_size;
     Pipeline.upload := upload_image |}.

Definition process_event := Pipeline.process_event stages.
Definition generate_missing_images := Pipeline.generate stages.

End Script.
End Simple.

(** ** generate_missing_images_limited.py: the newest events first *)

Module Limited.

(** The date kept for a thumbnail: [blob.time_created], a datetime that
    carries a time zone, as seconds on the time line; or a datetime without a
    time zone, as the seconds its wall clock reads.  The only naive date of
    the script is its fallback [datetime(2020, 1, 1)]. *)
Inductive date :=
  | Aware (time : Z)
  | Naive (time : Z).

Global Instance date_eq_decision : EqDecision date.
Proof. solve_decision. Defined.

Record files := {
  has_image : bool;
  has_thumbnail : bool;
  thumbnail_date : option date;
}.

Definition fresh : files :=
  {| has_image := false; has_thumbnail := false; thumbnail_date := None |}.

(** [datetime(2020, 1, 1)] *)
Definition default_old_date : date := Naive 1577836800.

(** Lines 104-112: the date kept for a thumbnail blob. *)
Definition dated (entry : files) (b : blob) : files :=
  let entry := {| has_image := has_image entry; has_thumbnail := true;
                  thumbnail_date := thumbnail_date entry |} in
  match reload_time_created b with
  | Some (Some created) =>
      {| has_image := has_image entry; has_thumbnail := true;
         thumbnail_date := Some (Aware created) |}
  | Some None => entry
  | None =>
      {| has_image := has_image entry; has_thumbnail := true;
         thumbnail_date := Some default_old_date |}
  end.

Definition record_blob (events : list (string * files)) (b : blob)
    : list (string * files) :=
  let path_parts := split_slash (name b) in
  if decide (3 ≤ len path_parts) then
    match path_parts with
    | _ :: event_id :: filename :: _ =>
        let events :=
          match dict_get event_id events with
          | None => dict_set event_id fresh events
          | Some _ => events
          end in
        let entry := default fresh (dict_get event_id events) in
        if decide (filename ∈ image_names) then
          dict_set event_id {| has_image := true;
                               has_thumbnail := has_thumbnail entry;
                               thumbnail_date := thumbnail_date entry |} events
        else if decide (filename ∈ thumbnail_names) then
          dict_set event_id (dated entry b) events
        else events
    | _ => events
    end
  else events.

Fixpoint scan_from (events : list (string * files)) (blobs : list blob)
    : list (string * files) :=
  match blobs with
  | [] => events
  | b :: blobs => scan_from (record_blob events b) blobs
  end.

(** Lines 114-117: the events with a dated thumbnail and no image. *)
Fixpoint candidates (events : list (string * files)) : list (string * date) :=
  match events with
  | [] => []
  | (event_id, entry) :: events =>
      match thumbnail_date entry with
      | Some date =>
          if has_thumbnail entry && negb (has_image entry)
          then (event_id, date) :: candidates events
          else candidates events
      | None => candidates events
      end
  end.

(** [x < y] on two datetimes.  Between a datetime with a time zone and one
    without, Python raises a [TypeError], which is the answer [None]. *)
Definition date_lt (x y : date) : option bool :=
  match x, y with
  | Aware a, Aware b => Some (bool_decide (a < b))
  | Naive a, Naive b => Some (bool_decide (a < b))
  | _, _ => None
  end.

(** [l.sort(key=lambda x: x[1], reverse=True)]: a stable sort, so that an
    entry is placed before the entries of the same date that followed it.
    The sort compares the dates with [<] and raises when a comparison does;
    a list that holds a naive and an aware date cannot be sorted without
    comparing two such dates. *)
Fixpoint insert_newest (x : string * date) (l : list (string * date))
    : option (list (string * date)) :=
  match l with
  | [] => Some [x]
  | y :: l =>
      older ← date_lt x.2 y.2;
      if (older : bool) then cons y <$> insert_newest x l else Some (x :: y :: l)
  end.

Fixpoint sort_newest_first (l : list (string * date)) : option (list (string * date)) :=
  match l with
  | [] => Some []
  | x :: l => sorted ← sort_newest_first l; insert_newest x sorted
  end.

(** [l[:stop]] *)
Definition slice_to {A} (l : list A) (stop : Z) : list A :=
  if decide (0 ≤ stop) then take (Z.to_nat stop) l
  else take (Z.to_nat (len l + stop)) l.

(** Line 121: [[event_id for event_id, date in events_with_dates[:max_events]]] *)
Definition select (events_with_dates : list (string * date)) (max_events : Z)
    : list string :=
  (slice_to events_with_dates max_events).*1.

(** [l[i]] is defined for [-len(l) <= i < len(l)]. *)
Definition index_defined {A} (l : list A) (i : Z) : bool :=
  bool_decide (- len l ≤ i < len l).

(** Lines 123-127: the logged date range reads
    [events_with_dates[min(len(events_with_dates)-1, max_events-1)]]. *)
Definition date_range_defined (events_with_dates : list (string * date))
    (max_events : Z) : bool :=
  match events_with_dates with
  | [] => true
  | _ :: _ =>
      index_defined events_with_dates
                    (Z.min (len events_with_dates - 1) (max_events - 1))
  end.

(** [get_events_needing_images]; an exception (a listing that raises, a sort
    that raises, an index out of range) is answered by the empty list. *)
Definition get_events_needing_images (listing : option (list blob)) (max_events : Z)
    : list string :=
  match listing with
  | Some blobs =>
      let events := scan_from [] blobs in
      match sort_newest_first (candidates events) with
      | Some events_with_dates =>
          if date_range_defined events_with_dates max_events
          then select events_with_dates max_events
          else []
      | None => []
      end
  | None => []
  end.

Section Script.
Context `{L : ImageLib} (fails : request → bool).

Definition download_thumbnail := download_asset fails "event_thumbnail".

Definition upscale_image := Upscale.upscale_image_png.

(** [upload_image]: "Upload as PNG". *)
Definition upload_image (b : gmap string object) (collection event_id : string)
    (image_data : bytes) : result (bool * gmap string object) :=
  upload_as fails (blob_path collection event_id "event_image.png")
            "image/png" b image_data.

Definition stages : Pipeline.stages :=
  {| Pipeline.download := download_thumbnail;
     Pipeline.transcode := λ thumbnail_data, upscale_image thumbnail_data default_box;
     Pipeline.upload := upload_image |}.

Definition process_event := Pipeline.process_event stages.

Definition generate_missing_images (self : generator) (listing : option (list blob))
    (max_events : Z) (schedule : list string → list string)
    : result (list bool * generator) :=
  Pipeline.generate stages self (get_events_needing_images listing max_events) schedule.

End Script.
End Limited.

(** ** A small image library

    Used to run the scripts on concrete inputs.  An image is its box and its
    mode; an encoding is a magic number, the box and the mode, followed by a
    payload that grows with the area (and, for JPEG, with the quality). *)

Module Toy.

Record img := { width : Z; height : Z; colours : string }.

Definition byte_of (n : Z) : Byte.byte :=
  default Byte.x00 (Byte.of_N (Z.to_N (n `mod` 256))).
Definition int_of (b : Byte.byte) : Z := Z.of_N (Byte.to_N b).

Definition be16 (n : Z) : bytes := [byte_of (n / 256); byte_of n].

Definition mode_code (m : string) : Byte.byte :=
  if decide (m = "RGBA"%string) then Byte.x01
  else if decide (m = "LA"%string) then Byte.x02
  else if decide (m = "P"%string) then Byte.x03
  else Byte.x00.
Definition mode_name (b : Byte.byte) : string :=
  if decide (b = Byte.x01) then "RGBA"
  else if decide (b = Byte.x02) then "LA"
  else if decide (b = Byte.x03) then "P"
  else "RGB".

Definition png_magic : bytes := [Byte.x89; Byte.x50; Byte.x4e; Byte.x47].

Definition header (i : img) : bytes :=
  be16 (width i) ++ be16 (height i) ++ [mode_code (colours i)].

Definition payload (n : Z) : bytes := replicate (Z.to_nat n) Byte.x00.

Definition png (i : img) : bytes :=
  png_magic ++ header i ++ payload (width i * height i / 16).

Definition jpeg (i : img) (quality : Z) : bytes :=
  jpeg_magic ++ header i ++ payload (width i * height i * quality / 1600).

Definition encode_png (i : img) (_ : option Z) : option bytes := Some (png i).

Definition encode_jpeg (i : img) (quality : Z) : option bytes := Some (jpeg i quality).

Definition parse_header (h : bytes) : option img :=
  match h with
  | w1 :: w0 :: h1 :: h0 :: m :: _ =>
      let w := int_of w1 * 256 + int_of w0 in
      let h := int_of h1 * 256 + int_of h0 in
      if decide (1 ≤ w ∧ 1 ≤ h)
      then Some {| width := w; height := h; colours := mode_name m |}
      else None
  | _ => None
  end.

Definition decode (data : bytes) : option img :=
  if startswith data png_magic then parse_header (drop 4 data)
  else if startswith data jpeg_magic then parse_header (drop 3 data)
  else None.

(** As in Pillow, an empty box is refused. *)
Definition scale_to (i : img) (box : Z * Z) : option img :=
  if decide (1 ≤ box.1 ∧ 1 ≤ box.2)
  then Some {| width := box.1; height := box.2; colours := colours i |}
  else None.

Definition recolour (i : img) (m : string) : option img :=
  Some {| width := width i; height := height i; colours := m |}.

Definition lib : ImageLib :=
  {| image := img;
     pil_open := decode;
     im_size := λ i, (width i, height i);
     im_mode := colours;
     pil_convert := recolour;
     pil_resize := scale_to;
     pil_save_png := encode_png;
     pil_save_jpeg := encode_jpeg;
     pil_unsharp_mask := Some;
     pil_enhance_sharpness := Some;
     pil_enhance_color := Some |}.

Definition rgb (w h : Z) : img := {| width := w; height := h; colours := "RGB" |}.

(** The stored form of a [w]×[h] RGB picture. *)
Definition picture (w h : Z) : bytes := png_magic ++ header (rgb w h).

End Toy.


(** ** The searches as a first fit over a fixed list of candidates *)

(** A candidate is an encoding attempt; it may raise.  The search returns the
    first candidate that fits the ceiling, and stops at one that raises. *)
Fixpoint first_fit (ceiling : Z) (candidates : list (result bytes))
    : result (option bytes) :=
  match candidates with
  | [] => Ret None
  | candidate :: candidates =>
      encoded ← candidate;
      if decide (len encoded ≤ ceiling) then Ret (Some encoded)
      else first_fit ceiling candidates
  end.

(** The position of the candidate that [first_fit] accepts. *)
Fixpoint accepted (ceiling : Z) (candidates : list (result bytes)) : option nat :=
  match candidates with
  | [] => None
  | Ret encoded :: candidates =>
      if decide (len encoded ≤ ceiling) then Some 0%nat
      else S <$> accepted ceiling candidates
  | _ :: _ => None
  end.

(** The parameters a loop goes through when no candidate is accepted. *)
Fixpoint schedule (continue : Z → float → bool) (adjust : Z → float → Z * float)
    (fuel : nat) (quality : Z) (scale : float) : option (list (Z * float)) :=
  match fuel with
  | O => None
  | S fuel =>
      if continue quality scale then
        let '(quality', scale') := adjust quality scale in
        cons (quality, scale) <$> schedule continue adjust fuel quality' scale'
      else Some []
  end.

(** The scales of a [while scale_factor > 0.3: ... scale_factor -= 0.1]. *)
Fixpoint rescue_scales (fuel : nat) (scale : float) : option (list float) :=
  match fuel with
  | O => None
  | S fuel =>
      if Float.ltb (Float.lit 3 10) scale then
        cons scale <$> rescue_scales fuel (Float.sub scale (Float.lit 1 10))
      else Some []
  end.

(** The 72 settings of [create_thumbnail]: qualities 85, 75, 65, 55, 45, 40,
    35, 30, 25 at each of eight scales.  The eighth scale is the binary64
    number 0.30000000000000016, which passes [dimension_scale > 0.3]. *)
Definition thumbnail_settings : list (Z * float) :=
  Eval vm_compute in
    default [] (schedule Thumbnails.continue Thumbnails.adjust loop_fuel 85 (Float.of_int 1)).

Definition recent_settings : list (Z * float) :=
  Eval vm_compute in
    default [] (schedule Optimizer.continue (Optimizer.adjust Recent.constants)
                         loop_fuel 95 (Float.of_int 1)).

Definition recent_scales : list float :=
  Eval vm_compute in default [] (rescue_scales loop_fuel (Float.lit 7 10)).

Definition simple_settings : list (Z * float) :=
  Eval vm_compute in
    default [] (schedule Optimizer.continue (Optimizer.adjust Simple.constants)
                         loop_fuel 85 (Float.of_int 1)).

Definition simple_scales : list float :=
  Eval vm_compute in default [] (rescue_scales loop_fuel (Float.lit 6 10)).

Section Candidates.
Context `{L : ImageLib}.

(** The candidates of the loop of [create_thumbnail], for the resized image
    [img] of box [new_width]×[new_height]: at each setting a PNG and a JPEG
    of the scaled image, up to the first setting whose box has a side
    under 100. *)
Fixpoint loop_candidates (img : image) (new_width new_height : Z)
    (settings : list (Z * float)) : list (result bytes) :=
  match settings with
  | [] => []
  | (quality, dimension_scale) :: settings =>
      match
        (current_width ← Float.to_int (Float.mul (Float.of_int new_width) dimension_scale);
         current_height ← Float.to_int (Float.mul (Float.of_int new_height) dimension_scale);
         Ret (current_width, current_height))
      with
      | Ret (current_width, current_height) =>
          if decide (current_width < 100 ∨ current_height < 100) then []
          else
            let resized_img :=
              if Float.ltb dimension_scale (Float.of_int 1)
              then im_resize img (current_width, current_height)
              else Ret img in
            (i ← resized_img; im_save_png i None)
            :: (i ← resized_img; im_save_jpeg i quality)
            :: loop_candidates img new_width new_height settings
      | Raise => [Raise]
      | OutOfFuel => [OutOfFuel]
      end
  end.

(** What [create_thumbnail] does before its loop: the image resized to
    its 400 box, and the box. *)
Definition thumbnail_base (image_data : bytes) : result (image * (Z * Z)) :=
  img ← Image_open image_data;
  let '(original_width, original_height) := im_size img in
  aspect_ratio ← Float.truediv_int original_width original_height;
  img ← normalize_mode img;
  '(new_width, new_height) ←
    Thumbnails.thumbnail_dims original_width original_height aspect_ratio;
  img ← im_resize img (new_width, new_height);
  Ret (img, (new_width, new_height)).

(** The position in the order of [create_thumbnail] of the candidate
    returned under [ceiling]; the final attempt comes last. *)
Definition thumbnail_choice (ceiling : Z) (candidates : list (result bytes)) : nat :=
  default (length candidates) (accepted ceiling candidates).

(** The whole order of [create_thumbnail]: the candidates of the loop, then
    the final attempt. *)
Definition thumbnail_order (base : image) (nw nh : Z) : list (result bytes) :=
  loop_candidates base nw nh thumbnail_settings ++ [Thumbnails.final_attempt base nw nh].

Definition jpeg_candidates (img : image) (width height : Z)
    (settings : list (Z * float)) : list (result bytes) :=
  (λ '(quality, scale_factor),
     current_img ← (if Float.ltb scale_factor (Float.of_int 1)
                    then Optimizer.scaled img width height scale_factor
                    else Ret img);
     im_save_jpeg current_img quality) <$> settings.

Definition retry_candidates (p : Optimizer.params) (img : image) : list (result bytes) :=
  match Optimizer.full_size_retry p with
  | None => []
  | Some quality => [im_save_jpeg img quality]
  end.

Definition rescue_candidates (p : Optimizer.params) (img : image) (width height : Z)
    (scales : list float) : list (result bytes) :=
  (λ scale_factor,
     scaled_img ← Optimizer.scaled img width height scale_factor;
     im_save_jpeg scaled_img (Optimizer.rescue_quality p)) <$> scales.

(** The order of [_optimize_image_size]: the PNG, the JPEGs of the first
    loop, the retry at full size if there is one, the JPEGs of the last
    loop. *)
Definition size_candidates (p : Optimizer.params) (settings : list (Z * float))
    (scales : list float) (img : image) (width height : Z) : list (result bytes) :=
  im_save_png img (Some 9)
  :: jpeg_candidates img width height settings
  ++ retry_candidates p img
  ++ rescue_candidates p img width height scales.

Definition recent_candidates := size_candidates Recent.constants recent_settings recent_scales.
Definition simple_candidates := size_candidates Simple.constants simple_settings simple_scales.

End Candidates.

Arguments thumbnail_settings : simpl never.
Arguments recent_settings : simpl never.
Arguments recent_scales : simpl never.
Arguments simple_settings : simpl never.
Arguments simple_scales : simpl never.
Arguments loop_fuel : simpl never.

(** [int(n * scale)] is defined for every side [n] of a box within 400×400. *)
Definition scale_returns (scale : float) : bool :=
  forallb
    (λ n, match Float.to_int (Float.mul (Float.of_int n) scale) with
          | Ret _ => true
          | _ => false
          end)
    (seqZ 0 401).

(** [int(n * 0.5)] is [n // 2] for every such side. *)
Definition halves : bool :=
  forallb
    (λ n, match Float.to_int (Float.mul (Float.of_int n) (Float.lit 1 2)) with
          | Ret k => bool_decide (k = n / 2)
          | _ => false
          end)
    (seqZ 0 401).

(** The stages of the five generator scripts. *)
Definition generator_scripts `{L : ImageLib} (fails : request → bool)
    : list Pipeline.stages :=
  [Thumbnails.stages fails; Missing.stages fails; Limited.stages fails;
   Recent.stages fails; Simple.stages fails].

(** [name.endswith(suffix)] *)
Definition ends_with (name suffix : string) : Prop := ∃ stem, name = stem +:+ suffix.


(** The stages answer within the bound of their loops, and a failed upload
    leaves the bucket as it was. *)
Record stages_behave (s : Pipeline.stages) : Prop := {
  download_in_fuel b c e : Pipeline.download s b c e ≠ OutOfFuel;
  transcode_in_fuel d : Pipeline.transcode s d ≠ OutOfFuel;
  upload_in_fuel b c e d : Pipeline.upload s b c e d ≠ OutOfFuel;
  upload_failed b c e d b' : Pipeline.upload s b c e d = Ret (false, b') → b' = b;
}.

(** The number of [True] and of [False] among the answers of a batch. *)
Definition count_of (answer : bool) (answers : list bool) : Z :=
  len (filter (λ a, a = answer) answers).

(** The uploaders that write [event_image.png]. *)
Definition image_uploaders (fails : request → bool)
    : list (gmap string object → string → string → bytes
            → result (bool * gmap string object)) :=
  [Missing.upload_image fails; Limited.upload_image fails;
   Recent.upload_image fails; Simple.upload_image fails].

(** ** A small bucket

    Three events are listed with an image and no thumbnail; the image of [e2]
    is gone by the time it is downloaded (a 404). *)

Module Sample.

Definition stored (contents : bytes) : object :=
  {| data := contents; content_type := "image/png" |}.

Definition objects : gmap string object :=
  <["events/e1/event_image.png"%string := stored (Toy.picture 640 480)]>
  (<["events/e3/event_image.jpg"%string := stored (Toy.picture 300 500)]> ∅).

Definition listed (blob_name : string) : blob :=
  {| name := blob_name; reload_time_created := Some None |}.

Definition listing : option (list blob) :=
  Some [listed "events/e1/event_image.png"; listed "events/e2/event_image.png";
        listed "events/e3/event_image.jpg"].

Definition online : request → bool := λ _, false.

Definition created (blob_name : string) (time : Z) : blob :=
  {| name := blob_name; reload_time_created := Some (Some time) |}.

(** Thumbnails of five events: [e4] has an image too, and the date of [e5]
    cannot be loaded. *)
Definition thumbnails : list blob :=
  [created "events/e1/event_thumbnail.png" 1700000100;
   created "events/e2/event_thumbnail.png" 1700000300;
   created "events/e3/event_thumbnail.jpg" 1700000200;
   created "events/e4/event_thumbnail.png" 1700000400;
   listed "events/e4/event_image.png";
   {| name := "events/e5/event_thumbnail.png"; reload_time_created := None |}].

(** The same listing without the thumbnail of [e5]: every date loads. *)
Definition dated : list blob := take 5 thumbnails.

End Sample.

(** ** The scanner, in the words of the specification *)

(** The second and third segment of a name that has at least three. *)
Definition event_and_file (blob_name : string) : option (string * string) :=
  let segments := split_slash blob_name in
  if decide (3 ≤ len segments) then
    event_id ← segments !! 1%nat;
    filename ← segments !! 2%nat;
    Some (event_id, filename)
  else None.

(** The third segments of the names grouped under [event_id], in the order of
    the listing; names with fewer than three segments are in no group. *)
Definition group (blob_names : list string) (event_id : string) : list string :=
  omap (λ blob_name,
          '(id, filename) ← event_and_file blob_name;
          if decide (id = event_id) then Some filename else None)
       blob_names.

(** An event exists when its group is not empty; it has an image when some
    name of the group is an image name, and likewise for the thumbnail. *)
Definition classify (blob_names : list string) (event_id : string)
    : option Thumbnails.files :=
  match group blob_names event_id with
  | [] => None
  | filenames =>
      Some {| Thumbnails.has_image :=
                existsb (λ filename, bool_decide (filename ∈ image_names)) filenames;
              Thumbnails.has_thumbnail :=
                existsb (λ filename, bool_decide (filename ∈ thumbnail_names)) filenames |}
  end.

(** What one blob name adds to the entry of its event. *)
Definition note (entry : Thumbnails.files) (filename : string) : Thumbnails.files :=
  if decide (filename ∈ image_names) then
    {| Thumbnails.has_image := true;
       Thumbnails.has_thumbnail := Thumbnails.has_thumbnail entry |}
  else if decide (filename ∈ thumbnail_names) then
    {| Thumbnails.has_image := Thumbnails.has_image entry;
       Thumbnails.has_thumbnail := true |}
  else entry.

(** The entry after the names of a group, from the entry before them. *)
Definition merge (entry : option Thumbnails.files) (filenames : list string)
    : option Thumbnails.files :=
  foldl (λ entry filename, Some (note (default Thumbnails.fresh entry) filename))
        entry filenames.

(** The bound of the loops was not reached. *)
Definition in_fuel {A} (m : result A) : Prop := m ≠ OutOfFuel.

(** [x] comes no later than [y]: the two dates can be compared, and [x] is
    not the older one. *)
Definition newer (x y : string * Limited.date) : Prop :=
  Limited.date_lt x.2 y.2 = Some false.

(** Along a list of settings the scale never grows, and at one scale the
    quality falls. *)
Fixpoint descending (settings : list (Z * float)) : bool :=
  match settings with
  | (quality, scale) :: (((quality', scale') :: _) as rest) =>
      (Float.ltb scale' scale
       || (SFeqb scale' scale && bool_decide (quality' < quality)))
      && descending rest
  | _ => true
  end.

(** A scale in thousandths, as [int(1000 * scale)]. *)
Definition permille (scale : float) : Z :=
  match Float.to_int (Float.mul (Float.of_int 1000) scale) with
  | Ret k => k
  | _ => -1
  end.

(** The settings with their scales in thousandths. *)
Definition levels (settings : list (Z * float)) : list (Z * Z) :=
  (λ '(quality, scale), (quality, permille scale)) <$> settings.

(** Every quality of [qualities] at the first scale, then at the second,
    and so on. *)
Definition grid (qualities scales : list Z) : list (Z * Z) :=
  scale ← scales; (λ quality, (quality, scale)) <$> qualities.

(** The level [x] is no higher than the level [y]: a smaller scale, or the
    same scale and no higher quality. *)
Definition level_le (x y : Z * Z) : Prop := x.2 < y.2 ∨ (x.2 = y.2 ∧ x.1 ≤ y.1).

Global Instance level_le_dec : RelDecision level_le.
Proof. intros x y. unfold level_le. apply _. Defined.

(** ** The other selection policies *)

(** A segment of the layout: a name without a slash. *)
Fixpoint slash_free (segment : string) : bool :=
  match segment with
  | EmptyString => true
  | String c rest => if decide (c = "/"%char) then false else slash_free rest
  end.

(** [check_event_has_image] of the recent and simple scripts: does one of
    [event_image.png], [event_image.jpg] exist?  An exception is answered by
    [False]. *)
Fixpoint any_exists (fails : request → bool) (b : gmap string object)
    (paths : list string) : result bool :=
  match paths with
  | [] => Ret false
  | path :: paths =>
      found ← blob_exists fails b path;
      if (found : bool) then Ret true else any_exists fails b paths
  end.

Definition check_event_has_image (fails : request → bool) (b : gmap string object)
    (collection event_id : string) : bool :=
  match any_exists fails b
          [blob_path collection event_id ("event_image" +:+ ".png");
           blob_path collection event_id ("event_image" +:+ ".jpg")]
  with
  | Ret found => found
  | Raise | OutOfFuel => false
  end.

(** generate_missing_images_recent.py: the listing is read backwards until
    [max_events] events are found. *)
Module Recent_scan.
Section Scan.
Context (fails : request → bool) (b : gmap string object) (collection : string)
        (max_events : Z).

(** The loop over [reversed(blobs)], from its state: the events found, the
    events checked and the number found. *)
Fixpoint scan_from (blob_names : list string) (events_needing_images : list string)
    (events_checked : gset string) (found_count : Z) : list string :=
  match blob_names with
  | [] => events_needing_images
  | blob_name :: blob_names =>
      if decide (max_events ≤ found_count) then events_needing_images
      else
        let path_parts := split_slash blob_name in
        if decide (3 ≤ len path_parts) then
          match path_parts with
          | _ :: event_id :: filename :: _ =>
              if decide (event_id ∈ events_checked) then
                scan_from blob_names events_needing_images events_checked found_count
              else if decide (filename ∈ thumbnail_names) then
                if check_event_has_image fails b collection event_id then
                  scan_from blob_names events_needing_images
                            ({[event_id]} ∪ events_checked) found_count
                else
                  scan_from blob_names (events_needing_images ++ [event_id])
                            ({[event_id]} ∪ events_checked) (found_count + 1)
              else
                scan_from blob_names events_needing_images events_checked found_count
          | _ => scan_from blob_names events_needing_images events_checked found_count
          end
        else scan_from blob_names events_needing_images events_checked found_count
  end.

Definition get_recent_events_needing_images (listing : option (list blob)) : list string :=
  match listing with
  | Some blobs => scan_from (reverse (name <$> blobs)) [] ∅ 0
  | None => []
  end.

End Scan.
End Recent_scan.

(** generate_missing_images_simple.py: the listing is read forwards, and an
    event is taken as soon as one of its thumbnails is met. *)
Module Simple_scan.
Section Scan.
Context (fails : request → bool) (b : gmap string object) (collection : string)
        (max_events : Z).

Fixpoint scan_from (blob_names : list string) (events : list (string * Thumbnails.files))
    (events_needing_images : list string) : list string :=
  match blob_names with
  | [] => events_needing_images
  | blob_name :: blob_names =>
      if decide (max_events ≤ len events_needing_images) then events_needing_images
      else
        let path_parts := split_slash blob_name in
        if decide (3 ≤ len path_parts) then
          match path_parts with
          | _ :: event_id :: filename :: _ =>
              let events :=
                match dict_get event_id events with
                | None => dict_set event_id Thumbnails.fresh events
                | Some _ => events
                end in
              let entry := default Thumbnails.fresh (dict_get event_id events) in
              if decide (filename ∈ image_names) then
                scan_from blob_names
                  (dict_set event_id
                     {| Thumbnails.has_image := true;
                        Thumbnails.has_thumbnail := Thumbnails.has_thumbnail entry |}
                     events)
                  events_needing_images
              else if decide (filename ∈ thumbnail_names) then
                let events :=
                  dict_set event_id
                    {| Thumbnails.has_image := Thumbnails.has_image entry;
                       Thumbnails.has_thumbnail := true |}
                    events in
                if negb (Thumbnails.has_image entry)
                   && negb (check_event_has_image fails b collection event_id)
                then scan_from blob_names events (events_needing_images ++ [event_id])
                else scan_from blob_names events events_needing_images
              else scan_from blob_names events events_needing_images
          | _ => scan_from blob_names events events_needing_images
          end
        else scan_from blob_names events events_needing_images
  end.

Definition get_events_needing_images (listing : option (list blob)) : list string :=
  match listing with
  | Some blobs => scan_from (name <$> blobs) [] []
  | None => []
  end.

End Scan.
End Simple_scan.

(** generate_missing_images.py: the events whose thumbnail was created in the
    last [months_back] months (of 30 days). *)
Module Window.

(** [timedelta(days=days)], in seconds: an [OverflowError] beyond 999999999
    days. *)
Definition timedelta (days : Z) : option Z :=
  if decide (-999999999 ≤ days ≤ 999999999) then Some (days * 86400) else None.

(** [datetime.min] and [datetime.max] (the years 1 to 9999), in seconds since
    1970. *)
Definition datetime_min : Z := -62135596800.
Definition datetime_max : Z := 253402300799.

(** Line 82: [datetime.now() - timedelta(days=months_back * 30)], in seconds;
    an [OverflowError] when the difference is no datetime. *)
Definition cutoff_date (now months_back : Z) : option Z :=
  delta ← timedelta (months_back * 30);
  let cutoff := now - delta in
  if decide (datetime_min ≤ cutoff ≤ datetime_max) then Some cutoff else None.

(** Lines 98-102: the reload of a thumbnail blob, which is not guarded: an
    exception leaves the loop. *)
Definition note_recent (cutoff : Z) (recent_events : gset string) (event_id : string)
    (b : blob) : option (gset string) :=
  created ← reload_time_created b;
  match created with
  | Some time =>
      if decide (cutoff ≤ time) then Some ({[event_id]} ∪ recent_events)
      else Some recent_events
  | None => Some recent_events
  end.

Fixpoint scan_from (cutoff : Z) (blobs : list blob)
    (events : list (string * Thumbnails.files)) (recent_events : gset string)
    : option (list (string * Thumbnails.files) * gset string) :=
  match blobs with
  | [] => Some (events, recent_events)
  | b :: blobs =>
      let path_parts := split_slash (name b) in
      if decide (3 ≤ len path_parts) then
        match path_parts with
        | _ :: event_id :: filename :: _ =>
            recent_events ←
              (if decide (filename ∈ thumbnail_names)
               then note_recent cutoff recent_events event_id b
               else Some recent_events);
            scan_from cutoff blobs (Thumbnails.record_blob events (name b)) recent_events
        | _ => scan_from cutoff blobs events recent_events
        end
      else scan_from cutoff blobs events recent_events
  end.

(** [get_events_needing_images].  The cutoff date is computed before the
    [try] block: its [OverflowError] leaves the function.  Inside the block
    an exception is answered by the empty list. *)
Definition get_events_needing_images (now months_back : Z) (listing : option (list blob))
    : result (list string) :=
  match cutoff_date now months_back with
  | None => Raise
  | Some cutoff =>
      match listing ≫= λ blobs, scan_from cutoff blobs [] ∅ with
      | Some (events, recent_events) =>
          Ret (filter (λ e, e.1 ∈ recent_events ∧ Thumbnails.has_thumbnail e.2 = true
                            ∧ Thumbnails.has_image e.2 = false) events).*1
      | None => Ret []
      end
  end.

End Window.

(** count_events_needing_images.py *)
Module Counter.

Record counts := {
  total_events : Z;
  events_with_both : Z;
  events_with_only_image : Z;
  events_with_only_thumbnail : Z;
  events_with_neither : Z;
}.

Definition count_where (image thumbnail : bool) (events : list (string * Thumbnails.files))
    : Z :=
  len (filter (λ e, Thumbnails.has_image e.2 = image
                    ∧ Thumbnails.has_thumbnail e.2 = thumbnail) events).

(** The categories of the scan results. *)
Definition scan_results (blob_names : list string) : counts :=
  let events := Thumbnails.scan blob_names in
  {| total_events := len events;
     events_with_both := count_where true true events;
     events_with_only_image := count_where true false events;
     events_with_only_thumbnail := count_where false true events;
     events_with_neither := count_where false false events |}.

(** [(events_with_only_thumbnail + 499) // 500] *)
Definition batches_of_500 (events_with_only_thumbnail : Z) : Z :=
  (events_with_only_thumbnail + 499) `div` 500.

(** The value returned: the number of events with a thumbnail only, 0 when the
    listing raises. *)
Definition count_events_needing_images (listing : option (list blob)) : Z :=
  match listing with
  | Some blobs => events_with_only_thumbnail (scan_results (name <$> blobs))
  | None => 0
  end.

End Counter.

(** ** The objects a script reads and writes *)

(** The stages of a script whose download reads [stem].png or [stem].jpg of
    the event and whose upload writes [target] of the event, under the content
    type [type] of the bytes. *)
Record stages_layout (fails : request → bool) (s : Pipeline.stages)
    (stem target : string) (type : bytes → string) : Prop := {
  layout_download b c e :
    Pipeline.download s b c e = download_asset fails stem b c e;
  layout_upload b c e d :
    Pipeline.upload s b c e d = upload_as fails (blob_path c e target) (type d) b d;
  layout_png : target ≠ stem +:+ ".png";
  layout_jpg : target ≠ stem +:+ ".jpg";
}.

(** What each generator script reads, what it writes and how it labels it. *)
Definition script_layouts `{L : ImageLib} (fails : request → bool)
    : list (Pipeline.stages * (string * string * (bytes → string))) :=
  [(Thumbnails.stages fails, ("event_image", "event_thumbnail.png", sniff));
   (Missing.stages fails, ("event_thumbnail", "event_image.png", λ _, "image/png"));
   (Limited.stages fails, ("event_thumbnail", "event_image.png", λ _, "image/png"));
   (Recent.stages fails, ("event_thumbnail", "event_image.png", λ _, "image/png"));
   (Simple.stages fails, ("event_thumbnail", "event_image.png", sniff))]%string.

(** Two buckets that hold the same sources [stem].png and [stem].jpg for an
    event. *)
Definition same_sources (stem : string) (b1 b2 : gmap string object) (c e : string)
    : Prop :=
  b1 !! blob_path c e (stem +:+ ".png") = b2 !! blob_path c e (stem +:+ ".png") ∧
  b1 !! blob_path c e (stem +:+ ".jpg") = b2 !! blob_path c e (stem +:+ ".jpg").

(** The two flags of an entry of [generate_missing_images_limited.py]. *)
Definition flags (entry : Limited.files) : Thumbnails.files :=
  {| Thumbnails.has_image := Limited.has_image entry;
     Thumbnails.has_thumbnail := Limited.has_thumbnail entry |}.

(** [b] is listed as a thumbnail of [event_id]. *)
Definition thumbnail_of (event_id : string) (b : blob) : Prop :=
  ∃ filename, event_and_file (name b) = Some (event_id, filename) ∧
              filename ∈ thumbnail_names.

(** ** The boxes of the transcoders, on small images *)

(** The box of the first resize of [create_thumbnail], from the size of the
    image. *)
Definition first_box (original_width original_height : Z) : result (Z * Z) :=
  aspect_ratio ← Float.truediv_int original_width original_height;
  Thumbnails.thumbnail_dims original_width original_height aspect_ratio.

(** The box of [upscale_image] under the default target of 800×800. *)
Definition upscale_box (original_width original_height : Z) : result (Z * Z) :=
  aspect_ratio ← Float.truediv_int original_width original_height;
  Upscale.upscale_dims default_box.1 default_box.2 aspect_ratio.

(** The box keeps the long side and takes at most one pixel off the short
    side. *)
Definition keeps_box (w h : Z) : bool :=
  match first_box w h with
  | Ret (new_width, new_height) =>
      bool_decide (Z.max new_width new_height = Z.max w h ∧
                   Z.min w h - 1 ≤ Z.min new_width new_height ≤ Z.min w h)
  | _ => false
  end.

(** A check of every side, and of every pair of sides, from 1 to [n]. *)
Definition all_sides (n : Z) (check : Z → bool) : bool := forallb check (seqZ 1 n).

Definition all_pairs (n : Z) (check : Z → Z → bool) : bool :=
  all_sides n (λ w, all_sides n (check w)).

(** At the scale 1.0 of the first pass of the loop a side is what it was. *)
Definition unit_scale (n : Z) : bool :=
  match Float.to_int (Float.mul (Float.of_int n) (Float.of_int 1)) with
  | Ret k => bool_decide (k = n)
  | _ => false
  end.

(** The heights up to 400 at which [int(h * (1 / h))] is 0: the product is
    rounded to the largest binary64 number below 1. *)
Definition narrow_heights : list Z :=
  Eval vm_compute in
    List.filter (λ h, match first_box 1 h with
                      | Ret (0, _) => true
                      | _ => false
                      end)
                (seqZ 1 400).

Definition narrow_box (h : Z) : bool :=
  match first_box 1 h with
  | Ret (new_width, new_height) =>
      bool_decide (new_width = (if decide (h ∈ narrow_heights) then 0 else 1) ∧
                   new_height = h)
  | _ => false
  end.


(** A thumbnail whose long side is 400 is doubled, up to one pixel on the
    short side. *)
Definition doubles (s : Z) : bool :=
  match upscale_box 400 s, upscale_box s 400 with
  | Ret (landscape_width, landscape_height), Ret (portrait_width, portrait_height) =>
      bool_decide (landscape_width = 800 ∧ 2 * s - 1 ≤ landscape_height ≤ 2 * s ∧
                   portrait_height = 800 ∧ 2 * s - 1 ≤ portrait_width ≤ 2 * s)
  | _, _ => false
  end.


(** ** scan_events.py: the statistics of a listing *)

Module Scan_events.

Record entry := { has_image : bool; has_thumbnail : bool; files : list string }.

Definition fresh : entry := {| has_image := false; has_thumbnail := false; files := [] |}.

(** Lines 38-43: the file name is appended to the files of the event, then
    the flag of its kind is set. *)
Definition note (e : entry) (filename : string) : entry :=
  let e := {| has_image := has_image e; has_thumbnail := has_thumbnail e;
              files := files e ++ [filename] |} in
  if decide (filename ∈ image_names) then
    {| has_image := true; has_thumbnail := has_thumbnail e; files := files e |}
  else if decide (filename ∈ thumbnail_names) then
    {| has_image := has_image e; has_thumbnail := true; files := files e |}
  else e.

Definition record_blob (events : list (string * entry)) (blob_name : string)
    : list (string * entry) :=
  let path_parts := split_slash blob_name in
  if decide (3 ≤ len path_parts) then
    match path_parts with
    | _ :: event_id :: filename :: _ =>
        let events :=
          match dict_get event_id events with
          | None => dict_set event_id fresh events
          | Some _ => events
          end in
        dict_set event_id (note (default fresh (dict_get event_id events)) filename) events
    | _ => events
    end
  else events.

Fixpoint scan_from (events : list (string * entry)) (blob_names : list string)
    : list (string * entry) :=
  match blob_names with
  | [] => events
  | blob_name :: blob_names => scan_from (record_blob events blob_name) blob_names
  end.

(** The numbers and the lists that the script prints. *)
Record statistics := {
  total_events : Z;
  with_images : Z;
  with_thumbnails : Z;
  need_thumbnails : list string;
  with_both : list string;
}.

(** [scan_events]; [listing] is what [bucket.list_blobs(prefix="events/",
    max_results=50)] yields, [None] when it raises. *)
Definition scan_events (listing : option (list blob)) : option statistics :=
  blobs ← listing;
  let events := scan_from [] (name <$> blobs) in
  Some {| total_events := len events;
          with_images := len (filter (λ e, has_image e.2 = true) events);
          with_thumbnails := len (filter (λ e, has_thumbnail e.2 = true) events);
          need_thumbnails :=
            (filter (λ e, has_image e.2 = true ∧ has_thumbnail e.2 = false) events).*1;
          with_both :=
            (filter (λ e, has_image e.2 = true ∧ has_thumbnail e.2 = true) events).*1 |}.

(** The two flags of an entry. *)
Definition flags (e : entry) : Thumbnails.files :=
  {| Thumbnails.has_image := has_image e; Thumbnails.has_thumbnail := has_thumbnail e |}.

End Scan_events.

(** * Properties *)

(** ** The result monad *)

Lemma bind_ret {A B} (a : A) (f : A → result B) : (Ret a ≫= f) = f a.
Proof. reflexivity. Qed.

Lemma bind_returns {A B} (m : result A) (f : A → result B) (b : B) :
  m ≫= f = Ret b → ∃ a, m = Ret a ∧ f a = Ret b.
Proof. destruct m; cbn; intros; try discriminate; eauto. Qed.

Lemma call_in_fuel {A} (o : option A) : call o ≠ OutOfFuel.
Proof. by destruct o. Qed.

Lemma to_int_in_fuel x : Float.to_int x ≠ OutOfFuel.
Proof. by destruct x. Qed.

Lemma try_except_returns {A} (m : result A) (h : A) :
  m ≠ OutOfFuel → returns (try_except m h).
Proof. destruct m; intros; [by eexists..|done]. Qed.

(** ** First fit *)

Lemma first_fit_fits C l b : first_fit C l = Ret (Some b) → len b ≤ C.
Proof.
  induction l as [|c l IH]; cbn; [done|].
  destruct c as [e| |]; cbn; try done.
  case_decide; [by intros [= <-]|done].
Qed.

Lemma first_fit_app C l1 l2 :
  first_fit C (l1 ++ l2) =
  found ← first_fit C l1;
  match found with
  | Some b => Ret (Some b)
  | None => first_fit C l2
  end.
Proof.
  induction l1 as [|c l1 IH]; cbn; [done|].
  destruct c as [e| |]; cbn; try done.
  by case_decide.
Qed.

(** [first_fit] returns the candidate at the position [accepted] tells. *)
Lemma first_fit_accepted C l b :
  first_fit C l = Ret (Some b) ↔ ∃ i, accepted C l = Some i ∧ l !! i = Some (Ret b).
Proof.
  induction l as [|c l IH]; cbn.
  - split; [done|]. by intros (? & ? & ?).
  - destruct c as [e| |]; cbn; try (split; [done|by intros (? & ? & ?)]).
    case_decide.
    + split.
      * intros [= <-]. by exists 0%nat.
      * intros (i & [= <-] & [= <-]). done.
    + rewrite IH. split.
      * intros (i & -> & ?). by exists (S i).
      * intros (i & Hi & Hl). destruct (accepted C l) as [j|]; [|done].
        injection Hi as <-. by exists j.
Qed.

Lemma first_fit_none C l :
  first_fit C l = Ret None → accepted C l = None.
Proof.
  induction l as [|c l IH]; cbn; [done|].
  destruct c as [e| |]; cbn; try done.
  case_decide; [done|]. by intros ->%IH.
Qed.

(** Under a larger ceiling the accepted candidate comes no later. *)
Lemma accepted_monotone C1 C2 l i1 :
  C1 ≤ C2 → accepted C1 l = Some i1 →
  ∃ i2 b2, accepted C2 l = Some i2 ∧ l !! i2 = Some (Ret b2) ∧ (i2 ≤ i1)%nat.
Proof.
  intros HC. revert i1. induction l as [|c l IH]; cbn; [done|]. intros i1.
  destruct c as [e| |]; try done.
  destruct (decide (len e ≤ C2)).
  - intros _. exists 0%nat, e. split_and!; [done..|lia].
  - rewrite decide_False by lia.
    destruct (accepted C1 l) as [j1|]; [|done]. intros [= <-].
    destruct (IH j1 eq_refl) as (i2 & b2 & -> & ? & ?).
    exists (S i2), b2. split_and!; [done..|lia].
Qed.

Lemma first_fit_monotone C1 C2 l b1 :
  C1 ≤ C2 → first_fit C1 l = Ret (Some b1) →
  ∃ i1 i2 b2,
    accepted C1 l = Some i1 ∧ l !! i1 = Some (Ret b1) ∧
    accepted C2 l = Some i2 ∧ l !! i2 = Some (Ret b2) ∧
    first_fit C2 l = Ret (Some b2) ∧ (i2 ≤ i1)%nat.
Proof.
  intros HC (i1 & Hi1 & Hl1)%first_fit_accepted.
  destruct (accepted_monotone C1 C2 l i1 HC Hi1) as (i2 & b2 & Hi2 & Hl2 & Hle).
  exists i1, i2, b2. split_and!; try done.
  apply first_fit_accepted. eauto.
Qed.

(** ** The loops are first-fit searches *)

Section Loops.
Context `{L : ImageLib}.

Lemma optimize_loop_first_fit fuel img C nw nh q s settings :
  schedule Thumbnails.continue Thumbnails.adjust fuel q s = Some settings →
  Thumbnails.optimize_loop fuel img C nw nh q s
  = first_fit C (loop_candidates img nw nh settings).
Proof.
  revert q s settings. induction fuel as [|fuel IH]; intros q s settings; cbn; [done|].
  destruct (Thumbnails.continue q s); [|by intros [= <-]].
  destruct (Thumbnails.adjust q s) as [q' s'] eqn:Hadj.
  destruct (schedule _ _ fuel q' s') as [rest|] eqn:Hrest; [|done].
  intros [= <-]. cbn.
  destruct (Float.to_int (Float.mul (Float.of_int nw) s)) as [cw| |]; cbn; try done.
  destruct (Float.to_int (Float.mul (Float.of_int nh) s)) as [ch| |]; cbn; try done.
  case_decide; [done|]. cbn.
  destruct (if Float.ltb s (Float.of_int 1) then im_resize img (cw, ch) else Ret img)
    as [resized| |]; cbn; try done.
  destruct (im_save_png resized None) as [png| |]; cbn; try done.
  case_decide; [done|].
  destruct (im_save_jpeg resized q) as [jpeg| |]; cbn; try done.
  case_decide; [done|].
  by apply IH.
Qed.

Lemma thumbnail_schedule :
  schedule Thumbnails.continue Thumbnails.adjust loop_fuel 85 (Float.of_int 1)
  = Some thumbnail_settings.
Proof. vm_compute. reflexivity. Qed.

Section Optimizer.
Context (p : Optimizer.params).

Lemma jpeg_loop_first_fit fuel img C w h q s settings :
  schedule Optimizer.continue (Optimizer.adjust p) fuel q s = Some settings →
  Optimizer.jpeg_loop p fuel img C w h q s
  = first_fit C (jpeg_candidates img w h settings).
Proof.
  revert q s settings. induction fuel as [|fuel IH]; intros q s settings; cbn; [done|].
  destruct (Optimizer.continue q s); [|by intros [= <-]].
  destruct (Optimizer.adjust p q s) as [q' s'] eqn:Hadj.
  destruct (schedule _ _ fuel q' s') as [rest|] eqn:Hrest; [|done].
  intros [= <-]. cbn.
  destruct (if Float.ltb s (Float.of_int 1) then Optimizer.scaled img w h s else Ret img)
    as [current| |]; cbn; try done.
  destruct (im_save_jpeg current q) as [jpeg| |]; cbn; try done.
  case_decide; [done|].
  by apply IH.
Qed.

Lemma rescue_loop_first_fit fuel img C w h s scales :
  rescue_scales fuel s = Some scales →
  Optimizer.rescue_loop p fuel img C w h s
  = first_fit C (rescue_candidates p img w h scales).
Proof.
  revert s scales. induction fuel as [|fuel IH]; intros s scales; cbn; [done|].
  destruct (Float.ltb (Float.lit 3 10) s); [|by intros [= <-]].
  destruct (rescue_scales fuel _) as [rest|] eqn:Hrest; [|done].
  intros [= <-]. cbn.
  destruct (Optimizer.scaled img w h s) as [scaled| |]; cbn; try done.
  destruct (im_save_jpeg scaled (Optimizer.rescue_quality p)) as [jpeg| |];
    cbn; try done.
  case_decide; [done|].
  by apply IH.
Qed.

Lemma retry_first_fit img C :
  Optimizer.retry_full_size p img C = first_fit C (retry_candidates p img).
Proof.
  unfold Optimizer.retry_full_size, retry_candidates.
  destruct (Optimizer.full_size_retry p) as [q|]; cbn; [|done].
  destruct (im_save_jpeg img q) as [jpeg| |]; cbn; try done.
Qed.

(** [_optimize_image_size] accepts the first candidate that fits. *)
Lemma optimize_body_first_fit settings scales img C w h :
  schedule Optimizer.continue (Optimizer.adjust p) loop_fuel
           (Optimizer.start_quality p) (Float.of_int 1) = Some settings →
  rescue_scales loop_fuel (Optimizer.rescue_scale p) = Some scales →
  Optimizer.optimize_body p img C w h
  = first_fit C (size_candidates p settings scales img w h).
Proof.
  intros Hsettings Hscales. unfold Optimizer.optimize_body, size_candidates.
  rewrite (jpeg_loop_first_fit _ _ _ _ _ _ _ _ Hsettings).
  rewrite (rescue_loop_first_fit _ _ _ _ _ _ _ Hscales).
  rewrite retry_first_fit.
  cbn. destruct (im_save_png img (Some 9)) as [png| |]; cbn; try done.
  case_decide; [done|].
  rewrite !first_fit_app.
  destruct (first_fit C (jpeg_candidates img w h settings)) as [[b|]| |]; cbn; try done.
Qed.
End Optimizer.

Lemma recent_first_fit img C w h :
  Recent._optimize_image_size img C w h
  = try_except (first_fit C (recent_candidates img w h)) None.
Proof.
  unfold Recent._optimize_image_size, Optimizer.optimize_image_size. f_equal.
  apply optimize_body_first_fit; vm_compute; reflexivity.
Qed.

Lemma simple_first_fit img C w h :
  Simple._optimize_image_size img C w h
  = try_except (first_fit C (simple_candidates img w h)) None.
Proof.
  unfold Simple._optimize_image_size, Optimizer.optimize_image_size. f_equal.
  apply optimize_body_first_fit; vm_compute; reflexivity.
Qed.

(** [create_thumbnail] accepts the first candidate of its loop that fits,
    and the final attempt when there is none. *)
Lemma create_thumbnail_first_fit image_data C :
  Thumbnails.create_thumbnail image_data C
  = try_except
      ('(img, (nw, nh)) ← thumbnail_base image_data;
       found ← first_fit C (loop_candidates img nw nh thumbnail_settings);
       match found with
       | Some result => Ret (Some result)
       | None => result ← Thumbnails.final_attempt img nw nh; Ret (Some result)
       end)
      None.
Proof.
  unfold Thumbnails.create_thumbnail, Thumbnails.create_thumbnail_body, thumbnail_base.
  f_equal.
  destruct (Image_open image_data) as [img| |]; cbn -[loop_fuel]; try done.
  destruct (im_size img) as [w h]; cbn -[loop_fuel].
  destruct (Float.truediv_int w h) as [ar| |]; cbn -[loop_fuel]; try done.
  destruct (normalize_mode img) as [img'| |]; cbn -[loop_fuel]; try done.
  destruct (Thumbnails.thumbnail_dims w h ar) as [[nw nh]| |]; cbn -[loop_fuel]; try done.
  destruct (im_resize img' (nw, nh)) as [img''| |]; cbn -[loop_fuel]; try done.
  by rewrite (optimize_loop_first_fit _ _ _ _ _ _ _ _ thumbnail_schedule).
Qed.

End Loops.

(** ** The bound on the loops is never reached *)

Lemma bind_in_fuel {A B} (m : result A) (f : A → result B) :
  in_fuel m → (∀ a, in_fuel (f a)) → in_fuel (m ≫= f).
Proof. destruct m; cbn; [auto|done..]. Qed.

Lemma first_fit_in_fuel C l : Forall in_fuel l → in_fuel (first_fit C l).
Proof.
  induction 1 as [|c l Hc _ IH]; cbn; [done|].
  apply bind_in_fuel; [done|]. intros b. by case_decide.
Qed.

Ltac in_fuel :=
  repeat first
    [ apply call_in_fuel | apply to_int_in_fuel
    | apply bind_in_fuel; [|intros ?]
    | match goal with
      | |- in_fuel (Ret _) => discriminate
      | |- in_fuel Raise => discriminate
      | |- in_fuel (if ?b then _ else _) => destruct b
      | |- in_fuel (match ?p with (_, _) => _ end) => destruct p
      | |- in_fuel (match ?p with Some _ => _ | None => _ end) => destruct p
      end ].

Section Fuel.
Context `{L : ImageLib}.

Lemma scaled_in_fuel img w h s : in_fuel (Optimizer.scaled img w h s).
Proof. unfold Optimizer.scaled, im_resize. in_fuel. Qed.

Lemma size_candidates_in_fuel p settings scales img w h :
  Forall in_fuel (size_candidates p settings scales img w h).
Proof.
  unfold size_candidates. constructor; [apply call_in_fuel|].
  rewrite !Forall_app. split_and!.
  - unfold jpeg_candidates. apply Forall_fmap, Forall_forall. intros [q s] _. cbn.
    apply bind_in_fuel; [|intros ?; apply call_in_fuel].
    destruct (Float.ltb _ _); [apply scaled_in_fuel|done].
  - unfold retry_candidates. destruct (Optimizer.full_size_retry p);
      repeat constructor. apply call_in_fuel.
  - unfold rescue_candidates. apply Forall_fmap, Forall_forall. intros s _. cbn.
    apply bind_in_fuel; [apply scaled_in_fuel|intros ?; apply call_in_fuel].
Qed.

Lemma loop_candidates_in_fuel img nw nh settings :
  Forall in_fuel (loop_candidates img nw nh settings).
Proof.
  induction settings as [|[q s] settings IH]; cbn; [done|].
  destruct (Float.to_int (Float.mul (Float.of_int nw) s)) as [cw| |] eqn:Hw; cbn.
  - destruct (Float.to_int (Float.mul (Float.of_int nh) s)) as [ch| |] eqn:Hh; cbn.
    + case_decide; [done|].
      repeat constructor; [..|done];
        (apply bind_in_fuel; [|intros ?; apply call_in_fuel]);
        destruct (Float.ltb _ _); first [apply call_in_fuel|done].
    + by repeat constructor.
    + by destruct (to_int_in_fuel _ Hh).
  - by repeat constructor.
  - by destruct (to_int_in_fuel _ Hw).
Qed.

Lemma thumbnail_dims_in_fuel w h ar : in_fuel (Thumbnails.thumbnail_dims w h ar).
Proof. unfold Thumbnails.thumbnail_dims, Float.truediv. case_decide; in_fuel. Qed.

Lemma thumbnail_base_in_fuel image_data : in_fuel (thumbnail_base image_data).
Proof.
  unfold thumbnail_base, Image_open. apply bind_in_fuel; [apply call_in_fuel|].
  intros img. destruct (im_size img) as [w h].
  apply bind_in_fuel; [unfold Float.truediv_int; by case_decide|]. intros ar.
  apply bind_in_fuel; [unfold normalize_mode; case_decide; [apply call_in_fuel|done]|].
  intros img'. apply bind_in_fuel; [apply thumbnail_dims_in_fuel|].
  intros [nw nh]. apply bind_in_fuel; [apply call_in_fuel|done].
Qed.

Lemma final_attempt_in_fuel img nw nh : in_fuel (Thumbnails.final_attempt img nw nh).
Proof.
  unfold Thumbnails.final_attempt, Thumbnails.final_dims, im_resize, im_save_jpeg.
  in_fuel.
Qed.

(** [create_thumbnail] always answers. *)
Lemma create_thumbnail_returns image_data C :
  returns (Thumbnails.create_thumbnail image_data C).
Proof.
  rewrite create_thumbnail_first_fit. apply try_except_returns.
  apply bind_in_fuel; [apply thumbnail_base_in_fuel|]. intros [img [nw nh]].
  apply bind_in_fuel; [apply first_fit_in_fuel, loop_candidates_in_fuel|].
  intros [b|]; [done|].
  apply bind_in_fuel; [apply final_attempt_in_fuel|done].
Qed.

Lemma recent_optimize_returns img C w h :
  returns (Recent._optimize_image_size img C w h).
Proof.
  rewrite recent_first_fit. apply try_except_returns, first_fit_in_fuel.
  apply size_candidates_in_fuel.
Qed.

Lemma simple_optimize_returns img C w h :
  returns (Simple._optimize_image_size img C w h).
Proof.
  rewrite simple_first_fit. apply try_except_returns, first_fit_in_fuel.
  apply size_candidates_in_fuel.
Qed.

End Fuel.

(** ** The byte ceiling *)

Section Ceiling.
Context `{L : ImageLib}.

Lemma try_except_some {A} (m : result (option A)) (a : A) :
  try_except m None = Ret (Some a) → m = Ret (Some a).
Proof. by destruct m. Qed.

Lemma recent_optimize_fits img C w h b :
  Recent._optimize_image_size img C w h = Ret (Some b) → len b ≤ C.
Proof.
  rewrite recent_first_fit. intros ?%try_except_some. by eapply first_fit_fits.
Qed.

Lemma simple_optimize_fits img C w h b :
  Simple._optimize_image_size img C w h = Ret (Some b) → len b ≤ C.
Proof.
  rewrite simple_first_fit. intros ?%try_except_some. by eapply first_fit_fits.
Qed.

(** What an answer of [create_thumbnail] is: a candidate of the loop, or
    the final attempt once the loop was left. *)
Lemma create_thumbnail_some image_data C b :
  Thumbnails.create_thumbnail image_data C = Ret (Some b) →
  ∃ base nw nh,
    thumbnail_base image_data = Ret (base, (nw, nh)) ∧
    let candidates := loop_candidates base nw nh thumbnail_settings in
    first_fit C candidates = Ret (Some b) ∨
    (first_fit C candidates = Ret None ∧ Thumbnails.final_attempt base nw nh = Ret b).
Proof.
  rewrite create_thumbnail_first_fit. intros H%try_except_some.
  apply bind_returns in H as ([base [nw nh]] & Hbase & H).
  exists base, nw, nh. split; [done|]. cbn.
  apply bind_returns in H as (found & Hfound & H).
  destruct found as [b'|].
  - left. by injection H as ->.
  - right. split; [done|].
    apply bind_returns in H as (b' & Hfinal & H). by injection H as ->.
Qed.

Lemma loop_left base C nw nh :
  Thumbnails.optimize_loop loop_fuel base C nw nh 85 (Float.of_int 1)
  = first_fit C (loop_candidates base nw nh thumbnail_settings).
Proof. apply optimize_loop_first_fit, thumbnail_schedule. Qed.

End Ceiling.

(** C1, as amended.  [_optimize_image_size] (recent and simple scripts) always
    answers, and its answer is [None] or bytes no longer than the ceiling.
    [create_thumbnail] always answers too; its answer is [None], or bytes no
    longer than the ceiling returned from inside its loop, or, when the loop
    was left without a return, the bytes of the final attempt (JPEG at
    quality 15), which are returned without a size check. *)
Theorem size_ceiling `{L : ImageLib} (img : image) (image_data : bytes)
    (C w h : Z) (b : bytes) :
  (returns (Recent._optimize_image_size img C w h) ∧
   (Recent._optimize_image_size img C w h = Ret (Some b) → len b ≤ C)) ∧
  (returns (Simple._optimize_image_size img C w h) ∧
   (Simple._optimize_image_size img C w h = Ret (Some b) → len b ≤ C)) ∧
  (returns (Thumbnails.create_thumbnail image_data C) ∧
   (Thumbnails.create_thumbnail image_data C = Ret (Some b) →
    len b ≤ C ∨
    ∃ base nw nh,
      thumbnail_base image_data = Ret (base, (nw, nh)) ∧
      Thumbnails.optimize_loop loop_fuel base C nw nh 85 (Float.of_int 1) = Ret None ∧
      Thumbnails.final_attempt base nw nh = Ret b)).
Proof.
  split_and!.
  - apply recent_optimize_returns.
  - apply recent_optimize_fits.
  - apply simple_optimize_returns.
  - apply simple_optimize_fits.
  - apply create_thumbnail_returns.
  - intros (base & nw & nh & Hbase & [Hfit|[Hnone Hfinal]])%create_thumbnail_some.
    + left. by eapply first_fit_fits.
    + right. exists base, nw, nh. by rewrite loop_left.
Qed.

(** The recent script on an 800×400 picture under a ceiling of 4000 bytes:
    the JPEG at scale 0.6 and quality 55 is the first to fit. *)
Lemma size_ceiling_witness :
  Recent._optimize_image_size (L := Toy.lib) (Toy.rgb 800 400) 4000 800 400
    = Ret (Some (Toy.jpeg (Toy.rgb 480 240) 55)) ∧
  len (Toy.jpeg (Toy.rgb 480 240) 55) ≤ 4000.
Proof.
  split; [vm_compute; reflexivity|].
  apply (proj2 (proj1 (size_ceiling (L := Toy.lib) (Toy.rgb 800 400) [] 4000 800 400
                         (Toy.jpeg (Toy.rgb 480 240) 55)))).
  vm_compute; reflexivity.
Defined.

(** C1, as stated, fails for [create_thumbnail]: under a ceiling of 10 bytes
    no candidate of the loop fits a 1000×800 picture, and the final attempt
    (200×160 at quality 15, 308 bytes here) is returned all the same. *)
Lemma create_thumbnail_over_ceiling :
  Thumbnails.create_thumbnail (L := Toy.lib) (Toy.picture 1000 800) 10
    = Ret (Some (Toy.jpeg (Toy.rgb 200 160) 15)) ∧
  10 < len (Toy.jpeg (Toy.rgb 200 160) 15).
Proof. split; vm_compute; reflexivity. Qed.

(** ** The order of the search *)

Lemma first_fit_none_larger C1 C2 l :
  first_fit C1 l = Ret None →
  first_fit C2 l = Ret None ∨
  ∃ i2 b2, accepted C2 l = Some i2 ∧ l !! i2 = Some (Ret b2) ∧
           first_fit C2 l = Ret (Some b2).
Proof.
  induction l as [|c l IH]; cbn; [by left|].
  destruct c as [e| |]; cbn; try done.
  case_decide; [done|]. intros Hnone.
  destruct (decide (len e ≤ C2)).
  - right. by exists 0%nat, e.
  - destruct (IH Hnone) as [->|(i2 & b2 & -> & ? & ->)]; [by left|].
    right. by exists (S i2), b2.
Qed.

Section Order.
Context `{L : ImageLib}.

Lemma size_search_later p settings scales img w h C1 C2 b1 :
  let candidates := size_candidates p settings scales img w h in
  C1 ≤ C2 →
  try_except (first_fit C1 candidates) None = Ret (Some b1) →
  ∃ i1 i2 b2,
    accepted C1 candidates = Some i1 ∧ candidates !! i1 = Some (Ret b1) ∧
    accepted C2 candidates = Some i2 ∧ candidates !! i2 = Some (Ret b2) ∧
    try_except (first_fit C2 candidates) None = Ret (Some b2) ∧ (i2 ≤ i1)%nat.
Proof.
  intros candidates HC H%try_except_some.
  destruct (first_fit_monotone _ _ _ _ HC H) as (i1 & i2 & b2 & ? & ? & ? & ? & Hfit & ?).
  exists i1, i2, b2. by rewrite Hfit.
Qed.

Lemma create_thumbnail_later image_data C1 C2 b1 :
  C1 ≤ C2 →
  Thumbnails.create_thumbnail image_data C1 = Ret (Some b1) →
  ∃ base nw nh b2,
    thumbnail_base image_data = Ret (base, (nw, nh)) ∧
    Thumbnails.create_thumbnail image_data C2 = Ret (Some b2) ∧
    let candidates := loop_candidates base nw nh thumbnail_settings in
    let i1 := thumbnail_choice C1 candidates in
    let i2 := thumbnail_choice C2 candidates in
    thumbnail_order base nw nh !! i1 = Some (Ret b1) ∧
    thumbnail_order base nw nh !! i2 = Some (Ret b2) ∧
    (i2 ≤ i1)%nat.
Proof.
  intros HC H. destruct (create_thumbnail_some _ _ _ H)
    as (base & nw & nh & Hbase & Hcase).
  exists base, nw, nh. cbn in Hcase.
  rewrite (create_thumbnail_first_fit image_data C2), Hbase. cbn.
  unfold thumbnail_order, thumbnail_choice.
  set (candidates := loop_candidates base nw nh thumbnail_settings) in *.
  destruct Hcase as [Hfit|[Hnone Hfinal]].
  - destruct (first_fit_monotone _ _ _ _ HC Hfit)
      as (i1 & i2 & b2 & Hi1 & Hl1 & Hi2 & Hl2 & Hfit2 & Hle).
    exists b2. rewrite Hfit2, Hi1, Hi2. cbn.
    split_and!; [done|done| | |done]; by apply lookup_app_l_Some.
  - rewrite (first_fit_none _ _ Hnone). cbn.
    destruct (first_fit_none_larger C1 C2 _ Hnone)
      as [Hnone2|(i2 & b2 & Hi2 & Hl2 & Hfit2)].
    + exists b1. rewrite Hnone2, (first_fit_none _ _ Hnone2). cbn. rewrite Hfinal. cbn.
      split_and!; [done|done| | |done]; by apply list_lookup_middle.
    + exists b2. rewrite Hfit2, Hi2. cbn.
      split_and!; [done|done| | |].
      * rewrite <- Hfinal. by apply list_lookup_middle.
      * by apply lookup_app_l_Some.
      * apply lookup_lt_Some in Hl2. lia.
Qed.

End Order.

Lemma levels_fall (l : list (Z * Z)) (i j : nat) (x y : Z * Z) :
  StronglySorted (flip level_le) l →
  (i ≤ j)%nat → l !! i = Some x → l !! j = Some y → level_le y x.
Proof.
  intros Hsorted. revert i j. induction Hsorted as [|z l Hsorted IH Hall]; [done|].
  intros [|i] [|j] Hij Hx Hy; cbn in *; simplify_eq.
  - unfold level_le. lia.
  - rewrite Forall_forall in Hall. apply (Hall y). by eapply list_elem_of_lookup_2.
  - lia.
  - apply (IH i j); [lia|done..].
Qed.

Lemma simple_levels :
  levels simple_settings
  = grid [85; 75; 65; 55; 50; 45] [1000]
    ++ grid [75; 65; 55; 50; 45] [900; 800; 700; 600; 500].
Proof. vm_compute. reflexivity. Qed.

Lemma thumbnail_levels :
  levels thumbnail_settings
  = grid [85; 75; 65; 55; 45; 40; 35; 30; 25]
         [1000; 900; 800; 700; 600; 500; 400; 300].
Proof. vm_compute. reflexivity. Qed.

Lemma simple_levels_sorted : StronglySorted (flip level_le) (levels simple_settings).
Proof. rewrite simple_levels. apply (bool_decide_unpack _). vm_compute. exact I. Qed.

Lemma thumbnail_levels_sorted :
  StronglySorted (flip level_le) (levels thumbnail_settings).
Proof. rewrite thumbnail_levels. apply (bool_decide_unpack _). vm_compute. exact I. Qed.

(** C6, as amended.  Both searches go through one order that does not depend
    on the ceiling and stop at the first candidate that fits.  The order of
    [_optimize_image_size] (simple script) is [simple_candidates]: the PNG,
    then the JPEGs of the first loop, whose settings are the qualities 85,
    75, 65, 55, 50, 45 at full size and 75, 65, 55, 50, 45 at each of the
    scales 0.9 to 0.5, then the JPEGs of the last loop, at quality 70 and
    the scales 0.6, 0.5, 0.4, 0.3.  The order of [create_thumbnail] is a PNG
    and a JPEG at each setting of its loop (qualities 85, 75, 65, 55, 45, 40,
    35, 30, 25 at each of the scales 1.0 to 0.3), up to the first box with a
    side under 100, then the final attempt.  A search that succeeds under
    [C1] succeeds under every [C2 ≥ C1], at the same or an earlier position;
    when both positions lie in the first loop, the level under [C1] (scale,
    then quality) is no higher than the level under [C2].  Nothing of the
    kind holds across the last loop or the final attempt, which come after
    lower levels. *)
Theorem size_search_monotone `{L : ImageLib} (img : image) (image_data : bytes)
    (w h C1 C2 : Z) (b1 : bytes) :
  C1 ≤ C2 →
  (schedule Optimizer.continue (Optimizer.adjust Simple.constants) loop_fuel
            (Optimizer.start_quality Simple.constants) (Float.of_int 1)
     = Some simple_settings ∧
   levels simple_settings
     = grid [85; 75; 65; 55; 50; 45] [1000]
       ++ grid [75; 65; 55; 50; 45] [900; 800; 700; 600; 500] ∧
   Optimizer.full_size_retry Simple.constants = None ∧
   rescue_scales loop_fuel (Optimizer.rescue_scale Simple.constants) = Some simple_scales ∧
   permille <$> simple_scales = [600; 500; 400; 300] ∧
   Optimizer.rescue_quality Simple.constants = 70 ∧
   schedule Thumbnails.continue Thumbnails.adjust loop_fuel 85 (Float.of_int 1)
     = Some thumbnail_settings ∧
   levels thumbnail_settings
     = grid [85; 75; 65; 55; 45; 40; 35; 30; 25]
            [1000; 900; 800; 700; 600; 500; 400; 300] ∧
   descending simple_settings = true ∧ descending thumbnail_settings = true) ∧
  ((∀ C, Simple._optimize_image_size img C w h
         = try_except (first_fit C (simple_candidates img w h)) None) ∧
   (Simple._optimize_image_size img C1 w h = Ret (Some b1) →
    ∃ i1 i2 b2,
      accepted C1 (simple_candidates img w h) = Some i1 ∧
      simple_candidates img w h !! i1 = Some (Ret b1) ∧
      accepted C2 (simple_candidates img w h) = Some i2 ∧
      simple_candidates img w h !! i2 = Some (Ret b2) ∧
      Simple._optimize_image_size img C2 w h = Ret (Some b2) ∧
      (i2 ≤ i1)%nat ∧
      ∀ level1 level2,
        (1 ≤ i2)%nat →
        levels simple_settings !! (i1 - 1)%nat = Some level1 →
        levels simple_settings !! (i2 - 1)%nat = Some level2 →
        level_le level1 level2)) ∧
  ((∀ C, Thumbnails.create_thumbnail image_data C
         = try_except
             ('(base, (nw, nh)) ← thumbnail_base image_data;
              found ← first_fit C (loop_candidates base nw nh thumbnail_settings);
              match found with
              | Some result => Ret (Some result)
              | None => result ← Thumbnails.final_attempt base nw nh; Ret (Some result)
              end)
             None) ∧
   (Thumbnails.create_thumbnail image_data C1 = Ret (Some b1) →
    ∃ base nw nh b2,
      thumbnail_base image_data = Ret (base, (nw, nh)) ∧
      Thumbnails.create_thumbnail image_data C2 = Ret (Some b2) ∧
      let candidates := loop_candidates base nw nh thumbnail_settings in
      let i1 := thumbnail_choice C1 candidates in
      let i2 := thumbnail_choice C2 candidates in
      thumbnail_order base nw nh !! i1 = Some (Ret b1) ∧
      thumbnail_order base nw nh !! i2 = Some (Ret b2) ∧
      (i2 ≤ i1)%nat ∧
      ∀ level1 level2,
        (i1 < length candidates)%nat →
        levels thumbnail_settings !! (i1 `div` 2)%nat = Some level1 →
        levels thumbnail_settings !! (i2 `div` 2)%nat = Some level2 →
        level_le level1 level2)).
Proof.
  intros HC. split_and!.
  - vm_compute. reflexivity.
  - apply simple_levels.
  - reflexivity.
  - vm_compute. reflexivity.
  - vm_compute. reflexivity.
  - reflexivity.
  - vm_compute. reflexivity.
  - apply thumbnail_levels.
  - vm_compute. reflexivity.
  - vm_compute. reflexivity.
  - intros C. apply simple_first_fit.
  - rewrite !simple_first_fit. intros H.
    destruct (size_search_later _ _ _ _ _ _ _ _ _ HC H)
      as (i1 & i2 & b2 & ? & ? & ? & ? & ? & Hle).
    exists i1, i2, b2. split_and!; try done.
    intros level1 level2 Hi2 Hlevel1 Hlevel2.
    apply (levels_fall _ (i2 - 1) (i1 - 1) level2 level1 simple_levels_sorted);
      [lia|done..].
  - intros C. apply create_thumbnail_first_fit.
  - intros H.
    destruct (create_thumbnail_later _ _ _ _ HC H)
      as (base & nw & nh & b2 & ? & ? & ? & ? & Hle).
    exists base, nw, nh, b2. cbn zeta. split_and!; try done.
    intros level1 level2 _ Hlevel1 Hlevel2.
    apply (levels_fall _ _ _ level2 level1 thumbnail_levels_sorted
             (Nat.Div0.div_le_mono _ _ 2 Hle)); done.
Qed.

(** The simple script on an 800×400 picture: under 4000 bytes the JPEG at
    scale 0.6 and quality 55 is accepted, under 3000 bytes a later one. *)
Lemma size_search_monotone_witness :
  3000 ≤ 4000 ∧
  Simple._optimize_image_size (L := Toy.lib) (Toy.rgb 800 400) 3000 800 400
    = Ret (Some (Toy.jpeg (Toy.rgb 400 200) 55)) ∧
  ∃ i1 i2 b2,
    accepted 3000 (simple_candidates (L := Toy.lib) (Toy.rgb 800 400) 800 400) = Some i1 ∧
    simple_candidates (L := Toy.lib) (Toy.rgb 800 400) 800 400 !! i1
      = Some (Ret (Toy.jpeg (Toy.rgb 400 200) 55)) ∧
    accepted 4000 (simple_candidates (L := Toy.lib) (Toy.rgb 800 400) 800 400) = Some i2 ∧
    simple_candidates (L := Toy.lib) (Toy.rgb 800 400) 800 400 !! i2 = Some (Ret b2) ∧
    Simple._optimize_image_size (L := Toy.lib) (Toy.rgb 800 400) 4000 800 400
      = Ret (Some b2) ∧
    (i2 ≤ i1)%nat ∧
    ∀ level1 level2,
      (1 ≤ i2)%nat →
      levels simple_settings !! (i1 - 1)%nat = Some level1 →
      levels simple_settings !! (i2 - 1)%nat = Some level2 →
      level_le level1 level2.
Proof.
  assert (H : 3000 ≤ 4000) by lia.
  assert (E : Simple._optimize_image_size (L := Toy.lib) (Toy.rgb 800 400) 3000 800 400
              = Ret (Some (Toy.jpeg (Toy.rgb 400 200) 55))) by (vm_compute; reflexivity).
  split; [exact H|]. split; [exact E|].
  exact (proj2 (proj1 (proj2 (size_search_monotone (L := Toy.lib) (Toy.rgb 800 400) []
                         800 400 3000 4000 (Toy.jpeg (Toy.rgb 400 200) 55) H))) E).
Defined.

(** C6, as stated, fails: the level can rise as the ceiling falls.  For a
    400×400 picture [create_thumbnail] answers a ceiling of 233 bytes by
    the last candidate of its loop, 120×120 at quality 25 (233 bytes here),
    and a ceiling of 232 bytes by its final attempt, 200×200 at quality 15.
    For an 800×400 image the simple script answers 2258 bytes by the last
    JPEG of its first loop, quality 45 at scale 0.5, and 2257 bytes by a
    JPEG of its last loop, quality 70 at scale 0.4. *)
Lemma level_rises_as_ceiling_falls :
  Thumbnails.create_thumbnail (L := Toy.lib) (Toy.picture 400 400) 233
    = Ret (Some (Toy.jpeg (Toy.rgb 120 120) 25)) ∧
  Thumbnails.create_thumbnail (L := Toy.lib) (Toy.picture 400 400) 232
    = Ret (Some (Toy.jpeg (Toy.rgb 200 200) 15)) ∧
  Simple._optimize_image_size (L := Toy.lib) (Toy.rgb 800 400) 2258 800 400
    = Ret (Some (Toy.jpeg (Toy.rgb 400 200) 45)) ∧
  Simple._optimize_image_size (L := Toy.lib) (Toy.rgb 800 400) 2257 800 400
    = Ret (Some (Toy.jpeg (Toy.rgb 320 160) 70)).
Proof. split_and!; vm_compute; reflexivity. Qed.

(** ** [create_thumbnail] without a hard failure *)

Lemma scale_returns_spec scale n :
  scale_returns scale = true → 0 ≤ n ≤ 400 →
  returns (Float.to_int (Float.mul (Float.of_int n) scale)).
Proof.
  unfold scale_returns. rewrite forallb_forall. intros Hall Hn.
  specialize (Hall n). destruct (Float.to_int _) as [k| |].
  - by exists k.
  - discriminate Hall. apply list_elem_of_In, elem_of_seqZ. lia.
  - discriminate Hall. apply list_elem_of_In, elem_of_seqZ. lia.
Qed.

Lemma halves_spec n :
  0 ≤ n ≤ 400 → Float.to_int (Float.mul (Float.of_int n) (Float.lit 1 2)) = Ret (n / 2).
Proof.
  intros Hn. assert (Hall : halves = true) by (vm_compute; reflexivity).
  unfold halves in Hall. rewrite forallb_forall in Hall. specialize (Hall n).
  destruct (Float.to_int _) as [k| |].
  - f_equal. eapply bool_decide_eq_true, Hall, list_elem_of_In, elem_of_seqZ. lia.
  - discriminate Hall. apply list_elem_of_In, elem_of_seqZ. lia.
  - discriminate Hall. apply list_elem_of_In, elem_of_seqZ. lia.
Qed.

Lemma thumbnail_settings_return :
  Forall (λ setting, scale_returns setting.2 = true) thumbnail_settings.
Proof.
  apply Forall_forall. intros setting Hin.
  assert (Hall : forallb (λ setting : Z * float, scale_returns setting.2)
                         thumbnail_settings = true) by (vm_compute; reflexivity).
  rewrite forallb_forall in Hall. by apply Hall, list_elem_of_In.
Qed.

Lemma first_fit_returns C l : Forall returns l → returns (first_fit C l).
Proof.
  induction 1 as [|c l [b ->] _ IH]; cbn; [by eexists|].
  case_decide; [by eexists|done].
Qed.

Section Answers.
Context `{L : ImageLib}.
Context (resize_ok : ∀ i box, 1 ≤ box.1 → 1 ≤ box.2 → is_Some (pil_resize i box)).
Context (save_png_ok : ∀ i c, is_Some (pil_save_png i c)).
Context (save_jpeg_ok : ∀ i q, is_Some (pil_save_jpeg i q)).

Lemma loop_candidates_return base nw nh settings :
  0 ≤ nw ≤ 400 → 0 ≤ nh ≤ 400 →
  Forall (λ setting, scale_returns setting.2 = true) settings →
  Forall returns (loop_candidates base nw nh settings).
Proof.
  intros Hnw Hnh. induction 1 as [|[q s] settings Hs _ IH]; cbn; [done|].
  destruct (scale_returns_spec s nw Hs Hnw) as [cw ->].
  destruct (scale_returns_spec s nh Hs Hnh) as [ch ->]. cbn.
  case_decide as Hsmall; [done|].
  assert (Hresized : ∃ resized,
    (if Float.ltb s (Float.of_int 1) then im_resize base (cw, ch) else Ret base)
    = Ret resized).
  { destruct (Float.ltb _ _); [|by eexists]. unfold im_resize.
    destruct (resize_ok base (cw, ch)) as [r ->]; cbn; [lia..|]. by eexists. }
  destruct Hresized as [resized ->]. cbn.
  repeat constructor; [..|done].
  - unfold im_save_png. destruct (save_png_ok resized None) as [b ->]. by eexists.
  - unfold im_save_jpeg. destruct (save_jpeg_ok resized q) as [b ->]. by eexists.
Qed.

Lemma final_attempt_halves base nw nh :
  0 ≤ nw ≤ 400 → 0 ≤ nh ≤ 400 →
  ∃ final_img b,
    pil_resize base (Z.max 100 (nw / 2), Z.max 100 (nh / 2)) = Some final_img ∧
    pil_save_jpeg final_img 15 = Some b ∧
    Thumbnails.final_attempt base nw nh = Ret b.
Proof.
  intros Hnw Hnh. unfold Thumbnails.final_attempt, Thumbnails.final_dims.
  rewrite !halves_spec by done. cbn.
  destruct (resize_ok base (Z.max 100 (nw / 2), Z.max 100 (nh / 2)))
    as [final_img Hfinal]; cbn; [lia..|].
  destruct (save_jpeg_ok final_img 15) as [b Hb].
  exists final_img, b. unfold im_resize, im_save_jpeg.
  split_and!; [done..|]. rewrite Hfinal. cbn. by rewrite Hb.
Qed.

End Answers.

(** C2, as amended.  Take an image that decodes, whose 400 box [nw]×[nh] is
    computed with both sides between 1 and 400, and an image library whose
    [convert], [resize] (to a box without an empty side) and [save] calls do
    not raise.  Then [create_thumbnail] does not report failure.  If its loop
    is left without a return (no candidate under the ceiling before the
    floors), the answer is the JPEG at quality 15 of the image resized to
    [max(100, nw // 2)]×[max(100, nh // 2)], whatever its size. *)
Theorem create_thumbnail_answers `{L : ImageLib} (image_data : bytes) (C : Z)
    (img : image) (w h nw nh : Z) :
  pil_open image_data = Some img →
  im_size img = (w, h) →
  (aspect_ratio ← Float.truediv_int w h; Thumbnails.thumbnail_dims w h aspect_ratio)
    = Ret (nw, nh) →
  1 ≤ nw ≤ 400 →
  1 ≤ nh ≤ 400 →
  (∀ i m, is_Some (pil_convert i m)) →
  (∀ i box, 1 ≤ box.1 → 1 ≤ box.2 → is_Some (pil_resize i box)) →
  (∀ i c, is_Some (pil_save_png i c)) →
  (∀ i q, is_Some (pil_save_jpeg i q)) →
  ∃ base b,
    thumbnail_base image_data = Ret (base, (nw, nh)) ∧
    Thumbnails.create_thumbnail image_data C = Ret (Some b) ∧
    (Thumbnails.optimize_loop loop_fuel base C nw nh 85 (Float.of_int 1) = Ret None →
     ∃ final_img,
       pil_resize base (Z.max 100 (nw / 2), Z.max 100 (nh / 2)) = Some final_img ∧
       pil_save_jpeg final_img 15 = Some b).
Proof.
  intros Hopen Hsize Hdims Hnw Hnh convert_ok resize_ok save_png_ok save_jpeg_ok.
  assert (Hbase : ∃ base, thumbnail_base image_data = Ret (base, (nw, nh))).
  { unfold thumbnail_base, Image_open. rewrite Hopen. cbn. rewrite Hsize.
    apply bind_returns in Hdims as (ar & -> & Hdims). cbn.
    assert (Hmode : ∃ img', normalize_mode img = Ret img').
    { unfold normalize_mode, im_convert. case_decide; [|by eexists].
      destruct (convert_ok img "RGB"%string) as [img' ->]. by eexists. }
    destruct Hmode as [img' ->]. cbn. rewrite Hdims. cbn.
    unfold im_resize. destruct (resize_ok img' (nw, nh)) as [base ->]; cbn; [lia..|].
    by eexists. }
  destruct Hbase as [base Hbase].
  rewrite create_thumbnail_first_fit, Hbase. cbn.
  destruct (first_fit_returns C (loop_candidates base nw nh thumbnail_settings))
    as [found Hfound].
  { apply loop_candidates_return; auto using thumbnail_settings_return; lia. }
  destruct (final_attempt_halves resize_ok save_jpeg_ok base nw nh)
    as (final_img & b & Hresize & Hsave & Hfinal); [lia..|].
  rewrite Hfound. cbn. destruct found as [b'|].
  - exists base, b'. split_and!; [done..|]. by rewrite loop_left, Hfound.
  - rewrite Hfinal. cbn. exists base, b. split_and!; [done..|]. intros _. by exists final_img.
Qed.

(** A 1000×800 picture under a ceiling of 10 bytes: the loop is left without
    a return, and the final attempt at 200×160 is the answer. *)
Lemma create_thumbnail_answers_witness :
  ∃ base b,
    thumbnail_base (L := Toy.lib) (Toy.picture 1000 800) = Ret (base, (400, 320)) ∧
    Thumbnails.create_thumbnail (L := Toy.lib) (Toy.picture 1000 800) 10 = Ret (Some b) ∧
    (Thumbnails.optimize_loop (L := Toy.lib) loop_fuel base 10 400 320 85 (Float.of_int 1)
       = Ret None →
     ∃ final_img,
       pil_resize (ImageLib := Toy.lib) base (Z.max 100 (400 / 2), Z.max 100 (320 / 2))
         = Some final_img ∧
       pil_save_jpeg (ImageLib := Toy.lib) final_img 15 = Some b).
Proof.
  apply (create_thumbnail_answers (L := Toy.lib) (Toy.picture 1000 800) 10
           (Toy.rgb 1000 800) 1000 800 400 320).
  - vm_compute; reflexivity.
  - reflexivity.
  - vm_compute; reflexivity.
  - lia.
  - lia.
  - intros i m. by eexists.
  - intros i [bw bh] Hw Hh. cbn in *. unfold Toy.scale_to. cbn.
    rewrite decide_True by done. by eexists.
  - intros i c. by eexists.
  - intros i q. by eexists.
Defined.

(** C2, as stated, fails: a 1000×1 picture decodes, its 400 box is 400×0,
    the library refuses to resize to an empty box (Pillow raises ValueError,
    "height and width must be > 0"), and the handler of [create_thumbnail]
    answers [None]. *)
Lemma create_thumbnail_reports_failure :
  pil_open (ImageLib := Toy.lib) (Toy.picture 1000 1) = Some (Toy.rgb 1000 1) ∧
  Thumbnails.create_thumbnail (L := Toy.lib) (Toy.picture 1000 1)
    Thumbnails.default_target_size = Ret None.
Proof. split; vm_compute; reflexivity. Qed.

(** ** The pipeline of one event and the batch *)

Lemma truthy_false (o : option bytes) :
  truthy o = false → o = None ∨ o = Some [].
Proof. destruct o as [[|]|]; cbn; auto. discriminate. Qed.

Lemma with_bucket_same (self : generator) : with_bucket self (bucket self) = self.
Proof. by destruct self. Qed.

Section Pipeline_properties.
Context (s : Pipeline.stages) (behave : stages_behave s).



Lemma process_event_answers self c e :
  (∃ b', Pipeline.process_event s self c e = Ret (true, count_processed self b')) ∨
  Pipeline.process_event s self c e = Ret (false, count_error self).
Proof.
  unfold Pipeline.process_event.
  destruct (Pipeline.download s (bucket self) c e) as [source| |] eqn:Hd; cbn;
    [|by right|by destruct (download_in_fuel s behave _ _ _ Hd)].
  destruct (truthy source); cbn; [|by right].
  destruct (Pipeline.transcode s (default [] source)) as [produced| |] eqn:Ht; cbn;
    [|by right|by destruct (transcode_in_fuel s behave _ Ht)].
  destruct (truthy produced); cbn; [|by right].
  destruct (Pipeline.upload s (bucket self) c e (default [] produced))
    as [[uploaded b']| |] eqn:Hu; cbn;
    [|by right|by destruct (upload_in_fuel s behave _ _ _ _ Hu)].
  destruct uploaded; [left; by exists b'|right].
  apply (upload_failed s behave) in Hu as ->. by rewrite with_bucket_same.
Qed.

(** The batch takes every event, whatever became of the events before it;
    each one adds one to exactly one of [processed_count] and [error_count],
    and [skipped_count] stays. *)
Lemma run_batch_counts self c completed :
  ∃ answers self',
    Pipeline.run_batch s self c completed = Ret (answers, self') ∧
    length answers = length completed ∧
    processed_count self' = processed_count self + count_of true answers ∧
    error_count self' = error_count self + count_of false answers ∧
    skipped_count self' = skipped_count self.
Proof.
  revert self. induction completed as [|e completed IH]; intros self; cbn.
  - exists [], self. unfold count_of, len. cbn. split_and!; first [done|lia].
  - destruct (process_event_answers self c e) as [[b' ->]| ->].
    + destruct (IH (count_processed self b')) as (answers & self' & -> & Hlen & Hp & He & Hs).
      exists (true :: answers), self'. cbn in *. unfold count_of in *.
      rewrite !filter_cons. repeat case_decide; try done.
      unfold len in *. cbn. split_and!; first [done|lia].
    + destruct (IH (count_error self)) as (answers & self' & -> & Hlen & Hp & He & Hs).
      exists (false :: answers), self'. cbn in *. unfold count_of in *.
      rewrite !filter_cons. repeat case_decide; try done.
      unfold len in *. cbn. split_and!; first [done|lia].
Qed.

Lemma generate_counts self events schedule :
  (∀ l, schedule l ≡ₚ l) →
  ∃ answers self',
    Pipeline.generate s self events schedule = Ret (answers, self') ∧
    length answers = length events ∧
    processed_count self' = processed_count self + count_of true answers ∧
    error_count self' = error_count self + count_of false answers ∧
    skipped_count self' = skipped_count self.
Proof.
  intros Hschedule. unfold Pipeline.generate. destruct events as [|e events].
  - exists [], self. unfold count_of, len. cbn. split_and!; first [done|lia].
  - destruct (run_batch_counts self "events" (schedule (e :: events)))
      as (answers & self' & -> & Hlen & ?).
    exists answers, self'. split_and!; try tauto.
    by rewrite Hlen, (Hschedule (e :: events)).
Qed.

End Pipeline_properties.

(** ** The stages of the five scripts *)

Lemma returns_in_fuel {A} (m : result A) : returns m → in_fuel m.
Proof. by intros [a ->]. Qed.

Lemma try_except_in_fuel {A} (m : result A) (h : A) : in_fuel m → in_fuel (try_except m h).
Proof. by destruct m. Qed.

Section Stages.
Context `{L : ImageLib} (fails : request → bool).

Lemma first_existing_in_fuel b paths : in_fuel (first_existing fails b paths).
Proof.
  induction paths as [|path paths IH]; cbn; [done|].
  unfold blob_exists, download_as_bytes.
  destruct (fails (Exists path)); cbn; [done|].
  case_bool_decide; [|done].
  destruct (fails (Download path)); cbn; [done|]. by destruct (b !! path).
Qed.

Lemma download_asset_in_fuel stem b c e : in_fuel (download_asset fails stem b c e).
Proof. apply try_except_in_fuel, first_existing_in_fuel. Qed.

Lemma upload_as_answers path type b contents :
  (fails (Upload path) = false ∧
   upload_as fails path type b contents
   = Ret (true, <[path := {| data := contents; content_type := type |}]> b)) ∨
  (fails (Upload path) = true ∧ upload_as fails path type b contents = Ret (false, b)).
Proof.
  unfold upload_as, upload_from_string. destruct (fails (Upload path)); cbn; auto.
Qed.

Lemma upload_as_in_fuel path type b contents :
  in_fuel (upload_as fails path type b contents).
Proof. by destruct (upload_as_answers path type b contents) as [[_ ->]|[_ ->]]. Qed.

Lemma upload_as_failed path type b contents b' :
  upload_as fails path type b contents = Ret (false, b') → b' = b.
Proof.
  destruct (upload_as_answers path type b contents) as [[_ ->]|[_ ->]]; [done|].
  by intros [= <-].
Qed.

Lemma upscale_dims_in_fuel tw th ar : in_fuel (Upscale.upscale_dims tw th ar).
Proof. unfold Upscale.upscale_dims, Float.truediv. in_fuel. Qed.

Lemma prepare_in_fuel thumbnail_data box : in_fuel (Upscale.prepare thumbnail_data box).
Proof.
  unfold Upscale.prepare, Image_open. apply bind_in_fuel; [apply call_in_fuel|].
  intros img. destruct (im_size img) as [w h].
  apply bind_in_fuel; [unfold Float.truediv_int; by case_decide|]. intros ar.
  apply bind_in_fuel; [unfold normalize_mode; case_decide; [apply call_in_fuel|done]|].
  intros img'. destruct box as [tw th].
  apply bind_in_fuel; [apply upscale_dims_in_fuel|]. intros [nw nh].
  apply bind_in_fuel; [|done].
  unfold Upscale.enlarge, im_unsharp_mask, im_resize, im_enhance_sharpness,
    im_enhance_color.
  case_decide; in_fuel.
Qed.

Lemma upscale_image_png_in_fuel thumbnail_data box :
  in_fuel (Upscale.upscale_image_png thumbnail_data box).
Proof.
  apply try_except_in_fuel, bind_in_fuel; [apply prepare_in_fuel|].
  intros [img ?]. apply bind_in_fuel; [apply call_in_fuel|done].
Qed.

Lemma optimize_image_size_in_fuel p settings scales img C w h :
  schedule Optimizer.continue (Optimizer.adjust p) loop_fuel
           (Optimizer.start_quality p) (Float.of_int 1) = Some settings →
  rescue_scales loop_fuel (Optimizer.rescue_scale p) = Some scales →
  in_fuel (Optimizer.optimize_image_size p img C w h).
Proof.
  intros Hsettings Hscales. unfold Optimizer.optimize_image_size.
  rewrite (optimize_body_first_fit p settings scales) by done.
  apply try_except_in_fuel, first_fit_in_fuel, size_candidates_in_fuel.
Qed.

Lemma upscale_image_bounded_in_fuel p settings scales thumbnail_data box C :
  schedule Optimizer.continue (Optimizer.adjust p) loop_fuel
           (Optimizer.start_quality p) (Float.of_int 1) = Some settings →
  rescue_scales loop_fuel (Optimizer.rescue_scale p) = Some scales →
  in_fuel (Upscale.upscale_image_bounded p thumbnail_data box C).
Proof.
  intros Hsettings Hscales.
  apply try_except_in_fuel, bind_in_fuel; [apply prepare_in_fuel|].
  intros [img [nw nh]].
  apply bind_in_fuel; [by eapply optimize_image_size_in_fuel|].
  intros r. by destruct (truthy r).
Qed.

Lemma thumbnails_behave : stages_behave (Thumbnails.stages fails).
Proof.
  split; cbn.
  - intros. apply download_asset_in_fuel.
  - intros. apply returns_in_fuel, create_thumbnail_returns.
  - intros. apply upload_as_in_fuel.
  - intros *. apply upload_as_failed.
Qed.

Lemma missing_behave : stages_behave (Missing.stages fails).
Proof.
  split; cbn.
  - intros. apply download_asset_in_fuel.
  - intros. apply upscale_image_png_in_fuel.
  - intros. apply upload_as_in_fuel.
  - intros *. apply upload_as_failed.
Qed.

Lemma limited_behave : stages_behave (Limited.stages fails).
Proof.
  split; cbn.
  - intros. apply download_asset_in_fuel.
  - intros. apply upscale_image_png_in_fuel.
  - intros. apply upload_as_in_fuel.
  - intros *. apply upload_as_failed.
Qed.

Lemma recent_behave : stages_behave (Recent.stages fails).
Proof.
  split; cbn.
  - intros. apply download_asset_in_fuel.
  - intros. eapply upscale_image_bounded_in_fuel; vm_compute; reflexivity.
  - intros. apply upload_as_in_fuel.
  - intros *. apply upload_as_failed.
Qed.

Lemma simple_behave : stages_behave (Simple.stages fails).
Proof.
  split; cbn.
  - intros. apply download_asset_in_fuel.
  - intros. eapply upscale_image_bounded_in_fuel; vm_compute; reflexivity.
  - intros. apply upload_as_in_fuel.
  - intros *. apply upload_as_failed.
Qed.

Lemma generator_scripts_behave s : s ∈ generator_scripts fails → stages_behave s.
Proof.
  unfold generator_scripts. rewrite !elem_of_cons, elem_of_nil.
  intros [->|[->|[->|[->|[->|[]]]]]];
    auto using thumbnails_behave, missing_behave, limited_behave, recent_behave,
      simple_behave.
Qed.

End Stages.

(** ** Failures of one event *)

(** On the sample bucket the run answers [True, False, True]: two thumbnails
    processed, one error. *)
Lemma one_missing_image_of_three :
  ∃ self',
    Thumbnails.generate_thumbnails (L := Toy.lib) Sample.online (connect Sample.objects)
                                   Sample.listing reverse
    = Ret ([true; false; true], self') ∧
    processed_count self' = 2 ∧ error_count self' = 1 ∧ skipped_count self' = 0.
Proof.
  destruct (Thumbnails.generate_thumbnails (L := Toy.lib) Sample.online
              (connect Sample.objects) Sample.listing reverse)
    as [[answers self']| |] eqn:H; vm_compute in H; try discriminate.
  injection H as <- <-. eexists. split; [reflexivity|]. by split_and!.
Qed.

(** ** The skipped counter *)

(** C9.  In each of the five generator scripts, [skipped_count] is zero after
    [__init__], no event changes it, and the summary of a run on a new
    generator reports zero skipped events. *)
Theorem skipped_stays_zero `{L : ImageLib} (fails : request → bool)
    (s : Pipeline.stages) (b : gmap string object) (events : list string)
    (schedule : list string → list string) :
  s ∈ generator_scripts fails →
  skipped_count (connect b) = 0 ∧
  (∀ self c e success self',
     Pipeline.process_event s self c e = Ret (success, self') →
     skipped_count self' = skipped_count self) ∧
  ∃ answers self',
    Pipeline.generate s (connect b) events schedule = Ret (answers, self') ∧
    skipped_already_existed (final_summary self') = 0.
Proof.
  intros behave%generator_scripts_behave. split_and!.
  - done.
  - intros self c e success self' H.
    destruct (process_event_answers s behave self c e) as [[b' H']|H'];
      rewrite H' in H; by injection H as <- <-.
  - unfold Pipeline.generate. destruct events as [|e events].
    + by exists [], (connect b).
    + destruct (run_batch_counts s behave (connect b) "events" (schedule (e :: events)))
        as (answers & self' & -> & _ & _ & _ & Hs).
      by exists answers, self'.
Qed.

Lemma skipped_stays_zero_witness :
  Thumbnails.stages (L := Toy.lib) (λ _, false) ∈ generator_scripts (L := Toy.lib) (λ _, false) ∧
  ∃ answers self',
    Pipeline.generate (Thumbnails.stages (L := Toy.lib) (λ _, false)) (connect ∅)
                      ["e1"; "e2"]%string reverse = Ret (answers, self') ∧
    skipped_already_existed (final_summary self') = 0.
Proof.
  assert (H : Thumbnails.stages (L := Toy.lib) (λ _, false)
              ∈ generator_scripts (L := Toy.lib) (λ _, false)) by constructor.
  split; [exact H|].
  exact (proj2 (proj2 (skipped_stays_zero (L := Toy.lib) (λ _, false) _ ∅
                         ["e1"; "e2"]%string reverse H))).
Defined.

(** ** Names and content types of the uploads *)

Lemma string_app_assoc (s1 s2 s3 : string) : (s1 +:+ s2) +:+ s3 = s1 +:+ (s2 +:+ s3).
Proof.
  induction s1 as [|a s1 IH]; [done|].
  change (String a ((s1 +:+ s2) +:+ s3) = String a (s1 +:+ s2 +:+ s3)). by rewrite IH.
Qed.

Lemma blob_path_png c e stem :
  ends_with (blob_path c e (stem +:+ ".png")) ".png".
Proof.
  exists (c +:+ "/" +:+ e +:+ "/" +:+ stem). unfold blob_path.
  by rewrite !string_app_assoc.
Qed.

Lemma sniff_jpeg contents :
  startswith contents jpeg_magic = true → sniff contents = "image/jpeg"%string.
Proof. unfold sniff. by intros ->. Qed.

Section Uploads.
Context (fails : request → bool).

(** A successful [upload_as] is one write, at [path]. *)
Lemma upload_as_written path type b contents b' :
  upload_as fails path type b contents = Ret (true, b') →
  b' !! path = Some {| data := contents; content_type := type |} ∧
  ∀ other, other ≠ path → b' !! other = b !! other.
Proof.
  destruct (upload_as_answers fails path type b contents) as [[_ ->]|[_ ->]];
    [|done].
  intros [= <-]. split; [apply lookup_insert_eq|].
  intros other Hother. by apply lookup_insert_ne.
Qed.

Lemma image_uploaders_write upload b c e contents b' :
  upload ∈ image_uploaders fails →
  upload b c e contents = Ret (true, b') →
  ∃ type,
    b' !! blob_path c e "event_image.png"
    = Some {| data := contents; content_type := type |} ∧
    ∀ other, other ≠ blob_path c e "event_image.png" → b' !! other = b !! other.
Proof.
  unfold image_uploaders. rewrite !elem_of_cons, elem_of_nil.
  intros [->|[->|[->|[->|[]]]]] H; eexists; by eapply upload_as_written.
Qed.

End Uploads.

(** C10.  A successful upload of [generate_thumbnails.py] writes the bytes it
    was given, and nothing else, at [collection/eventId/event_thumbnail.png];
    the uploads of the four other scripts write at
    [collection/eventId/event_image.png].  Both names end in [.png] whatever
    the bytes are: for bytes that start with the JPEG marker,
    [upload_thumbnail] stores a [.png] object of content type [image/jpeg]. *)
Theorem upload_name_is_png (fails : request → bool) (b b' : gmap string object)
    (collection event_id : string) (contents : bytes) :
  (Thumbnails.upload_thumbnail fails b collection event_id contents = Ret (true, b') →
   let path := blob_path collection event_id "event_thumbnail.png" in
   ends_with path ".png" ∧
   data <$> b' !! path = Some contents ∧
   (startswith contents jpeg_magic = true →
    content_type <$> b' !! path = Some "image/jpeg"%string) ∧
   ∀ other, other ≠ path → b' !! other = b !! other) ∧
  (∀ upload,
     upload ∈ image_uploaders fails →
     upload b collection event_id contents = Ret (true, b') →
     let path := blob_path collection event_id "event_image.png" in
     ends_with path ".png" ∧
     data <$> b' !! path = Some contents ∧
     ∀ other, other ≠ path → b' !! other = b !! other).
Proof.
  split.
  - intros [Hpath Hother]%upload_as_written. cbn.
    split_and!; [apply (blob_path_png _ _ "event_thumbnail")|by rewrite Hpath| |done].
    intros Hjpeg. by rewrite Hpath, (sniff_jpeg _ Hjpeg).
  - intros upload Hin H.
    destruct (image_uploaders_write fails upload b collection event_id contents b' Hin H)
      as (type & Hpath & Hother). cbn.
    split_and!; [apply (blob_path_png _ _ "event_image")|by rewrite Hpath|done].
Qed.

(** The final attempt of [create_thumbnail] for a 1000×800 picture, a JPEG,
    uploaded for event [e1]. *)
Lemma upload_name_is_png_witness :
  let contents := Toy.jpeg (Toy.rgb 200 160) 15 in
  let b' := <["events/e1/event_thumbnail.png"%string :=
              {| data := contents; content_type := "image/jpeg" |}]> Sample.objects in
  Thumbnails.upload_thumbnail Sample.online Sample.objects "events" "e1" contents
    = Ret (true, b') ∧
  ends_with (blob_path "events" "e1" "event_thumbnail.png") ".png" ∧
  data <$> b' !! blob_path "events" "e1" "event_thumbnail.png" = Some contents ∧
  (startswith contents jpeg_magic = true →
   content_type <$> b' !! blob_path "events" "e1" "event_thumbnail.png"
   = Some "image/jpeg"%string) ∧
  ∀ other, other ≠ blob_path "events" "e1" "event_thumbnail.png" →
           b' !! other = Sample.objects !! other.
Proof.
  intros contents b'.
  assert (H : Thumbnails.upload_thumbnail Sample.online Sample.objects "events" "e1" contents
              = Ret (true, b')) by reflexivity.
  split; [exact H|].
  exact (proj1 (upload_name_is_png Sample.online Sample.objects b' "events" "e1" contents) H).
Defined.

(** C4 fails in [generate_missing_images_recent.py]: its [upload_image] stores
    bytes that start with the JPEG marker under the content type [image/png],
    where the same call of [generate_missing_images_simple.py] stores them as
    [image/jpeg]. *)
Theorem recent_upload_labels_jpeg_as_png (fails : request → bool)
    (b : gmap string object) (collection event_id : string) (image_data : bytes) :
  startswith image_data jpeg_magic = true →
  fails (Upload (blob_path collection event_id "event_image.png")) = false →
  let path := blob_path collection event_id "event_image.png" in
  Recent.upload_image fails b collection event_id image_data
  = Ret (true, <[path := {| data := image_data; content_type := "image/png" |}]> b) ∧
  Simple.upload_image fails b collection event_id image_data
  = Ret (true, <[path := {| data := image_data; content_type := "image/jpeg" |}]> b).
Proof.
  intros Hjpeg Hup path. subst path. unfold Recent.upload_image, Simple.upload_image.
  rewrite (sniff_jpeg _ Hjpeg).
  split.
  - destruct (upload_as_answers fails (blob_path collection event_id "event_image.png")
                "image/png" b image_data) as [[_ ->]|[? _]]; [done|congruence].
  - destruct (upload_as_answers fails (blob_path collection event_id "event_image.png")
                "image/jpeg" b image_data) as [[_ ->]|[? _]]; [done|congruence].
Qed.

(** The bytes are those [upscale_image] of the recent script returns for a
    200×100 thumbnail whose PNG at 800×400 is over the size limit. *)
Lemma recent_upload_labels_jpeg_as_png_witness :
  let image_data := Toy.jpeg (Toy.rgb 480 240) 55 in
  let path := blob_path "events" "e1" "event_image.png" in
  Recent.upscale_image (L := Toy.lib) (Toy.picture 200 100) default_box 4000
    = Ret (Some image_data) ∧
  startswith image_data jpeg_magic = true ∧
  Sample.online (Upload path) = false ∧
  Recent.upload_image Sample.online ∅ "events" "e1" image_data
  = Ret (true, <[path := {| data := image_data; content_type := "image/png" |}]> ∅) ∧
  Simple.upload_image Sample.online ∅ "events" "e1" image_data
  = Ret (true, <[path := {| data := image_data; content_type := "image/jpeg" |}]> ∅).
Proof.
  intros image_data path.
  assert (Hjpeg : startswith image_data jpeg_magic = true) by reflexivity.
  assert (Hup : Sample.online (Upload path) = false) by reflexivity.
  split; [vm_compute; reflexivity|].
  split; [exact Hjpeg|]. split; [exact Hup|].
  exact (recent_upload_labels_jpeg_as_png Sample.online ∅ "events" "e1" image_data Hjpeg Hup).
Defined.

(** ** The box of the final attempt *)

Lemma wide_box :
  (aspect_ratio ← Float.truediv_int 1000 100;
   Thumbnails.thumbnail_dims 1000 100 aspect_ratio) = Ret (400, 40).
Proof. vm_compute. reflexivity. Qed.

Lemma wide_final_box : Thumbnails.final_dims 400 40 = Ret (200, 100).
Proof. vm_compute. reflexivity. Qed.

Lemma thumbnail_settings_head :
  thumbnail_settings = (85, Float.of_int 1) :: tail thumbnail_settings.
Proof. vm_compute. reflexivity. Qed.

Lemma wide_loop_left `{L : ImageLib} (base : image) (C : Z) :
  Thumbnails.optimize_loop loop_fuel base C 400 40 85 (Float.of_int 1) = Ret None.
Proof.
  rewrite loop_left, thumbnail_settings_head. cbn.
  replace (Float.to_int (Float.mul (Float.of_int 400) (Float.of_int 1))) with (Ret 400)
    by (vm_compute; reflexivity).
  replace (Float.to_int (Float.mul (Float.of_int 40) (Float.of_int 1))) with (Ret 40)
    by (vm_compute; reflexivity).
  cbn. by rewrite decide_True by lia.
Qed.

(** C5 fails at the final attempt.  For every image library, a 1000×100 image
    (aspect ratio 10) is resized to 400×40, leaves the loop at once since 40 is
    under the minimum side of 100, and is then resized to 200×100 (aspect ratio
    2): each side of the final box is clamped to 100 on its own. *)
Theorem wide_image_loses_ratio `{L : ImageLib} (image_data : bytes) (C : Z)
    (img : image) :
  pil_open image_data = Some img →
  im_size img = (1000, 100) →
  Thumbnails.create_thumbnail image_data C
  = try_except
      (img ← normalize_mode img;
       base ← im_resize img (400, 40);
       final_img ← im_resize base (200, 100);
       result ← im_save_jpeg final_img 15;
       Ret (Some result))
      None.
Proof.
  intros Hopen Hsize.
  unfold Thumbnails.create_thumbnail, Thumbnails.create_thumbnail_body, Image_open.
  rewrite Hopen. cbn -[loop_fuel]. rewrite Hsize. f_equal.
  pose proof wide_box as Hbox.
  apply bind_returns in Hbox as (ar & -> & Hbox). cbn -[loop_fuel].
  destruct (normalize_mode img) as [img'| |]; cbn -[loop_fuel]; try done.
  rewrite Hbox. cbn -[loop_fuel].
  destruct (im_resize img' (400, 40)) as [base| |]; cbn -[loop_fuel]; try done.
  rewrite wide_loop_left. cbn.
  unfold Thumbnails.final_attempt. rewrite wide_final_box. cbn.
  by destruct (im_resize base (200, 100)) as [final_img| |].
Qed.

Lemma wide_image_loses_ratio_witness :
  pil_open (ImageLib := Toy.lib) (Toy.picture 1000 100) = Some (Toy.rgb 1000 100) ∧
  im_size (ImageLib := Toy.lib) (Toy.rgb 1000 100) = (1000, 100) ∧
  Thumbnails.create_thumbnail (L := Toy.lib) (Toy.picture 1000 100)
    Thumbnails.default_target_size
  = Ret (Some (Toy.jpeg (Toy.rgb 200 100) 15)).
Proof.
  assert (Hopen : pil_open (ImageLib := Toy.lib) (Toy.picture 1000 100)
                  = Some (Toy.rgb 1000 100)) by (vm_compute; reflexivity).
  assert (Hsize : im_size (ImageLib := Toy.lib) (Toy.rgb 1000 100) = (1000, 100))
    by reflexivity.
  split; [exact Hopen|]. split; [exact Hsize|].
  rewrite (wide_image_loses_ratio (L := Toy.lib) (Toy.picture 1000 100)
             Thumbnails.default_target_size (Toy.rgb 1000 100) Hopen Hsize).
  vm_compute. reflexivity.
Defined.

(** ** The bucket scanner *)

(** [split('/')] on the names of the layout, on an empty segment and on the
    empty name. *)
Example split_slash_layout :
  split_slash "events/e1/event_image.png" = ["events"; "e1"; "event_image.png"]%string ∧
  split_slash "events//x" = ["events"; ""; "x"]%string ∧
  split_slash "events/" = ["events"; ""]%string ∧
  split_slash "" = [""]%string.
Proof. by split_and!. Qed.

Section Dict_properties.
Context {V : Type}.
Implicit Types (d : list (string * V)) (k : string) (v : V).

Lemma dict_get_set_eq k v d : dict_get k (dict_set k v d) = Some v.
Proof.
  induction d as [|[k' v'] d IH]; cbn; [by rewrite decide_True|].
  destruct (decide (k = k')) as [->|Hne]; cbn.
  - by rewrite decide_True.
  - by rewrite decide_False.
Qed.

Lemma dict_get_set_ne k k' v d : k ≠ k' → dict_get k (dict_set k' v d) = dict_get k d.
Proof.
  intros Hne. induction d as [|[k'' v''] d IH]; cbn; [by rewrite decide_False|].
  destruct (decide (k' = k'')) as [->|Hne']; cbn.
  - by rewrite !decide_False.
  - by rewrite IH.
Qed.

Lemma dict_get_None k d : dict_get k d = None ↔ k ∉ d.*1.
Proof.
  induction d as [|[k' v'] d IH]; cbn; [split; [intros _; apply not_elem_of_nil|done]|].
  rewrite not_elem_of_cons. case_decide; [|tauto]. split; [done|]. by intros [? _].
Qed.

Lemma dict_set_keys k v d :
  (dict_set k v d).*1 = if decide (k ∈ d.*1) then d.*1 else d.*1 ++ [k].
Proof.
  induction d as [|[k' v'] d IH]; cbn; [by rewrite decide_False by apply not_elem_of_nil|].
  destruct (decide (k = k')) as [->|Hne]; cbn.
  - rewrite decide_True; [done|]. by left.
  - rewrite IH. destruct (decide (k ∈ d.*1)).
    + rewrite decide_True; [done|]. by right.
    + rewrite decide_False; [done|]. rewrite not_elem_of_cons. by split.
Qed.

Lemma dict_set_NoDup k v d : NoDup d.*1 → NoDup (dict_set k v d).*1.
Proof.
  intros Hd. rewrite dict_set_keys. case_decide; [done|].
  apply NoDup_app. split_and!; [done| |apply NoDup_singleton].
  intros x Hx ->%list_elem_of_singleton. done.
Qed.

Lemma dict_get_elem_of k v d : NoDup d.*1 → (k, v) ∈ d ↔ dict_get k d = Some v.
Proof.
  induction d as [|[k' v'] d IH]; cbn.
  - intros _. by rewrite elem_of_nil.
  - intros [Hk' Hd]%NoDup_cons. rewrite elem_of_cons, (IH Hd).
    case_decide as Hk; subst.
    + split.
      * intros [[= ->]|Hget]; [done|]. apply dict_get_None in Hk'. congruence.
      * intros [= ->]. by left.
    + split; [intros [[= ? ?]|?]; [done|done]|by right].
Qed.

End Dict_properties.

Section Scanner_properties.
Import Thumbnails.

Lemma event_and_file_segments blob_name :
  event_and_file blob_name
  = match split_slash blob_name with
    | _ :: event_id :: filename :: _ => Some (event_id, filename)
    | _ => None
    end.
Proof.
  unfold event_and_file, len.
  destruct (split_slash blob_name) as [|a [|b [|c rest]]]; cbn;
    case_decide; try done; lia.
Qed.

Lemma note_flags entry filename :
  has_image (note entry filename)
  = has_image entry || bool_decide (filename ∈ image_names) ∧
  has_thumbnail (note entry filename)
  = has_thumbnail entry || bool_decide (filename ∈ thumbnail_names).
Proof.
  unfold note. destruct entry as [i t]. cbn.
  destruct (decide (filename ∈ image_names)) as [Hi|Hi].
  - rewrite (bool_decide_eq_true_2 _ Hi), orb_true_r.
    rewrite bool_decide_eq_false_2, orb_false_r; [done|].
    unfold image_names, thumbnail_names in *.
    rewrite !elem_of_cons, elem_of_nil in Hi. rewrite !elem_of_cons, elem_of_nil.
    destruct Hi as [->|[->|[]]]; intros [?|[?|[]]]; discriminate.
  - rewrite (bool_decide_eq_false_2 _ Hi), orb_false_r.
    destruct (decide (filename ∈ thumbnail_names)) as [Ht|Ht]; cbn.
    + by rewrite (bool_decide_eq_true_2 _ Ht), orb_true_r.
    + by rewrite (bool_decide_eq_false_2 _ Ht), orb_false_r.
Qed.

Lemma record_blob_get events blob_name k :
  dict_get k (record_blob events blob_name)
  = match event_and_file blob_name with
    | Some (event_id, filename) =>
        if decide (k = event_id)
        then Some (note (default fresh (dict_get event_id events)) filename)
        else dict_get k events
    | None => dict_get k events
    end.
Proof.
  rewrite event_and_file_segments. unfold record_blob, len.
  destruct (split_slash blob_name) as [|a [|b [|c rest]]]; cbn;
    case_decide; try done; try lia.
  set (events' := match dict_get b events with
                  | Some _ => events
                  | None => dict_set b fresh events
                  end).
  assert (Hb : dict_get b events' = Some (default fresh (dict_get b events))).
  { subst events'. destruct (dict_get b events) eqn:E; cbn; [done|].
    apply dict_get_set_eq. }
  assert (Hk : k ≠ b → dict_get k events' = dict_get k events).
  { intros Hne. subst events'. destruct (dict_get b events); [done|].
    by apply dict_get_set_ne. }
  rewrite Hb. cbn. unfold note.
  destruct (decide (k = b)) as [->|Hne].
  - repeat case_decide; rewrite ?dict_get_set_eq; done.
  - repeat case_decide; rewrite ?dict_get_set_ne by done; auto.
Qed.

Lemma record_blob_NoDup events blob_name :
  NoDup events.*1 → NoDup (record_blob events blob_name).*1.
Proof.
  intros Hd. unfold record_blob. case_decide; [|done].
  destruct (split_slash blob_name) as [|a [|b [|c rest]]]; try done.
  assert (NoDup (match dict_get b events with
                 | Some _ => events
                 | None => dict_set b fresh events
                 end).*1).
  { destruct (dict_get b events); [done|]. by apply dict_set_NoDup. }
  repeat case_decide; try done; by apply dict_set_NoDup.
Qed.

Lemma scan_from_NoDup events blob_names :
  NoDup events.*1 → NoDup (scan_from events blob_names).*1.
Proof.
  revert events. induction blob_names as [|n blob_names IH]; intros events Hd; cbn;
    [done|]. by apply IH, record_blob_NoDup.
Qed.

Lemma scan_from_get events blob_names k :
  dict_get k (scan_from events blob_names)
  = merge (dict_get k events) (group blob_names k).
Proof.
  revert events. induction blob_names as [|n blob_names IH]; intros events; [done|].
  cbn. rewrite IH, record_blob_get. unfold group. cbn.
  destruct (event_and_file n) as [[id f]|]; cbn; [|done].
  destruct (decide (k = id)) as [->|Hne].
  - by rewrite decide_True.
  - by rewrite decide_False by done.
Qed.

Lemma merge_some entry filenames :
  merge (Some entry) filenames
  = Some {| has_image :=
              has_image entry
              || existsb (λ filename, bool_decide (filename ∈ image_names)) filenames;
            has_thumbnail :=
              has_thumbnail entry
              || existsb (λ filename, bool_decide (filename ∈ thumbnail_names)) filenames |}.
Proof.
  revert entry. induction filenames as [|f filenames IH]; intros entry; cbn.
  - rewrite !orb_false_r. by destruct entry.
  - unfold merge in IH. rewrite IH.
    destruct (note_flags entry f) as [-> ->]. by rewrite !orb_assoc.
Qed.

Lemma scan_classify blob_names event_id :
  dict_get event_id (scan blob_names) = classify blob_names event_id.
Proof.
  unfold scan, classify. rewrite scan_from_get. cbn.
  destruct (group blob_names event_id) as [|f filenames]; [done|].
  cbn. fold (merge (Some (note fresh f)) filenames). rewrite merge_some.
  by destruct (note_flags fresh f) as [-> ->].
Qed.

Lemma needing_thumbnails blobs event_id :
  event_id ∈ get_events_needing_thumbnails (Some blobs) ↔
  classify (name <$> blobs) event_id
  = Some {| has_image := true; has_thumbnail := false |}.
Proof.
  unfold get_events_needing_thumbnails. rewrite <- scan_classify.
  rewrite list_elem_of_fmap. split.
  - intros ([k entry] & -> & [Hneeds Hin]%list_elem_of_filter). cbn.
    apply dict_get_elem_of in Hin; [|apply scan_from_NoDup, NoDup_nil_2].
    rewrite Hin. unfold needs_thumbnail in Hneeds. cbn in Hneeds.
    destruct entry as [[] []]; done.
  - intros Hget. exists (event_id, {| has_image := true; has_thumbnail := false |}).
    split; [done|]. apply list_elem_of_filter. split; [done|].
    apply dict_get_elem_of; [apply scan_from_NoDup, NoDup_nil_2|done].
Qed.

End Scanner_properties.

(** C3.  After the scan, the entry of an event is the one the specification
    describes: the event is known when some listed name has at least three
    segments and the event as its second one; [has_image] tells whether the
    third segment of such a name is [event_image.png] or [event_image.jpg],
    [has_thumbnail] whether it is [event_thumbnail.png] or
    [event_thumbnail.jpg].  The events selected are those with an image and
    no thumbnail; in the listing of the specification this is [e1] only. *)
Theorem bucket_scanner (blobs : list blob) (event_id : string) :
  dict_get event_id (Thumbnails.scan (name <$> blobs)) = classify (name <$> blobs) event_id ∧
  (event_id ∈ Thumbnails.get_events_needing_thumbnails (Some blobs) ↔
   classify (name <$> blobs) event_id
   = Some {| Thumbnails.has_image := true; Thumbnails.has_thumbnail := false |}) ∧
  Thumbnails.get_events_needing_thumbnails
    (Some [Sample.listed "events/e1/event_image.png";
           Sample.listed "events/e2/event_image.png";
           Sample.listed "events/e2/event_thumbnail.png"])
  = ["e1"%string].
Proof.
  split_and!.
  - apply scan_classify.
  - apply needing_thumbnails.
  - vm_compute. reflexivity.
Qed.

(** ** The newest events first *)

Section Newest.
Import Limited.

Lemma date_lt_none_sym x y : date_lt x y = None → date_lt y x = None.
Proof. by destruct x, y. Qed.

Lemma date_lt_some_trans x y z :
  is_Some (date_lt x y) → is_Some (date_lt y z) → is_Some (date_lt x z).
Proof. destruct x, y, z; cbn; intros [? ?] [? ?]; by eauto. Qed.

Lemma date_lt_some_sym x y : is_Some (date_lt x y) → is_Some (date_lt y x).
Proof. destruct x, y; cbn; intros [? ?]; by eauto. Qed.

Lemma newer_trans x y z : newer x y → newer y z → newer x z.
Proof.
  unfold newer. destruct x as [? [a|a]], y as [? [b|b]], z as [? [c|c]]; cbn;
    intros [= Hxy%bool_decide_eq_false] [= Hyz%bool_decide_eq_false]; try done;
    f_equal; apply bool_decide_eq_false; lia.
Qed.

Lemma older_newer x y : date_lt x.2 y.2 = Some true → newer y x.
Proof.
  unfold newer. destruct x as [? [a|a]], y as [? [b|b]]; cbn;
    intros [= Hxy%bool_decide_eq_true]; f_equal; apply bool_decide_eq_false; lia.
Qed.

Lemma older_differs x y : date_lt x y = Some true → x ≠ y.
Proof.
  destruct x as [a|a], y as [b|b]; cbn; intros [= Hxy%bool_decide_eq_true] [=]; lia.
Qed.

Lemma insert_newest_perm x l l' : insert_newest x l = Some l' → l' ≡ₚ x :: l.
Proof.
  revert l'. induction l as [|y l IH]; intros l'; cbn; [by intros [= <-]|].
  destruct (date_lt x.2 y.2) as [[]|]; cbn; [|by intros [= <-]|done].
  destruct (insert_newest x l) as [l''|]; cbn; [|done]. intros [= <-].
  rewrite (IH l'') by done. apply Permutation_swap.
Qed.

Lemma sort_newest_first_perm l l' : sort_newest_first l = Some l' → l' ≡ₚ l.
Proof.
  revert l'. induction l as [|x l IH]; intros l'; cbn; [by intros [= <-]|].
  destruct (sort_newest_first l) as [l''|]; cbn; [|done].
  intros ->%insert_newest_perm. by rewrite (IH l'').
Qed.

Lemma insert_newest_sorted x l l' :
  StronglySorted newer l → insert_newest x l = Some l' → StronglySorted newer l'.
Proof.
  intros Hl. revert l'. induction Hl as [|y l Hl IH Hy]; intros l'; cbn.
  { intros [= <-]. by repeat constructor. }
  destruct (date_lt x.2 y.2) as [[]|] eqn:Hxy; cbn; [| |done].
  - destruct (insert_newest x l) as [l''|] eqn:Hins; cbn; [|done]. intros [= <-].
    constructor; [by apply IH|]. rewrite (insert_newest_perm _ _ _ Hins).
    constructor; [by apply older_newer|done].
  - intros [= <-]. constructor; [by constructor|]. constructor; [done|].
    eapply Forall_impl; [done|]. intros z Hz. by apply (newer_trans _ y).
Qed.

Lemma sort_newest_first_sorted l l' :
  sort_newest_first l = Some l' → StronglySorted newer l'.
Proof.
  revert l'. induction l as [|x l IH]; intros l'; cbn; [intros [= <-]; constructor|].
  destruct (sort_newest_first l) as [l''|]; cbn; [|done].
  apply insert_newest_sorted. by apply IH.
Qed.

(** The sort is stable: events of one date keep their order. *)
Lemma insert_newest_stable date x l l' :
  insert_newest x l = Some l' →
  filter (λ y, y.2 = date) l' = filter (λ y, y.2 = date) (x :: l).
Proof.
  revert l'. induction l as [|y l IH]; intros l'; cbn; [by intros [= <-]|].
  destruct (date_lt x.2 y.2) as [[]|] eqn:Hxy; cbn; [|by intros [= <-]|done].
  destruct (insert_newest x l) as [l''|]; cbn; [|done]. intros [= <-].
  rewrite (filter_cons _ y), (IH l'') by done. rewrite !filter_cons.
  apply older_differs in Hxy. repeat case_decide; try done. congruence.
Qed.

Lemma sort_newest_first_stable date l l' :
  sort_newest_first l = Some l' →
  filter (λ y, y.2 = date) l' = filter (λ y, y.2 = date) l.
Proof.
  revert l'. induction l as [|x l IH]; intros l'; cbn; [by intros [= <-]|].
  destruct (sort_newest_first l) as [l''|]; cbn; [|done].
  intros ->%(insert_newest_stable date). rewrite !filter_cons. by rewrite (IH l'').
Qed.

(** The sort raises exactly on a list that holds two dates that cannot be
    compared. *)
Lemma insert_newest_some x l :
  Forall (λ y, is_Some (date_lt x.2 y.2)) l → is_Some (insert_newest x l).
Proof.
  induction 1 as [|y l [older Hy] _ IH]; cbn; [by eauto|].
  rewrite Hy. cbn. destruct older; [|by eauto].
  destruct IH as [l' ->]. by eauto.
Qed.

Lemma sort_newest_first_some l :
  (∀ x y, x ∈ l → y ∈ l → is_Some (date_lt x.2 y.2)) → is_Some (sort_newest_first l).
Proof.
  induction l as [|x l IH]; intros Hl; cbn; [by eauto|].
  destruct IH as [l' Hl'].
  { intros y z Hy Hz. apply Hl; by right. }
  rewrite Hl'. cbn. apply insert_newest_some, Forall_forall. intros y Hy.
  apply Hl; [by left|]. right. by rewrite <- (sort_newest_first_perm _ _ Hl').
Qed.

Lemma sort_newest_first_comparable l l' :
  sort_newest_first l = Some l' →
  ∀ x y, x ∈ l → y ∈ l → is_Some (date_lt x.2 y.2).
Proof.
  revert l'. induction l as [|x l IH]; intros l'; cbn; [by intros _ ? ? []%elem_of_nil|].
  destruct (sort_newest_first l) as [l''|] eqn:Hsort; cbn; [|done]. intros Hins.
  assert (Hx : ∀ y, y ∈ l → is_Some (date_lt x.2 y.2)).
  { destruct l'' as [|z l'']; cbn in Hins.
    - apply sort_newest_first_perm in Hsort. symmetry in Hsort.
      apply Permutation_nil_r in Hsort as ->. by intros ? []%elem_of_nil.
    - assert (Hz : z ∈ l)
        by (rewrite <- (sort_newest_first_perm _ _ Hsort); by left).
      assert (Hxz : is_Some (date_lt x.2 z.2))
        by (destruct (date_lt x.2 z.2); [by eauto|done]).
      intros y Hy. eapply date_lt_some_trans; [done|]. by apply (IH _ eq_refl). }
  intros y z [->|Hy]%elem_of_cons [->|Hz]%elem_of_cons.
  - destruct (x.2); cbn; by eauto.
  - by apply Hx.
  - by apply date_lt_some_sym, Hx.
  - by apply (IH _ eq_refl).
Qed.

Lemma insert_newest_none x l :
  insert_newest x l = None → ∃ y, y ∈ l ∧ date_lt x.2 y.2 = None.
Proof.
  induction l as [|y l IH]; cbn; [done|].
  destruct (date_lt x.2 y.2) as [[]|] eqn:Hxy; cbn; [|done|].
  - destruct (insert_newest x l); cbn; [done|]. intros _.
    destruct IH as (z & Hz & Hxz); [done|]. exists z. split; [by right|done].
  - intros _. exists y. split; [by left|done].
Qed.

Lemma sort_newest_first_none l :
  sort_newest_first l = None → ∃ x y, x ∈ l ∧ y ∈ l ∧ date_lt x.2 y.2 = None.
Proof.
  induction l as [|x l IH]; cbn; [done|].
  destruct (sort_newest_first l) as [l'|] eqn:Hsort; cbn.
  - intros (y & Hy & Hxy)%insert_newest_none. exists x, y.
    split; [by left|]. split; [|done]. right.
    by rewrite <- (sort_newest_first_perm _ _ Hsort).
  - intros _. destruct IH as (y & z & Hy & Hz & Hyz); [done|].
    exists y, z. split; [by right|]. split; [by right|done].
Qed.

Lemma sort_newest_first_raises l :
  sort_newest_first l = None ↔
  ∃ x y a n, x ∈ l ∧ y ∈ l ∧ x.2 = Aware a ∧ y.2 = Naive n.
Proof.
  split.
  - intros (x & y & Hx & Hy & Hxy)%sort_newest_first_none.
    destruct (x.2) as [a|a] eqn:Ex, (y.2) as [b|b] eqn:Ey; try done.
    + by exists x, y, a, b.
    + by exists y, x, b, a.
  - intros (x & y & a & n & Hx & Hy & Ha & Hn).
    destruct (sort_newest_first l) as [l'|] eqn:Hsort; [|done].
    destruct (sort_newest_first_comparable _ _ Hsort x y Hx Hy) as [? Hlt].
    by rewrite Ha, Hn in Hlt.
Qed.

Lemma candidates_omap events :
  candidates events
  = omap (λ '(event_id, entry),
            date ← thumbnail_date entry;
            if has_thumbnail entry && negb (has_image entry)
            then Some (event_id, date) else None)
         events.
Proof.
  induction events as [|[k entry] events IH]; cbn; [done|].
  destruct (thumbnail_date entry) as [date|]; cbn; [|done].
  destruct (has_thumbnail entry && negb (has_image entry)); cbn; by rewrite IH.
Qed.

Lemma candidates_spec events event_id date :
  (event_id, date) ∈ candidates events ↔
  ∃ entry, (event_id, entry) ∈ events ∧ has_thumbnail entry = true ∧
           has_image entry = false ∧ thumbnail_date entry = Some date.
Proof.
  rewrite candidates_omap, list_elem_of_omap. split.
  - intros ([k entry] & Hin & Hpick). exists entry.
    destruct (thumbnail_date entry) as [d|]; cbn in Hpick; [|done].
    destruct (has_thumbnail entry), (has_image entry); cbn in Hpick; try done.
    by injection Hpick as -> ->.
  - intros (entry & Hin & Ht & Hi & Hd). exists (event_id, entry).
    split; [done|]. by rewrite Hd, Ht, Hi.
Qed.

Lemma slice_to_take {A} (l : list A) (stop : Z) :
  0 ≤ stop → slice_to l stop = take (Z.to_nat (Z.min stop (len l))) l.
Proof.
  intros Hstop. unfold slice_to, len. rewrite decide_True by done.
  destruct (decide (stop ≤ Z.of_nat (length l))).
  - by rewrite Z.min_l.
  - rewrite Z.min_r, Nat2Z.id, firstn_all by lia. apply take_ge. lia.
Qed.

Lemma date_range_defined_nonneg events_with_dates max_events :
  0 ≤ max_events → date_range_defined events_with_dates max_events = true.
Proof.
  intros Hstop. unfold date_range_defined, index_defined.
  destruct events_with_dates as [|x l]; [done|].
  apply bool_decide_eq_true_2. unfold len. cbn [length]. lia.
Qed.

End Newest.

(** C7 fails beside a thumbnail whose date cannot be loaded.  The candidates
    of the limited script are the events with a thumbnail, no image and a
    date.  The date of a thumbnail whose metadata cannot be loaded is the
    fallback [datetime(2020, 1, 1)], which has no time zone, where the other
    dates have one.  When the candidates hold a date of each kind the sort
    raises, and the selection is empty whatever the cap.
    When the sort returns, its result is the candidates sorted by date,
    newest first (a stable sort: a permutation of the candidates in which no
    event comes before a newer one and events of one date keep their order),
    and for a cap [max_events ≥ 0] the selection is the list of its first
    [min(max_events, number of candidates)] events. *)
Theorem top_k_newest (blobs : list blob) (max_events : Z) :
  let events := Limited.scan_from [] blobs in
  let candidates := Limited.candidates events in
  (∀ event_id date,
     (event_id, date) ∈ candidates ↔
     ∃ entry, (event_id, entry) ∈ events ∧ Limited.has_thumbnail entry = true ∧
              Limited.has_image entry = false ∧ Limited.thumbnail_date entry = Some date) ∧
  (Limited.sort_newest_first candidates = None ↔
   ∃ x y a n, x ∈ candidates ∧ y ∈ candidates ∧
              x.2 = Limited.Aware a ∧ y.2 = Limited.Naive n) ∧
  (Limited.sort_newest_first candidates = None →
   Limited.get_events_needing_images (Some blobs) max_events = []) ∧
  (∀ newest_first,
     Limited.sort_newest_first candidates = Some newest_first →
     newest_first ≡ₚ candidates ∧
     StronglySorted newer newest_first ∧
     (∀ date, filter (λ y, y.2 = date) newest_first = filter (λ y, y.2 = date) candidates) ∧
     (0 ≤ max_events →
      Limited.get_events_needing_images (Some blobs) max_events
      = (take (Z.to_nat (Z.min max_events (len candidates))) newest_first).*1)).
Proof.
  intros events candidates. split_and!.
  - intros. apply candidates_spec.
  - apply sort_newest_first_raises.
  - intros Hraises. unfold Limited.get_events_needing_images.
    fold events. fold candidates. by rewrite Hraises.
  - intros newest_first Hsort. split_and!.
    + by apply sort_newest_first_perm.
    + by apply (sort_newest_first_sorted candidates).
    + intros. by apply sort_newest_first_stable.
    + intros Hstop. unfold Limited.get_events_needing_images.
      fold events. fold candidates. rewrite Hsort.
      rewrite date_range_defined_nonneg by done.
      unfold Limited.select. rewrite slice_to_take by done. unfold len.
      by rewrite (Permutation_length (sort_newest_first_perm _ _ Hsort)).
Qed.

(** In the sample the date of [e5] cannot be loaded: nothing is selected.
    Without the thumbnail of [e5] the two newest events without an image
    are selected, [e2] and [e3]. *)
Lemma top_k_newest_witness :
  Limited.sort_newest_first (Limited.candidates (Limited.scan_from [] Sample.thumbnails))
  = None ∧
  Limited.get_events_needing_images (Some Sample.thumbnails) 2 = [] ∧
  Limited.get_events_needing_images (Some Sample.dated) 2 = ["e2"; "e3"]%string.
Proof.
  assert (Hraises : Limited.sort_newest_first
                      (Limited.candidates (Limited.scan_from [] Sample.thumbnails))
                    = None) by (vm_compute; reflexivity).
  split; [exact Hraises|]. split.
  - exact (proj1 (proj2 (proj2 (top_k_newest Sample.thumbnails 2))) Hraises).
  - vm_compute. reflexivity.
Defined.

(** * Further properties of the scripts *)

(** ** The layout of the names *)

Lemma split_slash_nonempty blob_name : split_slash blob_name ≠ [].
Proof.
  induction blob_name as [|c rest IH]; cbn; [done|].
  destruct (split_slash rest); [done|]. by case_decide.
Qed.

Lemma split_slash_segment segment :
  slash_free segment = true → split_slash segment = [segment].
Proof.
  induction segment as [|c rest IH]; cbn; [done|].
  case_decide; [done|]. intros Hrest. by rewrite (IH Hrest).
Qed.

Lemma split_slash_join segment rest :
  slash_free segment = true →
  split_slash (segment +:+ "/" +:+ rest) = segment :: split_slash rest.
Proof.
  induction segment as [|c segment IH].
  - intros _. change ("" +:+ "/" +:+ rest) with (String "/" rest). cbn.
    destruct (split_slash rest) eqn:E; [by destruct (split_slash_nonempty rest)|].
    by rewrite decide_True.
  - cbn. case_decide; [done|]. intros Hfree.
    change (String c segment +:+ "/" +:+ rest) with (String c (segment +:+ "/" +:+ rest)).
    cbn. rewrite (IH Hfree). by rewrite decide_False.
Qed.

Lemma blob_path_segments (collection event_id filename : string) :
  slash_free collection = true →
  slash_free event_id = true →
  slash_free filename = true →
  split_slash (blob_path collection event_id filename) = [collection; event_id; filename] ∧
  event_and_file (blob_path collection event_id filename) = Some (event_id, filename).
Proof.
  intros Hc He Hf.
  assert (Hsplit : split_slash (blob_path collection event_id filename)
                   = [collection; event_id; filename]).
  { unfold blob_path. rewrite !split_slash_join by done. by rewrite split_slash_segment. }
  split; [done|]. unfold event_and_file. by rewrite Hsplit.
Qed.

(** X1.  The names the scripts build are read back by the scanners: for segments
    without a slash, [f"{collection}/{event_id}/{filename}".split('/')] is
    [[collection, event_id, filename]]. *)
Theorem blob_path_split (collection event_id filename : string) :
  slash_free collection = true →
  slash_free event_id = true →
  slash_free filename = true →
  split_slash (blob_path collection event_id filename) = [collection; event_id; filename] ∧
  event_and_file (blob_path collection event_id filename) = Some (event_id, filename).
Proof. apply blob_path_segments. Qed.

Lemma blob_path_split_witness :
  slash_free "events" = true ∧ slash_free "e1" = true ∧
  slash_free "event_image.png" = true ∧
  split_slash (blob_path "events" "e1" "event_image.png")
  = ["events"; "e1"; "event_image.png"]%string.
Proof.
  assert (Hc : slash_free "events" = true) by reflexivity.
  assert (He : slash_free "e1" = true) by reflexivity.
  assert (Hf : slash_free "event_image.png" = true) by reflexivity.
  split; [exact Hc|]. split; [exact He|]. split; [exact Hf|].
  exact (proj1 (blob_path_split "events" "e1" "event_image.png" Hc He Hf)).
Defined.

(** ** The selection of [generate_thumbnails.py] *)

Lemma elem_of_group blob_names event_id filename :
  filename ∈ group blob_names event_id ↔
  ∃ blob_name, blob_name ∈ blob_names ∧
               event_and_file blob_name = Some (event_id, filename).
Proof.
  unfold group. rewrite list_elem_of_omap. split.
  - intros (n & Hin & H). exists n. split; [done|].
    destruct (event_and_file n) as [[id f]|]; cbn in H; [|done].
    case_decide; [|done]. by simplify_eq.
  - intros (n & Hin & H). exists n. split; [done|]. rewrite H. cbn.
    by rewrite decide_True.
Qed.

Lemma existsb_elem_of {A} (p : A → bool) (l : list A) :
  existsb p l = true ↔ ∃ x, x ∈ l ∧ p x = true.
Proof.
  induction l as [|y l IH]; cbn.
  - split; [done|]. by intros (x & []%elem_of_nil & _).
  - rewrite orb_true_iff, IH. split.
    + intros [Hy|(x & ? & ?)]; [exists y; split; [by left|done]|].
      exists x. split; [by right|done].
    + intros (x & [->|Hx]%elem_of_cons & Hp); [by left|]. right. by exists x.
Qed.

Lemma classify_has_thumbnail blob_names event_id entry :
  classify blob_names event_id = Some entry →
  (Thumbnails.has_thumbnail entry = true ↔
   ∃ filename, filename ∈ group blob_names event_id ∧ filename ∈ thumbnail_names) ∧
  (Thumbnails.has_image entry = true ↔
   ∃ filename, filename ∈ group blob_names event_id ∧ filename ∈ image_names).
Proof.
  unfold classify. destruct (group blob_names event_id) as [|f fs] eqn:E; [done|].
  intros [= <-].
  split; (etrans; [exact (existsb_elem_of _ (f :: fs))|]);
    split; intros (x & ? & ?); exists x; split; try done;
    by rewrite ?bool_decide_eq_true in *.
Qed.

(** X2.  Once the thumbnail that [upload_thumbnail] writes for an event is listed,
    the event is not selected again, whatever else is listed. *)
Theorem listed_thumbnail_not_selected (blobs : list blob) (collection event_id : string)
    (b : blob) :
  slash_free collection = true →
  slash_free event_id = true →
  b ∈ blobs →
  name b = blob_path collection event_id "event_thumbnail.png" →
  event_id ∉ Thumbnails.get_events_needing_thumbnails (Some blobs).
Proof.
  intros Hc He Hin Hname Hsel. apply needing_thumbnails in Hsel.
  destruct (classify_has_thumbnail _ _ _ Hsel) as [[_ Hthumb] _].
  cbn in Hthumb. enough (false = true) by done. apply Hthumb.
  exists "event_thumbnail.png"%string. split.
  - apply elem_of_group. exists (name b). split; [by apply list_elem_of_fmap_2|].
    rewrite Hname. by apply blob_path_segments.
  - unfold thumbnail_names. by left.
Qed.

Lemma listed_thumbnail_not_selected_witness :
  slash_free "events" = true ∧ slash_free "e1" = true ∧
  "e1"%string ∉ Thumbnails.get_events_needing_thumbnails
                 (Some [Sample.listed "events/e1/event_image.png";
                        Sample.listed (blob_path "events" "e1" "event_thumbnail.png")]).
Proof.
  assert (Hc : slash_free "events" = true) by reflexivity.
  assert (He : slash_free "e1" = true) by reflexivity.
  split; [exact Hc|]. split; [exact He|].
  apply (listed_thumbnail_not_selected _ "events" "e1"
           (Sample.listed (blob_path "events" "e1" "event_thumbnail.png")) Hc He).
  - right. left.
  - reflexivity.
Defined.

Lemma existsb_Permutation {A} (p : A → bool) (l k : list A) :
  l ≡ₚ k → existsb p l = existsb p k.
Proof.
  induction 1 as [|x l k _ IH|x y l|l k m _ IH1 _ IH2]; cbn.
  - done.
  - by rewrite IH.
  - by rewrite !orb_assoc, (orb_comm (p y)).
  - by rewrite IH1.
Qed.

Lemma classify_Permutation blob_names blob_names' event_id :
  blob_names ≡ₚ blob_names' →
  classify blob_names event_id = classify blob_names' event_id.
Proof.
  intros Hperm. unfold classify.
  assert (Hgroup : group blob_names event_id ≡ₚ group blob_names' event_id)
    by (unfold group; by rewrite Hperm).
  destruct (group blob_names event_id) as [|f fs] eqn:E1.
  - destruct (group blob_names' event_id) as [|f' fs'] eqn:E2; [done|].
    by apply Permutation_nil_cons in Hgroup.
  - destruct (group blob_names' event_id) as [|f' fs'] eqn:E2.
    + symmetry in Hgroup. by apply Permutation_nil_cons in Hgroup.
    + by rewrite !(existsb_Permutation _ _ _ Hgroup).
Qed.

Lemma get_events_needing_thumbnails_NoDup listing :
  NoDup (Thumbnails.get_events_needing_thumbnails listing).
Proof.
  destruct listing as [blobs|]; cbn; [|constructor].
  eapply sublist_NoDup; [apply (scan_from_NoDup [] (name <$> blobs)), NoDup_nil_2|].
  apply fmap_sublist, sublist_filter.
Qed.

(** X3.  No event is selected twice, and the events selected do not depend on the
    order of the listing (only the order of the answer does). *)
Theorem selection_order_free (blobs blobs' : list blob) :
  blobs ≡ₚ blobs' →
  NoDup (Thumbnails.get_events_needing_thumbnails (Some blobs)) ∧
  Thumbnails.get_events_needing_thumbnails (Some blobs)
  ≡ₚ Thumbnails.get_events_needing_thumbnails (Some blobs').
Proof.
  intros Hperm. split; [apply get_events_needing_thumbnails_NoDup|].
  apply NoDup_Permutation; try apply get_events_needing_thumbnails_NoDup.
  intros e. rewrite !needing_thumbnails.
  by rewrite (classify_Permutation (name <$> blobs) (name <$> blobs'))
    by (by rewrite Hperm).
Qed.

Lemma selection_order_free_witness :
  let blobs := [Sample.listed "events/e1/event_image.png";
                Sample.listed "events/e2/event_image.png";
                Sample.listed "events/e2/event_thumbnail.png";
                Sample.listed "events/e3/event_image.jpg"] in
  reverse blobs ≡ₚ blobs ∧
  Thumbnails.get_events_needing_thumbnails (Some (reverse blobs)) = ["e3"; "e1"]%string ∧
  Thumbnails.get_events_needing_thumbnails (Some (reverse blobs))
  ≡ₚ Thumbnails.get_events_needing_thumbnails (Some blobs).
Proof.
  intros blobs.
  assert (Hperm : reverse blobs ≡ₚ blobs) by apply reverse_Permutation.
  split; [exact Hperm|]. split; [vm_compute; reflexivity|].
  exact (proj2 (selection_order_free (reverse blobs) blobs Hperm)).
Defined.

(** ** Downloads and the existence check *)

Lemma first_existing_two fails b png jpg :
  first_existing fails b [png; jpg]
  = if fails (Exists png) then Raise
    else match b !! png with
         | Some o => if fails (Download png) then Raise else Ret (Some (data o))
         | None =>
             if fails (Exists jpg) then Raise
             else match b !! jpg with
                  | Some o => if fails (Download jpg) then Raise else Ret (Some (data o))
                  | None => Ret None
                  end
         end.
Proof.
  unfold first_existing, blob_exists, download_as_bytes.
  destruct (fails (Exists png)); [done|].
  destruct (b !! png) as [o|]; cbn.
  - by destruct (fails (Download png)).
  - destruct (fails (Exists jpg)); [done|].
    destruct (b !! jpg) as [o|]; cbn; [|done].
    by destruct (fails (Download jpg)).
Qed.

(** X4.  [download_image] and [download_thumbnail] never raise; what they return
    is stored under the [.png] name, or under the [.jpg] name when there is
    no [.png] object; when no request fails they return the [.png] object if
    there is one, else the [.jpg] object, else [None]. *)
Theorem download_prefers_png (fails : request → bool) (stem : string)
    (b : gmap string object) (collection event_id : string) :
  let png := blob_path collection event_id (stem +:+ ".png") in
  let jpg := blob_path collection event_id (stem +:+ ".jpg") in
  returns (download_asset fails stem b collection event_id) ∧
  (∀ contents,
     download_asset fails stem b collection event_id = Ret (Some contents) →
     data <$> b !! png = Some contents ∨
     (b !! png = None ∧ data <$> b !! jpg = Some contents)) ∧
  ((∀ r, fails r = false) →
   download_asset fails stem b collection event_id
   = Ret (match b !! png with
          | Some o => Some (data o)
          | None => data <$> b !! jpg
          end)).
Proof.
  intros png jpg. unfold download_asset. fold png jpg. rewrite first_existing_two.
  split; [|split].
  - repeat case_match; cbn; eexists; done.
  - intros contents. repeat case_match; cbn; intros [=]; subst; cbn; auto.
  - intros Honline. rewrite !Honline. repeat case_match; done.
Qed.

Lemma download_prefers_png_witness :
  (∀ r, Sample.online r = false) ∧
  Thumbnails.download_image Sample.online Sample.objects "events" "e3"
  = Ret (Some (Toy.picture 300 500)).
Proof.
  assert (Honline : ∀ r, Sample.online r = false) by done.
  split; [exact Honline|].
  exact (proj2 (proj2 (download_prefers_png Sample.online "event_image" Sample.objects
                         "events" "e3")) Honline).
Defined.

Lemma check_event_has_image_iff (fails : request → bool) (b : gmap string object)
    (collection event_id : string) :
  let png := blob_path collection event_id "event_image.png" in
  let jpg := blob_path collection event_id "event_image.jpg" in
  check_event_has_image fails b collection event_id = true ↔
  fails (Exists png) = false ∧
  (is_Some (b !! png) ∨ (fails (Exists jpg) = false ∧ is_Some (b !! jpg))).
Proof.
  intros png jpg. unfold check_event_has_image.
  change (blob_path collection event_id ("event_image" +:+ ".png")) with png.
  change (blob_path collection event_id ("event_image" +:+ ".jpg")) with jpg.
  unfold any_exists, blob_exists.
  destruct (fails (Exists png)); cbn; [by split; [|intros [[=] _]]|].
  destruct (b !! png) as [o|]; cbn; [by split; [split; [|left]|]|].
  destruct (fails (Exists jpg)); cbn.
  - split; [done|]. intros [_ [[? [=]]|[[=] _]]].
  - destruct (b !! jpg) as [o|]; cbn; [by split; [split; [|right]|]|].
    split; [done|]. intros [_ [[? [=]]|[_ [? [=]]]]].
Qed.

(** X5.  [check_event_has_image] answers [True] exactly when the requests it
    needs succeed and one of the two image objects is stored: a failing
    request is answered by [False], whatever is stored. *)
Theorem check_event_has_image_answers (fails : request → bool) (b : gmap string object)
    (collection event_id : string) :
  let png := blob_path collection event_id "event_image.png" in
  let jpg := blob_path collection event_id "event_image.jpg" in
  check_event_has_image fails b collection event_id = true ↔
  fails (Exists png) = false ∧
  (is_Some (b !! png) ∨ (fails (Exists jpg) = false ∧ is_Some (b !! jpg))).
Proof. apply check_event_has_image_iff. Qed.

(** X6.  What one script uploads the others find: the thumbnail that
    [upload_thumbnail] stores is what [download_thumbnail] returns, and the
    image that an [upload_image] stores is seen by [check_event_has_image] and
    returned by [download_image]. *)
Theorem uploads_are_found (fails fails' : request → bool) (b b' : gmap string object)
    (collection event_id : string) (contents : bytes) :
  (Thumbnails.upload_thumbnail fails b collection event_id contents = Ret (true, b') →
   let path := blob_path collection event_id "event_thumbnail.png" in
   fails' (Exists path) = false → fails' (Download path) = false →
   Missing.download_thumbnail fails' b' collection event_id = Ret (Some contents)) ∧
  (∀ upload,
     upload ∈ image_uploaders fails →
     upload b collection event_id contents = Ret (true, b') →
     let path := blob_path collection event_id "event_image.png" in
     fails' (Exists path) = false →
     check_event_has_image fails' b' collection event_id = true ∧
     (fails' (Download path) = false →
      Thumbnails.download_image fails' b' collection event_id = Ret (Some contents))).
Proof.
  split.
  - intros Hup path Hexists Hdownload. subst path.
    apply upload_as_written in Hup as [Hpath _].
    unfold Missing.download_thumbnail, download_asset.
    change ("event_thumbnail" +:+ ".png") with "event_thumbnail.png".
    by rewrite first_existing_two, Hexists, Hpath, Hdownload.
  - intros upload Hin Hup path Hexists. subst path.
    destruct (image_uploaders_write fails upload b collection event_id contents b' Hin Hup)
      as (type & Hpath & _).
    split.
    + apply check_event_has_image_iff. split; [done|]. left. by rewrite Hpath.
    + intros Hdownload. unfold Thumbnails.download_image, download_asset.
      change ("event_image" +:+ ".png") with "event_image.png".
      by rewrite first_existing_two, Hexists, Hpath, Hdownload.
Qed.

Lemma uploads_are_found_witness :
  let contents := Toy.picture 200 160 in
  let b' := <["events/e1/event_thumbnail.png"%string :=
              {| data := contents; content_type := "image/png" |}]> Sample.objects in
  Thumbnails.upload_thumbnail Sample.online Sample.objects "events" "e1" contents
    = Ret (true, b') ∧
  Missing.download_thumbnail Sample.online b' "events" "e1" = Ret (Some contents).
Proof.
  intros contents b'.
  assert (Hup : Thumbnails.upload_thumbnail Sample.online Sample.objects "events" "e1"
                  contents = Ret (true, b')) by reflexivity.
  split; [exact Hup|].
  exact (proj1 (uploads_are_found Sample.online Sample.online Sample.objects b'
                  "events" "e1" contents) Hup eq_refl eq_refl).
Defined.

(** ** What an event reads and writes *)

Lemma string_app_nil (t : string) : "" +:+ t = t.
Proof. done. Qed.

Lemma string_app_cons a (s t : string) : String a s +:+ t = String a (s +:+ t).
Proof. done. Qed.

Lemma slash_free_app_slash s r : slash_free (s +:+ String "/" r) = false.
Proof.
  induction s as [|a s IH]; [done|]. rewrite string_app_cons. cbn. by case_decide.
Qed.

Lemma app_slash_inj s s' r r' :
  slash_free r = true → slash_free r' = true →
  s +:+ String "/" r = s' +:+ String "/" r' → s = s' ∧ r = r'.
Proof.
  intros Hr Hr'. revert s'. induction s as [|a s IH]; intros [|a' s'];
    rewrite ?string_app_nil, ?string_app_cons; intros [=]; subst.
  - done.
  - by rewrite slash_free_app_slash in Hr.
  - by rewrite slash_free_app_slash in Hr'.
  - by destruct (IH s') as [-> ->].
Qed.

Lemma blob_path_last c e f :
  blob_path c e f = (c +:+ "/" +:+ e) +:+ String "/" f.
Proof. unfold blob_path. by rewrite !string_app_assoc. Qed.

(** The last segment of a path is its file name, and under one collection
    the event is determined too. *)
Lemma blob_path_filename c e f c' e' f' :
  slash_free f = true → slash_free f' = true →
  blob_path c e f = blob_path c' e' f' → f = f'.
Proof.
  intros Hf Hf'. rewrite !blob_path_last. intros H.
  by destruct (app_slash_inj _ _ _ _ Hf Hf' H).
Qed.


Lemma script_layouts_layout `{L : ImageLib} fails s stem target type :
  (s, (stem, target, type)) ∈ script_layouts fails →
  stages_layout fails s stem target type ∧
  slash_free target = true ∧ slash_free (stem +:+ ".png") = true ∧
  slash_free (stem +:+ ".jpg") = true.
Proof.
  unfold script_layouts. rewrite !elem_of_cons, elem_of_nil.
  intros [H|[H|[H|[H|[H|[]]]]]]; simplify_eq; (split; [by split|done]).
Qed.

Lemma script_layouts_scripts `{L : ImageLib} fails s :
  s ∈ generator_scripts fails ↔ ∃ layout, (s, layout) ∈ script_layouts fails.
Proof.
  unfold generator_scripts, script_layouts. rewrite !elem_of_cons, elem_of_nil. split.
  - intros [->|[->|[->|[->|[->|[]]]]]]; eexists; rewrite !elem_of_cons; eauto 10.
  - intros (layout & H). rewrite !elem_of_cons, elem_of_nil in H.
    destruct H as [H|[H|[H|[H|[H|[]]]]]]; simplify_eq; eauto 10.
Qed.

Section Frame.
Context (fails : request → bool) (s : Pipeline.stages) (stem target : string)
        (type : bytes → string).
Context (behave : stages_behave s) (layout : stages_layout fails s stem target type).
Context (target_segment : slash_free target = true)
        (png_segment : slash_free (stem +:+ ".png") = true)
        (jpg_segment : slash_free (stem +:+ ".jpg") = true).

Lemma download_same_sources b1 b2 c e :
  same_sources stem b1 b2 c e →
  Pipeline.download s b1 c e = Pipeline.download s b2 c e.
Proof.
  intros [Hpng Hjpg]. rewrite !(layout_download _ _ _ _ _ layout).
  unfold download_asset. by rewrite !first_existing_two, Hpng, Hjpg.
Qed.

Lemma process_event_reads b c e :
  ∃ written : option object,
    ∀ self,
      same_sources stem (bucket self) b c e →
      Pipeline.process_event s self c e
      = Ret (match written with
             | Some o =>
                 (true, count_processed self (<[blob_path c e target := o]> (bucket self)))
             | None => (false, count_error self)
             end).
Proof.
  destruct (Pipeline.download s b c e) as [source| |] eqn:Hd;
    [| |by destruct (download_in_fuel s behave _ _ _ Hd)]; cycle 1.
  { exists None. intros self Hsame. unfold Pipeline.process_event.
    by rewrite (download_same_sources _ _ _ _ Hsame), Hd. }
  destruct (truthy source) eqn:Hsource; cycle 1.
  { exists None. intros self Hsame. unfold Pipeline.process_event.
    rewrite (download_same_sources _ _ _ _ Hsame), Hd. cbn. by rewrite Hsource. }
  destruct (Pipeline.transcode s (default [] source)) as [produced| |] eqn:Ht;
    [| |by destruct (transcode_in_fuel s behave _ Ht)]; cycle 1.
  { exists None. intros self Hsame. unfold Pipeline.process_event.
    rewrite (download_same_sources _ _ _ _ Hsame), Hd. cbn. by rewrite Hsource, Ht. }
  destruct (truthy produced) eqn:Hproduced; cycle 1.
  { exists None. intros self Hsame. unfold Pipeline.process_event.
    rewrite (download_same_sources _ _ _ _ Hsame), Hd. cbn.
    rewrite Hsource. cbn. rewrite Ht. cbn. by rewrite Hproduced. }
  destruct (fails (Upload (blob_path c e target))) eqn:Hfails.
  - exists None. intros self Hsame. unfold Pipeline.process_event.
    rewrite (download_same_sources _ _ _ _ Hsame), Hd. cbn.
    rewrite Hsource. cbn. rewrite Ht. cbn. rewrite Hproduced. cbn.
    rewrite (layout_upload _ _ _ _ _ layout).
    destruct (upload_as_answers fails (blob_path c e target)
                (type (default [] produced)) (bucket self) (default [] produced))
      as [[? _]|[_ ->]]; [congruence|].
    cbn. by rewrite with_bucket_same.
  - exists (Some {| data := default [] produced;
                    content_type := type (default [] produced) |}).
    intros self Hsame. unfold Pipeline.process_event.
    rewrite (download_same_sources _ _ _ _ Hsame), Hd. cbn.
    rewrite Hsource. cbn. rewrite Ht. cbn. rewrite Hproduced. cbn.
    rewrite (layout_upload _ _ _ _ _ layout).
    destruct (upload_as_answers fails (blob_path c e target)
                (type (default [] produced)) (bucket self) (default [] produced))
      as [[_ ->]|[? _]]; [done|congruence].
Qed.

Lemma target_is_no_source c e e' ext :
  ext ∈ [".png"; ".jpg"]%string →
  blob_path c e target ≠ blob_path c e' (stem +:+ ext).
Proof.
  rewrite !elem_of_cons, elem_of_nil. intros [->|[->|[]]] Heq.
  - apply blob_path_filename in Heq; [|done..]. by destruct (layout_png _ _ _ _ _ layout).
  - apply blob_path_filename in Heq; [|done..]. by destruct (layout_jpg _ _ _ _ _ layout).
Qed.

Lemma same_sources_insert b c e e' o :
  same_sources stem (<[blob_path c e target := o]> b) b c e'.
Proof.
  split; apply lookup_insert_ne, target_is_no_source; set_solver.
Qed.



Lemma process_event_returns self c e :
  ∃ ok self', Pipeline.process_event s self c e = Ret (ok, self').
Proof.
  destruct (process_event_reads (bucket self) c e) as (w & Hw).
  rewrite (Hw self) by done. destruct w; eauto.
Qed.

Lemma run_batch_cons self c e completed :
  Pipeline.run_batch s self c (e :: completed)
  = '(ok, self1) ← Pipeline.process_event s self c e;
    '(answers, self') ← Pipeline.run_batch s self1 c completed;
    Ret (ok :: answers, self').
Proof.
  cbn. destruct (process_event_returns self c e) as (ok & self1 & ->). done.
Qed.


(** A batch changes no object other than the targets of its events. *)
Lemma run_batch_writes c completed :
  ∀ self answers self' path,
    Pipeline.run_batch s self c completed = Ret (answers, self') →
    (∀ e, e ∈ completed → path ≠ blob_path c e target) →
    bucket self' !! path = bucket self !! path.
Proof.
  induction completed as [|e completed IH]; intros self answers self' path.
  - by intros [= _ <-].
  - rewrite run_batch_cons. intros ([ok self1] & He & Hrest)%bind_returns Hpath.
    cbn in Hrest. apply bind_returns in Hrest as ([answers1 self2] & Hrest & [= _ <-]).
    rewrite (IH _ _ _ _ Hrest) by (intros; apply Hpath; set_solver).
    destruct (process_event_reads (bucket self) c e) as (w & Hw).
    rewrite (Hw self) in He by done.
    destruct w; simplify_eq; cbn; [|done].
    apply lookup_insert_ne. symmetry. apply Hpath. set_solver.
Qed.


End Frame.

(** ** Failures of one event *)



(** X7.  [process_event] of each script reads nothing of the bucket but the two
    source objects of its event, and what it does is one of two things: it
    stores one object under the target name of the event and counts the
    event as processed, or it leaves the bucket as it is and counts an
    error. *)
Theorem process_event_frame `{L : ImageLib} (fails : request → bool)
    (s : Pipeline.stages) (stem target : string) (type : bytes → string)
    (b : gmap string object) (collection event_id : string) :
  (s, (stem, target, type)) ∈ script_layouts fails →
  ∃ written : option object,
    ∀ self,
      same_sources stem (bucket self) b collection event_id →
      Pipeline.process_event s self collection event_id
      = Ret (match written with
             | Some o =>
                 (true, count_processed self
                          (<[blob_path collection event_id target := o]> (bucket self)))
             | None => (false, count_error self)
             end).
Proof.
  intros Hin.
  assert (behave : stages_behave s).
  { apply (generator_scripts_behave fails), script_layouts_scripts. eauto. }
  destruct (script_layouts_layout _ _ _ _ _ Hin) as (layout & _).
  by apply (process_event_reads fails s stem target type behave layout).
Qed.

Lemma process_event_frame_witness :
  ∃ written : option object,
    ∀ self,
      same_sources "event_image" (bucket self) Sample.objects "events" "e1" →
      Thumbnails.process_event (L := Toy.lib) Sample.online self "events" "e1"
      = Ret (match written with
             | Some o =>
                 (true, count_processed self
                          (<[blob_path "events" "e1" "event_thumbnail.png" := o]>
                             (bucket self)))
             | None => (false, count_error self)
             end).
Proof.
  apply (process_event_frame (L := Toy.lib) Sample.online
           (Thumbnails.stages (L := Toy.lib) Sample.online)
           "event_image" "event_thumbnail.png" sniff Sample.objects "events" "e1").
  unfold script_layouts. left.
Defined.



(** X9.  A run changes no object but the targets of the events it takes; the
    sources it reads (the images for [generate_thumbnails.py], the thumbnails
    for the other scripts) are never written, whatever the collection and the
    event. *)
Theorem sources_are_kept `{L : ImageLib} (fails : request → bool)
    (s : Pipeline.stages) (stem target : string) (type : bytes → string)
    (self self' : generator) (events : list string)
    (schedule : list string → list string) (answers : list bool) :
  (s, (stem, target, type)) ∈ script_layouts fails →
  Pipeline.generate s self events schedule = Ret (answers, self') →
  (∀ path,
     (∀ e, e ∈ schedule events → path ≠ blob_path "events" e target) →
     bucket self' !! path = bucket self !! path) ∧
  (∀ collection event_id ext,
     ext ∈ [".png"; ".jpg"]%string →
     bucket self' !! blob_path collection event_id (stem +:+ ext)
     = bucket self !! blob_path collection event_id (stem +:+ ext)).
Proof.
  intros Hin Hrun.
  assert (behave : stages_behave s).
  { apply (generator_scripts_behave fails), script_layouts_scripts. eauto. }
  destruct (script_layouts_layout _ _ _ _ _ Hin) as (layout & Htarget & Hpng & Hjpg).
  assert (Hwrites : ∀ path,
            (∀ e, e ∈ schedule events → path ≠ blob_path "events" e target) →
            bucket self' !! path = bucket self !! path).
  { intros path Hpath. unfold Pipeline.generate in Hrun.
    destruct events as [|e events]; [by simplify_eq|].
    by eapply (run_batch_writes fails s stem target type); eauto. }
  split; [done|]. intros collection event_id ext Hext. apply Hwrites.
  intros e _ Heq. revert Hext. rewrite !elem_of_cons, elem_of_nil.
  intros [->|[->|[]]]; apply blob_path_filename in Heq; try done.
  - by destruct (layout_png _ _ _ _ _ layout).
  - by destruct (layout_jpg _ _ _ _ _ layout).
Qed.

Lemma sources_are_kept_witness :
  let s := Thumbnails.stages (L := Toy.lib) Sample.online in
  ∃ answers self',
    Pipeline.generate s (connect Sample.objects) ["e1"; "e3"]%string reverse
    = Ret (answers, self') ∧
    bucket self' !! blob_path "events" "e1" ("event_image" +:+ ".png")
    = Sample.objects !! blob_path "events" "e1" ("event_image" +:+ ".png").
Proof.
  intros s.
  assert (Hs : s ∈ generator_scripts (L := Toy.lib) Sample.online) by left.
  assert (Hin : (s, ("event_image", "event_thumbnail.png", sniff)%string)
                ∈ script_layouts (L := Toy.lib) Sample.online) by left.
  destruct (generate_counts s (generator_scripts_behave Sample.online s Hs)
              (connect Sample.objects) ["e1"; "e3"]%string reverse
              (reverse_Permutation (A := string)))
    as (answers & self' & Hrun & _).
  exists answers, self'. split; [exact Hrun|].
  apply (proj2 (sources_are_kept (L := Toy.lib) Sample.online s "event_image"
                  "event_thumbnail.png" sniff (connect Sample.objects) self'
                  ["e1"; "e3"]%string reverse answers Hin Hrun) "events" "e1" ".png"%string).
  left.
Defined.

(** X10.  An event that is processed a second time, as it is when the selection
    lists it twice, gets the same answer; the object stored the first time is
    stored again, so that the bucket stays as it was after the first time,
    and the event is counted a second time. *)
Theorem process_event_twice `{L : ImageLib} (fails : request → bool)
    (s : Pipeline.stages) (stem target : string) (type : bytes → string)
    (self self1 : generator) (collection event_id : string) (ok : bool) :
  (s, (stem, target, type)) ∈ script_layouts fails →
  Pipeline.process_event s self collection event_id = Ret (ok, self1) →
  ∃ self2,
    Pipeline.process_event s self1 collection event_id = Ret (ok, self2) ∧
    bucket self2 = bucket self1 ∧
    processed_count self2 = processed_count self1 + (if ok then 1 else 0) ∧
    error_count self2 = error_count self1 + (if ok then 0 else 1).
Proof.
  intros Hin Hfirst.
  assert (behave : stages_behave s).
  { apply (generator_scripts_behave fails), script_layouts_scripts. eauto. }
  destruct (script_layouts_layout _ _ _ _ _ Hin) as (layout & Htarget & Hpng & Hjpg).
  destruct (process_event_reads fails s stem target type behave layout
              (bucket self) collection event_id) as (written & Hwritten).
  rewrite (Hwritten self) in Hfirst by done.
  assert (Hsame : same_sources stem (bucket self1) (bucket self) collection event_id).
  { destruct written; simplify_eq; cbn; [|done].
    by eapply same_sources_insert. }
  rewrite (Hwritten self1 Hsame).
  destruct written as [o|]; simplify_eq; cbn.
  - eexists. split; [done|]. cbn. rewrite insert_insert_eq. split; [done|lia].
  - eexists. split; [done|]. cbn. split; [done|lia].
Qed.

Lemma process_event_twice_witness :
  let self1 :=
    count_processed (connect Sample.objects)
      (<["events/e1/event_thumbnail.png"%string :=
           {| data := Toy.png (Toy.rgb 400 300); content_type := "image/png" |}]>
         Sample.objects) in
  Thumbnails.process_event (L := Toy.lib) Sample.online (connect Sample.objects)
                           "events" "e1" = Ret (true, self1) ∧
  ∃ self2,
    Thumbnails.process_event (L := Toy.lib) Sample.online self1 "events" "e1"
    = Ret (true, self2) ∧
    bucket self2 = bucket self1 ∧
    processed_count self2 = processed_count self1 + 1 ∧
    error_count self2 = error_count self1 + 0.
Proof.
  intros self1.
  assert (Hfirst : Thumbnails.process_event (L := Toy.lib) Sample.online
                     (connect Sample.objects) "events" "e1" = Ret (true, self1))
    by (vm_compute; reflexivity).
  split; [exact Hfirst|].
  apply (process_event_twice (L := Toy.lib) Sample.online
           (Thumbnails.stages (L := Toy.lib) Sample.online)
           "event_image" "event_thumbnail.png" sniff (connect Sample.objects) self1
           "events" "e1" true); [left|exact Hfirst].
Defined.

(** ** The selection of [generate_missing_images_limited.py] *)

Lemma dict_get_fmap {V W} (f : V → W) k (d : list (string * V)) :
  dict_get k (prod_map id f <$> d) = f <$> dict_get k d.
Proof.
  induction d as [|[k' v] d IH]; [done|]. cbn. by case_decide.
Qed.

Lemma dict_set_fmap {V W} (f : V → W) k v (d : list (string * V)) :
  dict_set k (f v) (prod_map id f <$> d) = prod_map id f <$> dict_set k v d.
Proof.
  induction d as [|[k' v'] d IH]; [done|]. cbn. case_decide; [done|].
  cbn. by rewrite IH.
Qed.

Lemma dict_keys_fmap {V W} (f : V → W) (d : list (string * V)) :
  (prod_map id f <$> d).*1 = d.*1.
Proof. induction d as [|[k v] d IH]; [done|]. cbn. by rewrite IH. Qed.

(** Without the dates, the scan of the limited script is the scan of
    [generate_thumbnails.py]. *)
Lemma limited_record_blob events b :
  prod_map id flags <$> Limited.record_blob events b
  = Thumbnails.record_blob (prod_map id flags <$> events) (name b).
Proof.
  unfold Limited.record_blob, Thumbnails.record_blob.
  case_decide; [|done].
  destruct (split_slash (name b)) as [|? [|event_id [|filename ?]]]; try done.
  rewrite !dict_get_fmap.
  destruct (dict_get event_id events) as [entry|] eqn:Hget; cbn.
  - rewrite !dict_get_fmap, Hget. cbn.
    repeat case_decide; try done.
    + by rewrite <- dict_set_fmap.
    + rewrite <- dict_set_fmap. f_equal. unfold Limited.dated.
      by destruct (reload_time_created b) as [[?|]|].
  - change Thumbnails.fresh with (flags Limited.fresh).
    rewrite !dict_set_fmap, !dict_get_fmap, !dict_get_set_eq. cbn.
    repeat case_decide; try done.
    + by rewrite <- dict_set_fmap.
    + rewrite <- dict_set_fmap. f_equal. unfold Limited.dated.
      by destruct (reload_time_created b) as [[?|]|].
Qed.

Lemma limited_scan_from events blobs :
  prod_map id flags <$> Limited.scan_from events blobs
  = Thumbnails.scan_from (prod_map id flags <$> events) (name <$> blobs).
Proof.
  revert events. induction blobs as [|b blobs IH]; intros events; [done|].
  cbn. by rewrite IH, limited_record_blob.
Qed.

Lemma limited_scan_NoDup blobs : NoDup (Limited.scan_from [] blobs).*1.
Proof.
  rewrite <- (dict_keys_fmap flags), limited_scan_from.
  apply scan_from_NoDup, NoDup_nil_2.
Qed.

Lemma candidates_keys events : (Limited.candidates events).*1 `sublist_of` events.*1.
Proof.
  induction events as [|[event_id entry] events IH]; [done|]. cbn.
  destruct (Limited.thumbnail_date entry); [|by constructor].
  destruct (_ && _); cbn; by constructor.
Qed.

Lemma slice_to_sublist {A} (l : list A) (stop : Z) : Limited.slice_to l stop `sublist_of` l.
Proof. unfold Limited.slice_to. case_decide; apply sublist_take. Qed.

Lemma select_NoDup (events_with_dates : list (string * Limited.date)) max_events :
  NoDup events_with_dates.*1 → NoDup (Limited.select events_with_dates max_events).
Proof.
  intros Hnodup. unfold Limited.select.
  eapply sublist_NoDup; [done|apply fmap_sublist, slice_to_sublist].
Qed.

(** The answer of the limited script: nothing when the sort raises, the
    slice of the sorted candidates when it returns. *)
Lemma limited_selection_cases blobs max_events :
  let candidates := Limited.candidates (Limited.scan_from [] blobs) in
  (Limited.sort_newest_first candidates = None ∧
   Limited.get_events_needing_images (Some blobs) max_events = []) ∨
  ∃ newest_first,
    Limited.sort_newest_first candidates = Some newest_first ∧
    Limited.get_events_needing_images (Some blobs) max_events
    = Limited.select newest_first max_events.
Proof.
  intros candidates. unfold Limited.get_events_needing_images. fold candidates.
  destruct (Limited.sort_newest_first candidates) as [newest_first|]; [right|by left].
  exists newest_first. split; [done|].
  destruct (Limited.date_range_defined newest_first max_events) eqn:Hrange; [done|].
  unfold Limited.date_range_defined in Hrange.
  destruct newest_first as [|x l]; [done|].
  unfold Limited.index_defined in Hrange. apply bool_decide_eq_false in Hrange.
  unfold Limited.select, Limited.slice_to. unfold len in *. cbn [length] in *.
  case_decide; [lia|]. by replace (Z.to_nat _) with 0%nat by lia.
Qed.

Lemma limited_selection_thumbnail_only blobs max_events event_id :
  event_id ∈ Limited.get_events_needing_images (Some blobs) max_events →
  classify (name <$> blobs) event_id
  = Some {| Thumbnails.has_image := false; Thumbnails.has_thumbnail := true |}.
Proof.
  destruct (limited_selection_cases blobs max_events)
    as [[_ ->]|(newest_first & Hsort & ->)]; [by intros []%elem_of_nil|].
  unfold Limited.select. intros ([e date] & -> & Hin)%list_elem_of_fmap. cbn.
  assert (Hcandidate : (e, date) ∈ Limited.candidates (Limited.scan_from [] blobs)).
  { rewrite <- (sort_newest_first_perm _ _ Hsort).
    eapply elem_of_sublist; [done|apply slice_to_sublist]. }
  apply candidates_spec in Hcandidate as (entry & Hentry & Hthumbnail & Himage & _).
  rewrite <- scan_classify. unfold Thumbnails.scan.
  change [] with (prod_map id flags <$> @nil (string * Limited.files)).
  rewrite <- limited_scan_from, dict_get_fmap.
  apply (dict_get_elem_of _ _ _ (limited_scan_NoDup blobs)) in Hentry as ->.
  cbn. unfold flags. by rewrite Hthumbnail, Himage.
Qed.

Lemma limited_selection_NoDup blobs max_events :
  NoDup (Limited.get_events_needing_images (Some blobs) max_events).
Proof.
  destruct (limited_selection_cases blobs max_events)
    as [[_ ->]|(newest_first & Hsort & ->)]; [apply NoDup_nil_2|].
  apply select_NoDup. rewrite (sort_newest_first_perm _ _ Hsort).
  eapply sublist_NoDup; [apply limited_scan_NoDup|apply candidates_keys].
Qed.

(** X11.  The answer of the limited script for every cap, also a negative one.
    When the sort of the candidates raises, the answer is the empty list.
    When it returns, the answer is the slice [[:max_events]] of the
    candidates, newest first: the index error of the logged date range
    arises only when that slice is empty, so that answering it by the empty
    list changes nothing, and a cap [-k] drops the [k] oldest candidates.  No
    event is selected twice. *)
Theorem limited_cap (blobs : list blob) (max_events : Z) :
  let candidates := Limited.candidates (Limited.scan_from [] blobs) in
  let answer := Limited.get_events_needing_images (Some blobs) max_events in
  match Limited.sort_newest_first candidates with
  | Some newest_first =>
      answer = (Limited.slice_to newest_first max_events).*1 ∧
      len answer = (if decide (0 ≤ max_events) then Z.min max_events (len candidates)
                    else Z.max 0 (len candidates + max_events))
  | None => answer = []
  end ∧
  NoDup answer.
Proof.
  intros candidates answer. split; [|apply limited_selection_NoDup].
  destruct (limited_selection_cases blobs max_events)
    as [[Hsort Hanswer]|(newest_first & Hsort & Hanswer)];
    fold candidates in Hsort; fold answer in Hanswer; rewrite Hsort; [done|].
  split; [done|]. rewrite Hanswer.
  pose proof (Permutation_length (sort_newest_first_perm _ _ Hsort)) as Hlen.
  unfold Limited.select, len, Limited.slice_to.
  rewrite length_fmap. case_decide; rewrite length_take; unfold len; lia.
Qed.

(** X12.  Every event that the limited script selects is listed with a thumbnail
    and without an image. *)
Theorem limited_selects_thumbnail_only (blobs : list blob) (max_events : Z)
    (event_id : string) :
  event_id ∈ Limited.get_events_needing_images (Some blobs) max_events →
  classify (name <$> blobs) event_id
  = Some {| Thumbnails.has_image := false; Thumbnails.has_thumbnail := true |}.
Proof.
  apply limited_selection_thumbnail_only.
Qed.

(** The listing whose dates all carry a time zone: [e2] is one of the two
    newest candidates.  *)
Lemma limited_selects_thumbnail_only_witness :
  Limited.get_events_needing_images (Some Sample.dated) 2 = ["e2"; "e3"]%string ∧
  "e2"%string ∈ Limited.get_events_needing_images (Some Sample.dated) 2 ∧
  classify (name <$> Sample.dated) "e2"
  = Some {| Thumbnails.has_image := false; Thumbnails.has_thumbnail := true |}.
Proof.
  assert (Hanswer : Limited.get_events_needing_images (Some Sample.dated) 2
                    = ["e2"; "e3"]%string) by (vm_compute; reflexivity).
  assert (Hin : "e2"%string ∈ Limited.get_events_needing_images (Some Sample.dated) 2)
    by (rewrite Hanswer; left).
  split; [exact Hanswer|]. split; [exact Hin|].
  exact (limited_selects_thumbnail_only Sample.dated 2 "e2" Hin).
Defined.

(** ** The selection of [generate_missing_images.py] *)

Lemma record_blob_short events blob_name :
  event_and_file blob_name = None → Thumbnails.record_blob events blob_name = events.
Proof.
  rewrite event_and_file_segments. unfold Thumbnails.record_blob.
  destruct (split_slash blob_name) as [|? [|? [|? ?]]]; try done;
    by case_decide.
Qed.

Lemma window_scan_cons cutoff b blobs events recent_events :
  Window.scan_from cutoff (b :: blobs) events recent_events
  = recent_events ←
      match event_and_file (name b) with
      | Some (event_id, filename) =>
          if decide (filename ∈ thumbnail_names)
          then Window.note_recent cutoff recent_events event_id b
          else Some recent_events
      | None => Some recent_events
      end;
    Window.scan_from cutoff blobs (Thumbnails.record_blob events (name b)) recent_events.
Proof.
  destruct (event_and_file (name b)) as [[event_id filename]|] eqn:Hname.
  - rewrite event_and_file_segments in Hname. cbn.
    destruct (split_slash (name b)) as [|? [|? [|? ?]]]; try done.
    simplify_eq. case_decide; [done|]. unfold len in *. cbn in *. lia.
  - rewrite record_blob_short by done.
    rewrite event_and_file_segments in Hname. cbn.
    destruct (split_slash (name b)) as [|? [|? [|? ?]]]; try done; by case_decide.
Qed.

Lemma note_recent_spec cutoff recent_events event_id b recent_events' :
  Window.note_recent cutoff recent_events event_id b = Some recent_events' →
  ∀ e, e ∈ recent_events' ↔
       e ∈ recent_events ∨
       (e = event_id ∧ ∃ time, reload_time_created b = Some (Some time) ∧ cutoff ≤ time).
Proof.
  unfold Window.note_recent.
  destruct (reload_time_created b) as [[time|]|]; cbn; [| |done].
  - case_decide; intros [= <-] e.
    + rewrite elem_of_union, elem_of_singleton. split.
      * intros [->|?]; [right|by left]. split; [done|]. by exists time.
      * intros [?|[-> _]]; [by right|by left].
    + split; [by left|]. intros [?|(_ & time' & [= <-] & ?)]; [done|lia].
  - intros [= <-] e. split; [by left|]. by intros [?|(_ & ? & [=] & _)].
Qed.

Lemma window_scan_spec cutoff blobs :
  ∀ events recent_events events' recent_events',
    Window.scan_from cutoff blobs events recent_events = Some (events', recent_events') →
    events' = Thumbnails.scan_from events (name <$> blobs) ∧
    ∀ e, e ∈ recent_events' ↔
         e ∈ recent_events ∨
         ∃ b time, b ∈ blobs ∧ thumbnail_of e b ∧
                   reload_time_created b = Some (Some time) ∧ cutoff ≤ time.
Proof.
  induction blobs as [|b blobs IH]; intros events recent_events events' recent_events'.
  - intros [= <- <-]. split; [done|]. intros e. split; [by left|].
    by intros [?|(? & ? & []%elem_of_nil & _)].
  - rewrite window_scan_cons. intros (recent1 & Hnote & Hscan)%bind_Some.
    apply IH in Hscan as [-> Hrecent]. split; [done|]. intros e. rewrite Hrecent.
    destruct (event_and_file (name b)) as [[event_id filename]|] eqn:Hname.
    + case_decide as Hthumbnail.
      * rewrite (note_recent_spec _ _ _ _ _ Hnote). split.
        -- intros [[?|(-> & time & ? & ?)]|(b' & time & ? & ?)].
           ++ by left.
           ++ right. exists b, time. split; [by left|]. split; [by exists filename|done].
           ++ right. exists b', time. split; [by right|done].
        -- intros [?|(b' & time & [->|?]%elem_of_cons & Hof & ? & ?)].
           ++ by left; left.
           ++ left. right. destruct Hof as (f & Hf & _). split; [congruence|eauto].
           ++ right. by exists b', time.
      * simplify_eq. split.
        -- intros [?|(b' & time & ? & ?)]; [by left|].
           right. exists b', time. split; [by right|done].
        -- intros [?|(b' & time & [->|?]%elem_of_cons & Hof & ? & ?)]; [by left| |].
           ++ destruct Hof as (f & Hf & ?). congruence.
           ++ right. by exists b', time.
    + simplify_eq. split.
      * intros [?|(b' & time & ? & ?)]; [by left|].
        right. exists b', time. split; [by right|done].
      * intros [?|(b' & time & [->|?]%elem_of_cons & Hof & ? & ?)]; [by left| |].
        -- destruct Hof as (f & Hf & ?). congruence.
        -- right. by exists b', time.
Qed.

Lemma window_scan_raises cutoff blobs :
  ∀ events recent_events,
    Window.scan_from cutoff blobs events recent_events = None ↔
    ∃ b e, b ∈ blobs ∧ thumbnail_of e b ∧ reload_time_created b = None.
Proof.
  induction blobs as [|b blobs IH]; intros events recent_events.
  - split; [done|]. by intros (? & ? & []%elem_of_nil & _).
  - rewrite window_scan_cons.
    destruct (event_and_file (name b)) as [[event_id filename]|] eqn:Hname; cbn.
    + case_decide as Hthumbnail; cbn.
      * unfold Window.note_recent.
        destruct (reload_time_created b) as [created|] eqn:Hreload; cbn.
        -- assert (∃ r, match created with
                        | Some time =>
                            if decide (cutoff ≤ time)
                            then Some ({[event_id]} ∪ recent_events) else Some recent_events
                        | None => Some recent_events
                        end = Some r) as (r & ->)
             by (destruct created; [case_decide|]; eauto).
           cbn. rewrite IH. split.
           ++ intros (b' & e & ? & ?). exists b', e. split; [by right|done].
           ++ intros (b' & e & [->|?]%elem_of_cons & ? & ?); [congruence|].
              by exists b', e.
        -- split; [|done]. intros _. exists b, event_id. split; [by left|].
           split; [by exists filename|done].
      * rewrite IH. split.
        -- intros (b' & e & ? & ?). exists b', e. split; [by right|done].
        -- intros (b' & e & [->|?]%elem_of_cons & Hof & ?); [|by exists b', e].
           destruct Hof as (f & Hf & ?). congruence.
    + rewrite IH. split.
      * intros (b' & e & ? & ?). exists b', e. split; [by right|done].
      * intros (b' & e & [->|?]%elem_of_cons & Hof & ?); [|by exists b', e].
        destruct Hof as (f & Hf & ?). congruence.
Qed.

Lemma cutoff_date_spec now months_back :
  let days := months_back * 30 in
  let cutoff := now - days * 86400 in
  Window.cutoff_date now months_back
  = if decide ((-999999999 ≤ days ≤ 999999999)
               ∧ Window.datetime_min ≤ cutoff ≤ Window.datetime_max)
    then Some cutoff else None.
Proof.
  unfold Window.cutoff_date, Window.timedelta. cbn zeta.
  destruct (decide (-999999999 ≤ months_back * 30 ≤ 999999999)); cbn.
  - repeat case_decide; first [done|tauto].
  - rewrite decide_False by tauto. done.
Qed.

(** X13.  [generate_missing_images.py] computes its cutoff date before its [try]
    block: when [months_back * 30] is no number of days of a [timedelta], or
    the date that many days before now is no [datetime], the [OverflowError]
    leaves [get_events_needing_images].  Otherwise the function returns.  It
    reloads every thumbnail blob without a guard: one blob whose metadata
    cannot be loaded empties the selection.  When every reload succeeds, the
    events selected are those listed with a thumbnail and without an image,
    one of whose thumbnails was created at the cutoff date or later. *)
Theorem window_selection (now months_back : Z) (blobs : list blob) :
  let days := months_back * 30 in
  (Window.cutoff_date now months_back = None ↔
   ¬ (-999999999 ≤ days ≤ 999999999
      ∧ Window.datetime_min ≤ now - days * 86400 ≤ Window.datetime_max)) ∧
  (Window.cutoff_date now months_back = None →
   ∀ listing, Window.get_events_needing_images now months_back listing = Raise) ∧
  (∀ cutoff,
     Window.cutoff_date now months_back = Some cutoff →
     cutoff = now - days * 86400 ∧
     Window.get_events_needing_images now months_back None = Ret [] ∧
     ((∃ b e, b ∈ blobs ∧ thumbnail_of e b ∧ reload_time_created b = None) →
      Window.get_events_needing_images now months_back (Some blobs) = Ret []) ∧
     ((∀ b e, b ∈ blobs → thumbnail_of e b → is_Some (reload_time_created b)) →
      ∃ selection,
        Window.get_events_needing_images now months_back (Some blobs) = Ret selection ∧
        ∀ event_id,
          event_id ∈ selection ↔
          classify (name <$> blobs) event_id
          = Some {| Thumbnails.has_image := false; Thumbnails.has_thumbnail := true |} ∧
          ∃ b time, b ∈ blobs ∧ thumbnail_of event_id b ∧
                    reload_time_created b = Some (Some time) ∧ cutoff ≤ time)).
Proof.
  intros days. pose proof (cutoff_date_spec now months_back) as Hcutoff.
  cbn zeta in Hcutoff. fold days in Hcutoff. split_and!.
  - rewrite Hcutoff. case_decide; split; first [done|tauto].
  - intros Hnone listing. unfold Window.get_events_needing_images. by rewrite Hnone.
  - intros cutoff Hsome. unfold Window.get_events_needing_images. rewrite Hsome.
    split; [rewrite Hcutoff in Hsome; case_decide; congruence|].
    split; [done|]. cbn. split.
    + intros Hraises. by apply (window_scan_raises cutoff blobs [] ∅) in Hraises as ->.
    + intros Hreloads.
      destruct (Window.scan_from cutoff blobs [] ∅) as [[events recent_events]|] eqn:Hscan;
        cycle 1.
      { apply window_scan_raises in Hscan as (b & e & Hin & Hof & Hnone).
        destruct (Hreloads b e Hin Hof) as [? ?]. congruence. }
      eexists. split; [done|]. intros event_id.
      apply window_scan_spec in Hscan as [-> Hrecent].
      rewrite <- scan_classify. unfold Thumbnails.scan.
      pose proof (scan_from_NoDup [] (name <$> blobs) NoDup_nil_2) as Hnodup.
      rewrite list_elem_of_fmap. split.
      * intros ([e entry] & -> & Hfilter).
        apply list_elem_of_filter in Hfilter as [(Hin & Hthumbnail & Himage) Hentry].
        cbn in *. apply (dict_get_elem_of _ _ _ Hnodup) in Hentry. rewrite Hentry.
        split; [by destruct entry; cbn in *; subst|].
        apply Hrecent in Hin as [[]%elem_of_empty|Hb]. exact Hb.
      * intros (Hentry & Hin).
        exists (event_id, {| Thumbnails.has_image := false;
                             Thumbnails.has_thumbnail := true |}). split; [done|].
        apply list_elem_of_filter. split.
        -- cbn. split; [|done]. apply Hrecent. by right.
        -- by apply (dict_get_elem_of _ _ _ Hnodup).
Qed.

(** Three months back the cutoff is a date, and the blob of the sample listing
    whose reload raises empties the selection; thirty thousand months back
    there is no such date, and the function raises. *)
Lemma window_selection_witness :
  Window.cutoff_date 1700000500 3 = Some 1692224500 ∧
  (∃ b e, b ∈ Sample.thumbnails ∧ thumbnail_of e b ∧ reload_time_created b = None) ∧
  Window.get_events_needing_images 1700000500 3 (Some Sample.thumbnails) = Ret [] ∧
  Window.cutoff_date 1700000500 30000 = None ∧
  Window.get_events_needing_images 1700000500 30000 (Some Sample.thumbnails) = Raise.
Proof.
  assert (Hcutoff : Window.cutoff_date 1700000500 3 = Some 1692224500)
    by (vm_compute; reflexivity).
  assert (Hraises : ∃ b e, b ∈ Sample.thumbnails ∧ thumbnail_of e b ∧
                           reload_time_created b = None).
  { exists {| name := "events/e5/event_thumbnail.png"; reload_time_created := None |},
      "e5"%string.
    split; [do 5 right; left|]. split; [|reflexivity].
    exists "event_thumbnail.png"%string. split; [reflexivity|left]. }
  assert (Hnone : Window.cutoff_date 1700000500 30000 = None)
    by (vm_compute; reflexivity).
  split; [exact Hcutoff|]. split; [exact Hraises|]. split.
  - exact (proj1 (proj2 (proj2 (proj2 (proj2 (window_selection 1700000500 3
             Sample.thumbnails)) 1692224500 Hcutoff))) Hraises).
  - split; [exact Hnone|].
    exact (proj1 (proj2 (window_selection 1700000500 30000 Sample.thumbnails)) Hnone
             (Some Sample.thumbnails)).
Defined.

(** ** The selections of the recent and simple scripts *)

Section Capped_scans.
Context (fails : request → bool) (b : gmap string object) (collection : string).

Lemma recent_scan_cons max_events blob_name blob_names found checked found_count :
  Recent_scan.scan_from fails b collection max_events (blob_name :: blob_names)
                        found checked found_count
  = if decide (max_events ≤ found_count) then found
    else
      match event_and_file blob_name with
      | Some (event_id, filename) =>
          if decide (event_id ∈ checked) then
            Recent_scan.scan_from fails b collection max_events blob_names
                                  found checked found_count
          else if decide (filename ∈ thumbnail_names) then
            if check_event_has_image fails b collection event_id then
              Recent_scan.scan_from fails b collection max_events blob_names
                                    found ({[event_id]} ∪ checked) found_count
            else
              Recent_scan.scan_from fails b collection max_events blob_names
                                    (found ++ [event_id]) ({[event_id]} ∪ checked)
                                    (found_count + 1)
          else
            Recent_scan.scan_from fails b collection max_events blob_names
                                  found checked found_count
      | None =>
          Recent_scan.scan_from fails b collection max_events blob_names
                                found checked found_count
      end.
Proof.
  cbn. case_decide; [done|]. rewrite event_and_file_segments.
  destruct (split_slash blob_name) as [|? [|? [|? ?]]]; try done; try by case_decide.
  destruct (decide (3 ≤ len (_ :: _ :: _ :: _))) as [_|Hlen]; [done|].
  unfold len in Hlen. cbn in Hlen. lia.
Qed.

Lemma simple_scan_cons max_events blob_name blob_names events found :
  Simple_scan.scan_from fails b collection max_events (blob_name :: blob_names)
                        events found
  = if decide (max_events ≤ len found) then found
    else
      match event_and_file blob_name with
      | Some (event_id, filename) =>
          let seen :=
            Thumbnails.has_image (default Thumbnails.fresh (dict_get event_id events)) in
          if decide ((filename ∉ image_names) ∧ filename ∈ thumbnail_names) then
            if negb seen && negb (check_event_has_image fails b collection event_id) then
              Simple_scan.scan_from fails b collection max_events blob_names
                (Thumbnails.record_blob events blob_name) (found ++ [event_id])
            else
              Simple_scan.scan_from fails b collection max_events blob_names
                (Thumbnails.record_blob events blob_name) found
          else
            Simple_scan.scan_from fails b collection max_events blob_names
              (Thumbnails.record_blob events blob_name) found
      | None =>
          Simple_scan.scan_from fails b collection max_events blob_names events found
      end.
Proof.
  cbn. case_decide; [done|]. rewrite event_and_file_segments.
  unfold Thumbnails.record_blob.
  destruct (split_slash blob_name) as [|? [|event_id [|filename ?]]];
    try done; try by case_decide.
  destruct (decide (3 ≤ len (_ :: _ :: _ :: _))) as [_|Hlen];
    [|unfold len in Hlen; cbn in Hlen; lia].
  assert (Hentry : default Thumbnails.fresh
                     (dict_get event_id
                        match dict_get event_id events with
                        | Some _ => events
                        | None => dict_set event_id Thumbnails.fresh events
                        end)
                   = default Thumbnails.fresh (dict_get event_id events)).
  { destruct (dict_get event_id events) eqn:Hget; [by rewrite Hget|].
    by rewrite dict_get_set_eq. }
  cbn zeta. rewrite Hentry.
  destruct (decide (filename ∈ image_names)) as [Himage|Himage].
  - by rewrite decide_False by (by intros [? _]).
  - destruct (decide (filename ∈ thumbnail_names)) as [Hthumbnail|Hthumbnail].
    + by rewrite decide_True by done.
    + by rewrite decide_False by (by intros [_ ?]).
Qed.

(** What the loops have found stays found. *)
Lemma recent_scan_prefix max_events blob_names :
  ∀ found checked found_count,
    found `prefix_of`
      Recent_scan.scan_from fails b collection max_events blob_names
                            found checked found_count.
Proof.
  induction blob_names as [|blob_name blob_names IH]; intros found checked found_count;
    [done|].
  rewrite recent_scan_cons.
  repeat case_match; try done; try apply IH.
  etrans; [|apply IH]. by apply prefix_app_r.
Qed.

Lemma simple_scan_prefix max_events blob_names :
  ∀ events found,
    found `prefix_of`
      Simple_scan.scan_from fails b collection max_events blob_names events found.
Proof.
  induction blob_names as [|blob_name blob_names IH]; intros events found; [done|].
  rewrite simple_scan_cons. cbn zeta.
  repeat case_match; try done; try apply IH.
  etrans; [|apply IH]. by apply prefix_app_r.
Qed.

Lemma take_prefix_length {A} (l k : list A) (n : Z) :
  l `prefix_of` k → n = len l → take (Z.to_nat n) k = l.
Proof.
  intros [l' ->] ->. unfold len. rewrite Nat2Z.id. by rewrite take_app_length.
Qed.

Lemma recent_scan_cap max_events max_events' blob_names :
  max_events ≤ max_events' →
  ∀ found checked found_count,
    found_count = len found → found_count ≤ max_events →
    Recent_scan.scan_from fails b collection max_events blob_names
                          found checked found_count
    = take (Z.to_nat max_events)
           (Recent_scan.scan_from fails b collection max_events' blob_names
                                  found checked found_count).
Proof.
  intros Hcap.
  induction blob_names as [|blob_name blob_names IH]; intros found checked found_count
    Hcount Hle.
  - cbn. rewrite take_ge; [done|]. unfold len in *. lia.
  - destruct (decide (max_events ≤ found_count)) as [Hfull|Hroom].
    + assert (found_count = max_events) as -> by lia.
      rewrite (recent_scan_cons max_events), decide_True by done.
      symmetry. apply take_prefix_length; [apply recent_scan_prefix|done].
    + rewrite !recent_scan_cons, !decide_False by lia.
      repeat case_match; try (apply IH; [done|lia]).
      apply IH; [|lia]. unfold len in *. rewrite length_app. cbn. lia.
Qed.

Lemma simple_scan_cap max_events max_events' blob_names :
  max_events ≤ max_events' →
  ∀ events found,
    len found ≤ max_events →
    Simple_scan.scan_from fails b collection max_events blob_names events found
    = take (Z.to_nat max_events)
           (Simple_scan.scan_from fails b collection max_events' blob_names events found).
Proof.
  intros Hcap.
  induction blob_names as [|blob_name blob_names IH]; intros events found Hle.
  - cbn. rewrite take_ge; [done|]. unfold len in *. lia.
  - destruct (decide (max_events ≤ len found)) as [Hfull|Hroom].
    + rewrite (simple_scan_cons max_events), decide_True by done.
      symmetry. apply take_prefix_length; [apply simple_scan_prefix|lia].
    + rewrite !simple_scan_cons, !decide_False by lia. cbn zeta.
      repeat case_match; try (apply IH; lia).
      apply IH. unfold len in *. rewrite length_app. cbn. lia.
Qed.

End Capped_scans.

Lemma capped_scans_truncate (fails : request → bool) (b : gmap string object)
    (collection : string) (max_events max_events' : Z) (listing : option (list blob)) :
  max_events ≤ max_events' →
  Recent_scan.get_recent_events_needing_images fails b collection max_events listing
  = take (Z.to_nat max_events)
         (Recent_scan.get_recent_events_needing_images fails b collection max_events'
                                                       listing) ∧
  Simple_scan.get_events_needing_images fails b collection max_events listing
  = take (Z.to_nat max_events)
         (Simple_scan.get_events_needing_images fails b collection max_events' listing).
Proof.
  intros Hcap. destruct listing as [blobs|]; cbn; [|by rewrite take_nil].
  destruct (decide (0 ≤ max_events)) as [Hpos|Hneg].
  - split; [by apply recent_scan_cap|by apply simple_scan_cap].
  - replace (Z.to_nat max_events) with 0%nat by lia. cbn. split.
    + destruct (reverse (name <$> blobs)); [done|].
      by rewrite recent_scan_cons, decide_True by lia.
    + destruct (name <$> blobs); [done|].
      by rewrite simple_scan_cons, decide_True by (unfold len; cbn; lia).
Qed.

(** X14.  In both scripts the cap only truncates: what is selected under a cap is
    the beginning of what is selected under any larger cap, and a cap of zero
    or less selects nothing. *)
Theorem cap_only_truncates (fails : request → bool) (b : gmap string object)
    (collection : string) (max_events max_events' : Z) (listing : option (list blob)) :
  max_events ≤ max_events' →
  Recent_scan.get_recent_events_needing_images fails b collection max_events listing
  = take (Z.to_nat max_events)
         (Recent_scan.get_recent_events_needing_images fails b collection max_events'
                                                       listing) ∧
  Simple_scan.get_events_needing_images fails b collection max_events listing
  = take (Z.to_nat max_events)
         (Simple_scan.get_events_needing_images fails b collection max_events' listing).
Proof. apply capped_scans_truncate. Qed.

Lemma cap_only_truncates_witness :
  1 ≤ 3 ∧
  Recent_scan.get_recent_events_needing_images Sample.online ∅ "events" 3
    (Some Sample.thumbnails) = ["e5"; "e4"; "e3"]%string ∧
  Recent_scan.get_recent_events_needing_images Sample.online ∅ "events" 1
    (Some Sample.thumbnails)
  = take (Z.to_nat 1)
         (Recent_scan.get_recent_events_needing_images Sample.online ∅ "events" 3
            (Some Sample.thumbnails)).
Proof.
  assert (Hcap : 1 ≤ 3) by lia.
  split; [exact Hcap|]. split; [vm_compute; reflexivity|].
  exact (proj1 (cap_only_truncates Sample.online ∅ "events" 1 3
                  (Some Sample.thumbnails) Hcap)).
Defined.

Section Scan_invariants.
Context (fails : request → bool) (b : gmap string object) (collection : string)
        (max_events : Z).

Lemma recent_scan_sound blob_names :
  ∀ found checked found_count,
    NoDup found → (∀ e, e ∈ found → e ∈ checked) →
    let selected :=
      Recent_scan.scan_from fails b collection max_events blob_names
                            found checked found_count in
    NoDup selected ∧
    ∀ e, e ∈ selected →
         e ∈ found ∨
         (check_event_has_image fails b collection e = false ∧
          ∃ blob_name filename,
            blob_name ∈ blob_names ∧ event_and_file blob_name = Some (e, filename) ∧
            filename ∈ thumbnail_names).
Proof.
  induction blob_names as [|blob_name blob_names IH]; intros found checked found_count
    Hnodup Hchecked; cbn zeta.
  - cbn. split; [done|]. by left.
  - rewrite recent_scan_cons.
    assert (Hlater : ∀ found' checked' found_count',
              NoDup found' → (∀ e, e ∈ found' → e ∈ checked') →
              (∀ e, e ∈ found' →
                    e ∈ found ∨
                    (check_event_has_image fails b collection e = false ∧
                     ∃ filename, event_and_file blob_name = Some (e, filename) ∧
                                 filename ∈ thumbnail_names)) →
              let selected :=
                Recent_scan.scan_from fails b collection max_events blob_names
                                      found' checked' found_count' in
              NoDup selected ∧
              ∀ e, e ∈ selected →
                   e ∈ found ∨
                   (check_event_has_image fails b collection e = false ∧
                    ∃ blob_name' filename,
                      blob_name' ∈ blob_name :: blob_names ∧
                      event_and_file blob_name' = Some (e, filename) ∧
                      filename ∈ thumbnail_names)).
    { intros found' checked' found_count' Hnodup' Hchecked' Hfound'. cbn zeta.
      destruct (IH found' checked' found_count' Hnodup' Hchecked') as [Hsel Hin].
      split; [done|]. intros e [He|(Hcheck & n & f & ? & ? & ?)]%Hin.
      - destruct (Hfound' e He) as [?|(? & f & ? & ?)]; [by left|].
        right. split; [done|]. exists blob_name, f. split; [by left|done].
      - right. split; [done|]. exists n, f. split; [by right|done]. }
    case_decide; [split; [done|by left]|].
    destruct (event_and_file blob_name) as [[event_id filename]|] eqn:Hname;
      [|apply Hlater; auto].
    case_decide as Hseen; [apply Hlater; auto|].
    case_decide as Hthumbnail; [|apply Hlater; auto].
    destruct (check_event_has_image fails b collection event_id) eqn:Hcheck.
    + apply Hlater; [done| |by left]. intros e He. apply elem_of_union_r. auto.
    + apply Hlater.
      * apply NoDup_app. split; [done|]. split; [|apply NoDup_singleton].
        intros e He ->%list_elem_of_singleton. auto.
      * intros e [He| ->%list_elem_of_singleton]%elem_of_app.
        -- apply elem_of_union_r. auto.
        -- apply elem_of_union_l. by apply elem_of_singleton.
      * intros e [He| ->%list_elem_of_singleton]%elem_of_app; [by left|].
        right. split; [done|]. by exists filename.
Qed.

Lemma recent_scan_complete blob_names :
  ∀ found checked found_count,
    found_count = len found →
    let selected :=
      Recent_scan.scan_from fails b collection max_events blob_names
                            found checked found_count in
    len selected < max_events →
    ∀ e blob_name filename,
      blob_name ∈ blob_names → event_and_file blob_name = Some (e, filename) →
      filename ∈ thumbnail_names →
      check_event_has_image fails b collection e = false →
      e ∈ selected ∨ e ∈ checked.
Proof.
  induction blob_names as [|blob_name blob_names IH]; intros found checked found_count
    Hcount; cbn zeta.
  - by intros _ e n f []%elem_of_nil.
  - rewrite recent_scan_cons. case_decide as Hfull; [lia|].
    destruct (event_and_file blob_name) as [[event_id filename]|] eqn:Hname.
    + case_decide as Hseen.
      { intros Hlen e n f [->|Hin]%elem_of_cons Hn Hf Hcheck.
        - right. congruence.
        - by apply (IH found checked found_count Hcount Hlen e n f). }
      case_decide as Hthumbnail; cycle 1.
      { intros Hlen e n f [->|Hin]%elem_of_cons Hn Hf Hcheck.
        - congruence.
        - by apply (IH found checked found_count Hcount Hlen e n f). }
      destruct (check_event_has_image fails b collection event_id) eqn:Hevent.
      * intros Hlen e n f [->|Hin]%elem_of_cons Hn Hf Hcheck; [congruence|].
        destruct (IH found ({[event_id]} ∪ checked) found_count Hcount Hlen e n f)
          as [?|[->%elem_of_singleton|?]%elem_of_union]; auto. congruence.
      * intros Hlen e n f Hin Hn Hf Hcheck.
        assert (Hhead : event_id ∈ Recent_scan.scan_from fails b collection max_events
                          blob_names (found ++ [event_id]) ({[event_id]} ∪ checked)
                          (found_count + 1)).
        { eapply elem_of_prefix; [|apply recent_scan_prefix].
          apply elem_of_app. right. by apply list_elem_of_singleton. }
        apply elem_of_cons in Hin as [->|Hin]; [left; congruence|].
        assert (Hcount' : found_count + 1 = len (found ++ [event_id])).
        { unfold len in *. rewrite length_app. cbn. lia. }
        destruct (IH _ ({[event_id]} ∪ checked) _ Hcount' Hlen e n f)
          as [?|[->%elem_of_singleton|?]%elem_of_union]; auto.
    + intros Hlen e n f [->|Hin]%elem_of_cons Hn Hf Hcheck; [congruence|].
      by apply (IH found checked found_count Hcount Hlen e n f).
Qed.

Lemma simple_scan_sound blob_names :
  ∀ events found e,
    e ∈ Simple_scan.scan_from fails b collection max_events blob_names events found →
    e ∈ found ∨
    (check_event_has_image fails b collection e = false ∧
     ∃ blob_name filename,
       blob_name ∈ blob_names ∧ event_and_file blob_name = Some (e, filename) ∧
       filename ∈ thumbnail_names).
Proof.
  induction blob_names as [|blob_name blob_names IH]; intros events found e.
  - cbn. by left.
  - rewrite simple_scan_cons. cbn zeta.
    assert (Hlater : ∀ events',
              e ∈ Simple_scan.scan_from fails b collection max_events blob_names
                    events' found →
              e ∈ found ∨
              (check_event_has_image fails b collection e = false ∧
               ∃ blob_name' filename,
                 blob_name' ∈ blob_name :: blob_names ∧
                 event_and_file blob_name' = Some (e, filename) ∧
                 filename ∈ thumbnail_names)).
    { intros events' [?|(? & n & f & ? & ? & ?)]%IH; [by left|].
      right. split; [done|]. exists n, f. split; [by right|done]. }
    case_decide; [by left|].
    destruct (event_and_file blob_name) as [[event_id filename]|] eqn:Hname;
      [|apply Hlater].
    case_decide as Hthumbnail; [|apply Hlater].
    destruct (negb _ && negb _) eqn:Htake; [|apply Hlater].
    apply andb_true_iff in Htake as [_ Hcheck%negb_true_iff].
    intros [[?| ->%list_elem_of_singleton]%elem_of_app|(? & n & f & ? & ? & ?)]%IH.
    + by left.
    + right. split; [done|]. exists blob_name, filename.
      split; [by left|]. by destruct Hthumbnail.
    + right. split; [done|]. exists n, f. split; [by right|done].
Qed.

End Scan_invariants.

(** X15.  The selection of [generate_missing_images_recent.py]: no event twice, at
    most [max_events] events, each one listed with a thumbnail and without an
    image according to [check_event_has_image]; when the cap is not reached,
    every such event is selected. *)
Theorem recent_selection (fails : request → bool) (b : gmap string object)
    (collection : string) (max_events : Z) (blobs : list blob) :
  let selected :=
    Recent_scan.get_recent_events_needing_images fails b collection max_events
                                                 (Some blobs) in
  let needs_image event_id :=
    check_event_has_image fails b collection event_id = false ∧
    ∃ blob, blob ∈ blobs ∧ thumbnail_of event_id blob in
  NoDup selected ∧
  len selected ≤ Z.max 0 max_events ∧
  (∀ event_id, event_id ∈ selected → needs_image event_id) ∧
  (len selected < max_events → ∀ event_id, needs_image event_id → event_id ∈ selected).
Proof.
  intros selected needs_image. unfold selected, needs_image. cbn.
  destruct (recent_scan_sound fails b collection max_events (reverse (name <$> blobs))
              [] ∅ 0 (NoDup_nil_2) ltac:(by intros ? ?%elem_of_nil)) as [Hnodup Hsound].
  split; [done|]. split; [|split].
  - destruct (capped_scans_truncate fails b collection max_events max_events (Some blobs))
      as [Hcap _]; [done|].
    cbn in Hcap. rewrite Hcap. unfold len. rewrite length_take. lia.
  - intros e [[]%elem_of_nil|(Hcheck & n & f & Hin & Hn & Hf)]%Hsound.
    split; [done|].
    apply elem_of_reverse, list_elem_of_fmap in Hin as (blob & -> & Hin).
    exists blob. split; [done|]. by exists f.
  - intros Hlen e (Hcheck & blob & Hin & f & Hn & Hf).
    destruct (recent_scan_complete fails b collection max_events
                (reverse (name <$> blobs)) [] ∅ 0 eq_refl Hlen e (name blob) f)
      as [?|[]%elem_of_empty]; try done.
    apply elem_of_reverse, list_elem_of_fmap. by exists blob.
Qed.

Lemma recent_selection_witness :
  let selected :=
    Recent_scan.get_recent_events_needing_images Sample.online ∅ "events" 3
                                                 (Some Sample.thumbnails) in
  "e3"%string ∈ selected ∧
  check_event_has_image Sample.online ∅ "events" "e3" = false ∧
  ∃ blob, blob ∈ Sample.thumbnails ∧ thumbnail_of "e3" blob.
Proof.
  intros selected.
  assert (Hin : "e3"%string ∈ selected) by (vm_compute; right; right; left).
  split; [exact Hin|].
  exact (proj1 (proj2 (proj2 (recent_selection Sample.online ∅ "events" 3
                                Sample.thumbnails))) "e3"%string Hin).
Defined.

(** X16.  The selection of [generate_missing_images_simple.py]: at most
    [max_events] events, each one listed with a thumbnail and without an
    image according to [check_event_has_image]. *)
Theorem simple_selection (fails : request → bool) (b : gmap string object)
    (collection : string) (max_events : Z) (blobs : list blob) :
  let selected :=
    Simple_scan.get_events_needing_images fails b collection max_events (Some blobs) in
  len selected ≤ Z.max 0 max_events ∧
  ∀ event_id,
    event_id ∈ selected →
    check_event_has_image fails b collection event_id = false ∧
    ∃ blob, blob ∈ blobs ∧ thumbnail_of event_id blob.
Proof.
  intros selected. unfold selected. split.
  - destruct (capped_scans_truncate fails b collection max_events max_events (Some blobs))
      as [_ Hcap]; [done|].
    rewrite Hcap. unfold len. rewrite length_take. lia.
  - cbn. intros e [[]%elem_of_nil|(Hcheck & n & f & Hin & Hn & Hf)]%simple_scan_sound.
    split; [done|]. apply list_elem_of_fmap in Hin as (blob & -> & Hin).
    exists blob. split; [done|]. by exists f.
Qed.

Lemma simple_selection_witness :
  let selected :=
    Simple_scan.get_events_needing_images Sample.online ∅ "events" 3
                                          (Some Sample.thumbnails) in
  "e2"%string ∈ selected ∧
  check_event_has_image Sample.online ∅ "events" "e2" = false ∧
  ∃ blob, blob ∈ Sample.thumbnails ∧ thumbnail_of "e2" blob.
Proof.
  intros selected.
  assert (Hin : "e2"%string ∈ selected) by (vm_compute; right; left).
  split; [exact Hin|].
  exact (proj2 (simple_selection Sample.online ∅ "events" 3 Sample.thumbnails)
           "e2"%string Hin).
Defined.

Lemma thumbnail_name_no_image filename :
  filename ∈ thumbnail_names → filename ∉ image_names.
Proof.
  unfold thumbnail_names, image_names. rewrite !elem_of_cons, !elem_of_nil.
  by intros [->|[->|[]]] [?|[?|[]]].
Qed.

(** X17.  An event without an image that is listed with both thumbnail files is
    selected twice by the simple script, which takes an event at each of its
    thumbnails, and once by the recent script, which remembers the events it
    has checked. *)
Theorem both_thumbnails_selected_twice (fails : request → bool) (b : gmap string object)
    (collection event_id : string) (max_events : Z) (jpg png : blob) :
  slash_free collection = true →
  slash_free event_id = true →
  name jpg = blob_path collection event_id "event_thumbnail.jpg" →
  name png = blob_path collection event_id "event_thumbnail.png" →
  check_event_has_image fails b collection event_id = false →
  2 ≤ max_events →
  Simple_scan.get_events_needing_images fails b collection max_events (Some [jpg; png])
  = [event_id; event_id] ∧
  Recent_scan.get_recent_events_needing_images fails b collection max_events
                                               (Some [jpg; png])
  = [event_id].
Proof.
  intros Hc He Hjpg Hpng Hcheck Hcap.
  assert (Hjpg' : event_and_file (name jpg) = Some (event_id, "event_thumbnail.jpg"%string))
    by (rewrite Hjpg; by apply blob_path_segments).
  assert (Hpng' : event_and_file (name png) = Some (event_id, "event_thumbnail.png"%string))
    by (rewrite Hpng; by apply blob_path_segments).
  split.
  - cbn -[Simple_scan.scan_from]. rewrite simple_scan_cons, Hjpg'.
    rewrite decide_False by (unfold len; cbn; lia). cbn zeta.
    rewrite decide_True by (split; [apply thumbnail_name_no_image|]; right; left).
    rewrite Hcheck. cbn -[Simple_scan.scan_from].
    rewrite simple_scan_cons, Hpng'.
    rewrite decide_False by (unfold len; cbn; lia). cbn zeta.
    rewrite decide_True by (split; [apply thumbnail_name_no_image|]; left).
    rewrite record_blob_get, Hjpg', decide_True by done. cbn -[Simple_scan.scan_from].
    destruct (note_flags Thumbnails.fresh "event_thumbnail.jpg") as [-> _].
    rewrite Hcheck. cbn -[Simple_scan.scan_from]. done.
  - cbn -[Recent_scan.scan_from].
    change (reverse [name jpg; name png]) with [name png; name jpg].
    rewrite recent_scan_cons, Hpng'. rewrite decide_False by lia.
    rewrite decide_False by set_solver. rewrite decide_True by left.
    rewrite Hcheck, recent_scan_cons, Hjpg'. rewrite decide_False by lia.
    rewrite decide_True by set_solver. done.
Qed.

Lemma both_thumbnails_selected_twice_witness :
  let jpg := Sample.listed (blob_path "events" "e1" "event_thumbnail.jpg") in
  let png := Sample.listed (blob_path "events" "e1" "event_thumbnail.png") in
  slash_free "events" = true ∧ slash_free "e1" = true ∧
  check_event_has_image Sample.online ∅ "events" "e1" = false ∧ 2 ≤ 5 ∧
  Simple_scan.get_events_needing_images Sample.online ∅ "events" 5 (Some [jpg; png])
  = ["e1"; "e1"]%string.
Proof.
  intros jpg png.
  assert (Hc : slash_free "events" = true) by reflexivity.
  assert (He : slash_free "e1" = true) by reflexivity.
  assert (Hcheck : check_event_has_image Sample.online ∅ "events" "e1" = false)
    by reflexivity.
  assert (Hcap : 2 ≤ 5) by lia.
  split; [exact Hc|]. split; [exact He|]. split; [exact Hcheck|]. split; [exact Hcap|].
  exact (proj1 (both_thumbnails_selected_twice Sample.online ∅ "events" "e1" 5 jpg png
                  Hc He eq_refl eq_refl Hcheck Hcap)).
Defined.

(** ** The counter *)

Lemma count_where_total events :
  len events
  = Counter.count_where true true events + Counter.count_where true false events
    + Counter.count_where false true events + Counter.count_where false false events.
Proof.
  unfold Counter.count_where, len.
  induction events as [|[event_id [[] []]] events IH]; [done|..];
    rewrite !filter_cons; cbn;
    repeat (first [rewrite decide_True by done
                  |rewrite decide_False by (by intros [? ?])]);
    cbn [length]; lia.
Qed.

Lemma thumbnail_only_keys blob_names event_id :
  event_id ∈ (filter (λ e, Thumbnails.has_image e.2 = false
                           ∧ Thumbnails.has_thumbnail e.2 = true)
                     (Thumbnails.scan blob_names)).*1 ↔
  classify blob_names event_id
  = Some {| Thumbnails.has_image := false; Thumbnails.has_thumbnail := true |}.
Proof.
  pose proof (scan_from_NoDup [] blob_names NoDup_nil_2) as Hnodup.
  rewrite <- scan_classify, list_elem_of_fmap. split.
  - intros ([e [image thumbnail]] & -> & [[Himage Hthumbnail] Hin]%list_elem_of_filter).
    cbn in *. subst. by apply (dict_get_elem_of _ _ _ Hnodup).
  - intros Hget.
    exists (event_id, {| Thumbnails.has_image := false;
                         Thumbnails.has_thumbnail := true |}). split; [done|].
    apply list_elem_of_filter. split; [done|].
    by apply (dict_get_elem_of _ _ _ Hnodup).
Qed.

(** X18.  The four categories of the counter add up to the number of events; its
    number of events with an image only is the number of events that
    [generate_thumbnails.py] selects; the number it returns bounds what the
    limited script selects under any cap; and [batches_of_500] is that number
    divided by 500 and rounded up. *)
Theorem counter_categories (blobs : list blob) (max_events n : Z) :
  let results := Counter.scan_results (name <$> blobs) in
  Counter.total_events results
  = Counter.events_with_both results + Counter.events_with_only_image results
    + Counter.events_with_only_thumbnail results + Counter.events_with_neither results ∧
  Counter.events_with_only_image results
  = len (Thumbnails.get_events_needing_thumbnails (Some blobs)) ∧
  len (Limited.get_events_needing_images (Some blobs) max_events)
  ≤ Counter.count_events_needing_images (Some blobs) ∧
  500 * (Counter.batches_of_500 n - 1) < n ≤ 500 * Counter.batches_of_500 n.
Proof.
  intros results. unfold results. split; [|split; [|split]].
  - unfold Counter.scan_results. cbn. apply count_where_total.
  - unfold Counter.scan_results. cbn.
    unfold Counter.count_where, len. rewrite length_fmap. do 2 f_equal.
    apply list_filter_iff.
    intros [event_id [[] []]]; cbn; (split; [intros [? ?]|intros ?]; done).
  - unfold Counter.count_events_needing_images, Counter.scan_results.
    cbn [Counter.events_with_only_thumbnail]. unfold Counter.count_where, len.
    rewrite <- (length_fmap fst (filter _ _)).
    apply inj_le, submseteq_length, NoDup_submseteq.
    + apply limited_selection_NoDup.
    + intros e He%limited_selection_thumbnail_only. by apply thumbnail_only_keys.
  - unfold Counter.batches_of_500.
    pose proof (Z.div_mod (n + 499) 500). pose proof (Z.mod_pos_bound (n + 499) 500).
    lia.
Qed.

(** ** The boxes on small images *)

Lemma all_sides_spec (n : Z) (check : Z → bool) (x : Z) :
  all_sides n check = true → 1 ≤ x ≤ n → check x = true.
Proof.
  unfold all_sides. rewrite forallb_forall. intros Hall Hx.
  apply Hall, list_elem_of_In, elem_of_seqZ. lia.
Qed.

Lemma all_pairs_spec (n : Z) (check : Z → Z → bool) (w h : Z) :
  all_pairs n check = true → 1 ≤ w ≤ n → 1 ≤ h ≤ n → check w h = true.
Proof.
  unfold all_pairs. intros Hall Hw Hh.
  apply (all_sides_spec n); [|done]. by apply (all_sides_spec n _ w) in Hall.
Qed.

Lemma small_boxes : all_pairs 100 keeps_box = true.
Proof. vm_compute. reflexivity. Qed.

Lemma thumbnail_base_box `{L : ImageLib} (image_data : bytes) (img : image)
    (w h new_width new_height : Z) :
  pil_open image_data = Some img →
  im_size img = (w, h) →
  first_box w h = Ret (new_width, new_height) →
  thumbnail_base image_data
  = (img ← normalize_mode img;
     img ← im_resize img (new_width, new_height);
     Ret (img, (new_width, new_height))).
Proof.
  intros Hopen Hsize Hbox. unfold first_box in Hbox.
  apply bind_returns in Hbox as (aspect_ratio & Hratio & Hdims).
  unfold thumbnail_base, Image_open. rewrite Hopen. cbn. rewrite Hsize, Hratio. cbn.
  destruct (normalize_mode img); cbn; [|done..]. by rewrite Hdims.
Qed.

Lemma unit_scales : all_sides 100 unit_scale = true.
Proof. vm_compute. reflexivity. Qed.

Lemma unit_scale_spec n :
  0 ≤ n ≤ 100 → Float.to_int (Float.mul (Float.of_int n) (Float.of_int 1)) = Ret n.
Proof.
  intros Hn. destruct (decide (n = 0)) as [->|Hpos]; [vm_compute; reflexivity|].
  assert (Hcheck : unit_scale n = true) by (apply (all_sides_spec 100 _ _ unit_scales); lia).
  unfold unit_scale in Hcheck. destruct (Float.to_int _) as [k| |]; [|done..].
  by apply bool_decide_eq_true in Hcheck as ->.
Qed.

(** A box with a side under 100 leaves the loop at its first pass. *)
Lemma small_loop_left `{L : ImageLib} (base : image) (C nw nh : Z) :
  0 ≤ nw ≤ 100 → 0 ≤ nh ≤ 100 → nw < 100 ∨ nh < 100 →
  Thumbnails.optimize_loop loop_fuel base C nw nh 85 (Float.of_int 1) = Ret None.
Proof.
  intros Hnw Hnh Hsmall. rewrite loop_left, thumbnail_settings_head. cbn.
  rewrite !unit_scale_spec by done. cbn. by rewrite decide_True by lia.
Qed.

Lemma small_final_box nw nh :
  0 ≤ nw ≤ 100 → 0 ≤ nh ≤ 100 → Thumbnails.final_dims nw nh = Ret (100, 100).
Proof.
  intros Hnw Hnh. unfold Thumbnails.final_dims. rewrite !halves_spec by lia. cbn.
  do 2 f_equal; pose proof (Z.div_mod nw 2); pose proof (Z.mod_pos_bound nw 2);
    pose proof (Z.div_mod nh 2); pose proof (Z.mod_pos_bound nh 2); lia.
Qed.

(** X19.  An image of at most 100×100 pixels: the box to which
    [create_thumbnail] resizes it first keeps the long side, and the short
    side is the original one or one pixel less (the quotient
    [new_width / aspect_ratio] is rounded before it is truncated).  When a
    side of the image is under 100, the loop is left at its first pass and
    the answer is the final attempt, whatever the ceiling: the image is
    enlarged to 100×100, whatever its aspect ratio, and encoded as a JPEG at
    quality 15; the answer is [None] when one of these steps raises. *)
Theorem small_image_box `{L : ImageLib} (image_data : bytes) (img : image) (w h C : Z) :
  1 ≤ w ≤ 100 → 1 ≤ h ≤ 100 →
  pil_open image_data = Some img →
  im_size img = (w, h) →
  ∃ new_width new_height,
    first_box w h = Ret (new_width, new_height) ∧
    Z.max new_width new_height = Z.max w h ∧
    Z.min w h - 1 ≤ Z.min new_width new_height ≤ Z.min w h ∧
    thumbnail_base image_data
    = (img ← normalize_mode img;
       img ← im_resize img (new_width, new_height);
       Ret (img, (new_width, new_height))) ∧
    (w < 100 ∨ h < 100 →
     Thumbnails.create_thumbnail image_data C
     = try_except
         (img ← normalize_mode img;
          base ← im_resize img (new_width, new_height);
          final_img ← im_resize base (100, 100);
          result ← im_save_jpeg final_img 15;
          Ret (Some result))
         None).
Proof.
  intros Hw Hh Hopen Hsize.
  pose proof (all_pairs_spec 100 keeps_box w h small_boxes Hw Hh) as Hall.
  unfold keeps_box in Hall. destruct (first_box w h) as [[nw nh]| |] eqn:Hbox; [|done..].
  apply bool_decide_eq_true in Hall as [Hlong Hshort]. exists nw, nh.
  split; [done|]. split; [done|]. split; [done|].
  split; [by apply (thumbnail_base_box image_data img w h)|].
  intros Hsmall.
  unfold Thumbnails.create_thumbnail, Thumbnails.create_thumbnail_body, Image_open.
  rewrite Hopen. cbn -[loop_fuel]. rewrite Hsize. f_equal.
  unfold first_box in Hbox. apply bind_returns in Hbox as (ar & -> & Hbox).
  cbn -[loop_fuel].
  destruct (normalize_mode img) as [img'| |]; cbn -[loop_fuel]; try done.
  rewrite Hbox. cbn -[loop_fuel].
  destruct (im_resize img' (nw, nh)) as [base| |]; cbn -[loop_fuel]; try done.
  rewrite small_loop_left by lia. cbn.
  unfold Thumbnails.final_attempt. rewrite small_final_box by lia. cbn.
  by destruct (im_resize base (100, 100)) as [final_img| |].
Qed.

(** A 9×7 picture: its first box is 9×6, and the thumbnail is 100×100. *)
Lemma small_image_box_witness :
  1 ≤ 9 ≤ 100 ∧ 1 ≤ 7 ≤ 100 ∧
  first_box 9 7 = Ret (9, 6) ∧
  Thumbnails.create_thumbnail (L := Toy.lib) (Toy.picture 9 7) Thumbnails.default_target_size
  = Ret (Some (Toy.jpeg (Toy.rgb 100 100) 15)) ∧
  ∃ new_width new_height,
    first_box 9 7 = Ret (new_width, new_height) ∧
    Z.max new_width new_height = Z.max 9 7 ∧
    Z.min 9 7 - 1 ≤ Z.min new_width new_height ≤ Z.min 9 7 ∧
    thumbnail_base (L := Toy.lib) (Toy.picture 9 7)
    = (img ← @normalize_mode Toy.lib (Toy.rgb 9 7);
       img ← im_resize (L := Toy.lib) img (new_width, new_height);
       Ret (img, (new_width, new_height))) ∧
    (9 < 100 ∨ 7 < 100 →
     Thumbnails.create_thumbnail (L := Toy.lib) (Toy.picture 9 7)
                                 Thumbnails.default_target_size
     = try_except
         (img ← @normalize_mode Toy.lib (Toy.rgb 9 7);
          base ← im_resize (L := Toy.lib) img (new_width, new_height);
          final_img ← im_resize (L := Toy.lib) base (100, 100);
          result ← im_save_jpeg (L := Toy.lib) final_img 15;
          Ret (Some result))
         None).
Proof.
  assert (Hw : 1 ≤ 9 ≤ 100) by lia. assert (Hh : 1 ≤ 7 ≤ 100) by lia.
  split; [exact Hw|]. split; [exact Hh|]. split; [vm_compute; reflexivity|].
  split; [vm_compute; reflexivity|].
  exact (small_image_box (L := Toy.lib) (Toy.picture 9 7) (Toy.rgb 9 7) 9 7
           Thumbnails.default_target_size Hw Hh eq_refl eq_refl).
Defined.

Lemma narrow_boxes : all_sides 400 narrow_box = true.
Proof. vm_compute. reflexivity. Qed.

Lemma narrow_box_spec h :
  1 ≤ h ≤ 400 →
  first_box 1 h = Ret (if decide (h ∈ narrow_heights) then 0 else 1, h).
Proof.
  intros Hh. pose proof (all_sides_spec 400 narrow_box h narrow_boxes Hh) as Hall.
  unfold narrow_box in Hall. destruct (first_box 1 h) as [[nw nh]| |]; [|done..].
  apply bool_decide_eq_true in Hall as [-> ->]. done.
Qed.

(** X20.  A portrait image one pixel wide keeps its width in the box, except at
    twenty heights up to 400 (49, 98, 103, ...), where [int(h * (1 / h))] is
    0: the box is empty, the resize raises and [create_thumbnail] reports
    failure for an image that is smaller than the box. *)
Theorem narrow_portrait_fails `{L : ImageLib} (image_data : bytes) (C h : Z)
    (img : image) :
  1 ≤ h ≤ 400 →
  first_box 1 h = Ret (if decide (h ∈ narrow_heights) then 0 else 1, h) ∧
  (h ∈ narrow_heights →
   pil_open image_data = Some img →
   im_size img = (1, h) →
   (∀ i, pil_resize i (0, h) = None) →
   Thumbnails.create_thumbnail image_data C = Ret None).
Proof.
  intros Hh. split; [by apply narrow_box_spec|].
  intros Hnarrow Hopen Hsize Hresize.
  pose proof (narrow_box_spec h Hh) as Hbox. rewrite decide_True in Hbox by done.
  unfold first_box in Hbox. apply bind_returns in Hbox as (aspect_ratio & Hratio & Hdims).
  unfold Thumbnails.create_thumbnail, Thumbnails.create_thumbnail_body, Image_open.
  rewrite Hopen. cbn -[loop_fuel]. rewrite Hsize, Hratio. cbn -[loop_fuel].
  destruct (normalize_mode img) as [img'| |] eqn:Hmode; cbn -[loop_fuel]; [|done|].
  - rewrite Hdims. cbn -[loop_fuel]. unfold im_resize. by rewrite Hresize.
  - unfold normalize_mode in Hmode. case_decide; [|done].
    by destruct (call_in_fuel (pil_convert img "RGB") Hmode).
Qed.

Lemma narrow_portrait_fails_witness :
  1 ≤ 49 ≤ 400 ∧ 49 ∈ narrow_heights ∧
  first_box 1 49 = Ret (0, 49) ∧
  Thumbnails.create_thumbnail (L := Toy.lib) (Toy.picture 1 49)
    Thumbnails.default_target_size = Ret None.
Proof.
  assert (Hh : 1 ≤ 49 ≤ 400) by lia.
  assert (Hnarrow : 49 ∈ narrow_heights) by (vm_compute; left).
  destruct (narrow_portrait_fails (L := Toy.lib) (Toy.picture 1 49)
              Thumbnails.default_target_size 49 (Toy.rgb 1 49) Hh) as [Hbox Hfails].
  split; [exact Hh|]. split; [exact Hnarrow|]. split; [exact Hbox|].
  apply Hfails; [exact Hnarrow|reflexivity|reflexivity|].
  intros i. reflexivity.
Defined.

Lemma doubled_boxes : all_sides 400 doubles = true.
Proof. vm_compute. reflexivity. Qed.

Lemma prepare_box `{L : ImageLib} (thumbnail_data : bytes) (img : image)
    (w h new_width new_height : Z) :
  pil_open thumbnail_data = Some img →
  im_size img = (w, h) →
  upscale_box w h = Ret (new_width, new_height) →
  Upscale.prepare thumbnail_data default_box
  = (img ← normalize_mode img;
     img ← Upscale.enlarge img w h new_width new_height;
     Ret (img, (new_width, new_height))).
Proof.
  intros Hopen Hsize Hbox. unfold upscale_box in Hbox.
  apply bind_returns in Hbox as (aspect_ratio & Hratio & Hdims).
  unfold Upscale.prepare, Image_open. rewrite Hopen. cbn. rewrite Hsize, Hratio. cbn.
  destruct (normalize_mode img); cbn; [|done..]. cbn in Hdims. by rewrite Hdims.
Qed.

(** X21.  [upscale_image] doubles a thumbnail whose long side is 400: the long
    side of the box to which it resizes is 800, the short side is twice the
    original one or one pixel less, so that the box is never empty. *)
Theorem upscale_doubles `{L : ImageLib} (thumbnail_data : bytes) (img : image) (s : Z) :
  1 ≤ s ≤ 400 →
  ∃ landscape_height portrait_width,
    upscale_box 400 s = Ret (800, landscape_height) ∧
    upscale_box s 400 = Ret (portrait_width, 800) ∧
    2 * s - 1 ≤ landscape_height ≤ 2 * s ∧
    2 * s - 1 ≤ portrait_width ≤ 2 * s ∧
    (pil_open thumbnail_data = Some img →
     (im_size img = (400, s) →
      Upscale.prepare thumbnail_data default_box
      = (img ← normalize_mode img;
         img ← Upscale.enlarge img 400 s 800 landscape_height;
         Ret (img, (800, landscape_height)))) ∧
     (im_size img = (s, 400) →
      Upscale.prepare thumbnail_data default_box
      = (img ← normalize_mode img;
         img ← Upscale.enlarge img s 400 portrait_width 800;
         Ret (img, (portrait_width, 800))))).
Proof.
  intros Hs. pose proof (all_sides_spec 400 doubles s doubled_boxes Hs) as Hall.
  unfold doubles in Hall.
  destruct (upscale_box 400 s) as [[lw lh]| |] eqn:Hlandscape; [|done..].
  destruct (upscale_box s 400) as [[pw ph]| |] eqn:Hportrait; [|done..].
  apply bool_decide_eq_true in Hall as (-> & ? & -> & ?). exists lh, pw.
  split; [done|]. split; [done|]. split; [done|]. split; [done|].
  intros Hopen. split; intros Hsize.
  - by apply (prepare_box thumbnail_data img 400 s).
  - by apply (prepare_box thumbnail_data img s 400).
Qed.

Lemma upscale_doubles_witness :
  1 ≤ 11 ≤ 400 ∧ upscale_box 400 11 = Ret (800, 21) ∧
  ∃ landscape_height portrait_width,
    upscale_box 400 11 = Ret (800, landscape_height) ∧
    upscale_box 11 400 = Ret (portrait_width, 800) ∧
    2 * 11 - 1 ≤ landscape_height ≤ 2 * 11 ∧
    2 * 11 - 1 ≤ portrait_width ≤ 2 * 11.
Proof.
  assert (Hs : 1 ≤ 11 ≤ 400) by lia.
  split; [exact Hs|]. split; [vm_compute; reflexivity|].
  destruct (upscale_doubles (L := Toy.lib) (Toy.picture 400 11) (Toy.rgb 400 11) 11 Hs)
    as (lh & pw & Hlandscape & Hportrait & Hlh & Hpw & _).
  exists lh, pw. split; [exact Hlandscape|]. split; [exact Hportrait|].
  split; [exact Hlh|exact Hpw].
Defined.

(** ** What the upscalers return *)

Section Upscalers.
Context `{L : ImageLib}.

Lemma upscale_image_bounded_fits p settings scales thumbnail_data box C d :
  schedule Optimizer.continue (Optimizer.adjust p) loop_fuel
           (Optimizer.start_quality p) (Float.of_int 1) = Some settings →
  rescue_scales loop_fuel (Optimizer.rescue_scale p) = Some scales →
  Upscale.upscale_image_bounded p thumbnail_data box C = Ret (Some d) →
  d ≠ [] ∧ len d ≤ C.
Proof.
  intros Hsettings Hscales Hreturn%try_except_some.
  apply bind_returns in Hreturn as ([img [nw nh]] & _ & Hreturn). cbn in Hreturn.
  apply bind_returns in Hreturn as (result & Hsearch & Hreturn).
  destruct (truthy result) eqn:Htruthy; [|done]. simplify_eq.
  split; [by intros ->|].
  unfold Optimizer.optimize_image_size in Hsearch. apply try_except_some in Hsearch.
  rewrite (optimize_body_first_fit p settings scales) in Hsearch by done.
  by apply first_fit_fits in Hsearch.
Qed.

Lemma upscale_image_png_encoded thumbnail_data box d :
  Upscale.upscale_image_png thumbnail_data box = Ret (Some d) →
  ∃ img, pil_save_png img (Some 6) = Some d.
Proof.
  intros Hreturn%try_except_some.
  apply bind_returns in Hreturn as ([img ?] & _ & Hreturn). cbn in Hreturn.
  apply bind_returns in Hreturn as (result & Hsave & [= <-]).
  exists img. unfold im_save_png in Hsave.
  destruct (pil_save_png img (Some 6)); cbn in Hsave; by simplify_eq.
Qed.

End Upscalers.

(** X22.  No [upscale_image] raises.  What the recent and the simple script return
    is not empty and fits [max_file_size], whatever the thumbnail and the
    image library; the other two scripts return the PNG as it was encoded,
    of any size. *)
Theorem upscale_image_answers `{L : ImageLib} (thumbnail_data : bytes) (box : Z * Z)
    (max_file_size : Z) (d : bytes) :
  (returns (Recent.upscale_image thumbnail_data box max_file_size) ∧
   (Recent.upscale_image thumbnail_data box max_file_size = Ret (Some d) →
    d ≠ [] ∧ len d ≤ max_file_size)) ∧
  (returns (Simple.upscale_image thumbnail_data box max_file_size) ∧
   (Simple.upscale_image thumbnail_data box max_file_size = Ret (Some d) →
    d ≠ [] ∧ len d ≤ max_file_size)) ∧
  (returns (Missing.upscale_image thumbnail_data box) ∧
   (Missing.upscale_image thumbnail_data box = Ret (Some d) →
    ∃ img, pil_save_png img (Some 6) = Some d)) ∧
  (returns (Limited.upscale_image thumbnail_data box) ∧
   (Limited.upscale_image thumbnail_data box = Ret (Some d) →
    ∃ img, pil_save_png img (Some 6) = Some d)).
Proof.
  assert (Hpng : returns (Upscale.upscale_image_png thumbnail_data box)).
  { apply try_except_returns.
    assert (Hfuel := upscale_image_png_in_fuel thumbnail_data box).
    unfold Upscale.upscale_image_png in Hfuel. by destruct (_ ≫= _). }
  split; [|split; [|split]].
  - split.
    + apply try_except_returns.
      assert (Hfuel := upscale_image_bounded_in_fuel Recent.constants recent_settings
                         recent_scales thumbnail_data box max_file_size eq_refl eq_refl).
      unfold Upscale.upscale_image_bounded in Hfuel.
      by destruct (_ ≫= _).
    + by apply (upscale_image_bounded_fits Recent.constants recent_settings recent_scales).
  - split.
    + apply try_except_returns.
      assert (Hfuel := upscale_image_bounded_in_fuel Simple.constants simple_settings
                         simple_scales thumbnail_data box max_file_size eq_refl eq_refl).
      unfold Upscale.upscale_image_bounded in Hfuel.
      by destruct (_ ≫= _).
    + by apply (upscale_image_bounded_fits Simple.constants simple_settings simple_scales).
  - split; [done|apply upscale_image_png_encoded].
  - split; [done|apply upscale_image_png_encoded].
Qed.

Lemma upscale_image_answers_witness :
  let d := Toy.jpeg (Toy.rgb 480 240) 55 in
  Recent.upscale_image (L := Toy.lib) (Toy.picture 200 100) default_box 4000
    = Ret (Some d) ∧
  d ≠ [] ∧ len d ≤ 4000.
Proof.
  intros d.
  assert (Hreturn : Recent.upscale_image (L := Toy.lib) (Toy.picture 200 100)
                      default_box 4000 = Ret (Some d)) by (vm_compute; reflexivity).
  split; [exact Hreturn|].
  exact (proj2 (proj1 (upscale_image_answers (L := Toy.lib) (Toy.picture 200 100)
                         default_box 4000 d)) Hreturn).
Defined.

(** ** The number of encodings *)

Lemma loop_candidates_length `{L : ImageLib} (img : image) nw nh settings :
  (length (loop_candidates img nw nh settings) ≤ 2 * length settings)%nat.
Proof.
  induction settings as [|[quality scale] settings IH]; [done|]. cbn.
  destruct (Float.to_int _ ≫= _) as [[cw ch]| |]; cbn; [|lia..].
  case_decide; cbn; lia.
Qed.

(** X23.  Each search is a first fit over a list of encodings that is fixed by the
    image: [create_thumbnail] encodes at most 145 times, [_optimize_image_size]
    at most 44 times in the recent script and 36 times in the simple one. *)
Theorem encodings_are_bounded `{L : ImageLib} (image_data : bytes) (img : image)
    (C w h : Z) :
  (Recent._optimize_image_size img C w h
   = try_except (first_fit C (recent_candidates img w h)) None ∧
   length (recent_candidates img w h) = 44%nat) ∧
  (Simple._optimize_image_size img C w h
   = try_except (first_fit C (simple_candidates img w h)) None ∧
   length (simple_candidates img w h) = 36%nat) ∧
  (Thumbnails.create_thumbnail image_data C
   = try_except
       ('(base, (nw, nh)) ← thumbnail_base image_data;
        found ← first_fit C (loop_candidates base nw nh thumbnail_settings);
        match found with
        | Some result => Ret (Some result)
        | None => result ← Thumbnails.final_attempt base nw nh; Ret (Some result)
        end)
       None ∧
   ∀ base nw nh, (length (thumbnail_order base nw nh) ≤ 145)%nat).
Proof.
  split; [|split]; split.
  - apply recent_first_fit.
  - unfold recent_candidates, size_candidates, jpeg_candidates, retry_candidates,
      rescue_candidates. cbn [length]. by rewrite !length_app, !length_fmap.
  - apply simple_first_fit.
  - unfold simple_candidates, size_candidates, jpeg_candidates, retry_candidates,
      rescue_candidates. cbn [length]. by rewrite !length_app, !length_fmap.
  - apply create_thumbnail_first_fit.
  - intros base nw nh. unfold thumbnail_order. rewrite length_app. cbn [length].
    pose proof (loop_candidates_length base nw nh thumbnail_settings) as Hlen.
    change (length thumbnail_settings) with 72%nat in Hlen. lia.
Qed.

(** ** An empty source *)

(** X24.  A source object of zero bytes is taken for a missing one: the event is
    counted as an error and nothing is written; the [.jpg] source is not
    tried. *)
Theorem empty_source_is_an_error `{L : ImageLib} (fails : request → bool)
    (s : Pipeline.stages) (stem target : string) (type : bytes → string)
    (self : generator) (collection event_id : string) (o : object) :
  let png := blob_path collection event_id (stem +:+ ".png") in
  (s, (stem, target, type)) ∈ script_layouts fails →
  fails (Exists png) = false →
  fails (Download png) = false →
  bucket self !! png = Some o →
  data o = [] →
  Pipeline.process_event s self collection event_id = Ret (false, count_error self).
Proof.
  intros png Hin Hexists Hdownload Hpng Hempty.
  destruct (script_layouts_layout _ _ _ _ _ Hin) as (layout & _).
  unfold Pipeline.process_event. rewrite (layout_download _ _ _ _ _ layout).
  unfold download_asset. fold png.
  by rewrite first_existing_two, Hexists, Hpng, Hdownload, Hempty.
Qed.

Lemma empty_source_is_an_error_witness :
  let b : gmap string object :=
    <["events/e1/event_image.png"%string := Sample.stored []]> Sample.objects in
  Thumbnails.process_event (L := Toy.lib) Sample.online (connect b) "events" "e1"
  = Ret (false, count_error (connect b)).
Proof.
  intros b.
  apply (empty_source_is_an_error (L := Toy.lib) Sample.online
           (Thumbnails.stages (L := Toy.lib) Sample.online)
           "event_image" "event_thumbnail.png" sniff (connect b) "events" "e1"
           (Sample.stored [])).
  - left.
  - reflexivity.
  - reflexivity.
  - reflexivity.
  - reflexivity.
Defined.

(** ** The statistics of [scan_events.py] *)

Lemma scan_events_note_flags e filename :
  Scan_events.flags (Scan_events.note e filename) = note (Scan_events.flags e) filename.
Proof. unfold Scan_events.note, note. by repeat case_decide. Qed.

Lemma scan_events_note_files e filename :
  Scan_events.files (Scan_events.note e filename) = Scan_events.files e ++ [filename].
Proof. unfold Scan_events.note. by repeat case_decide. Qed.

Lemma scan_events_record_blob_get events blob_name k :
  dict_get k (Scan_events.record_blob events blob_name)
  = match event_and_file blob_name with
    | Some (event_id, filename) =>
        if decide (k = event_id)
        then Some (Scan_events.note
                     (default Scan_events.fresh (dict_get event_id events)) filename)
        else dict_get k events
    | None => dict_get k events
    end.
Proof.
  rewrite event_and_file_segments. unfold Scan_events.record_blob.
  destruct (split_slash blob_name) as [|a [|e [|f rest]]]; try done;
    try by case_decide.
  destruct (decide (3 ≤ len (_ :: _ :: _ :: _))) as [_|Hlen];
    [|unfold len in Hlen; cbn in Hlen; lia].
  set (events' := match dict_get e events with
                  | Some _ => events
                  | None => dict_set e Scan_events.fresh events
                  end).
  assert (He : dict_get e events' = Some (default Scan_events.fresh (dict_get e events))).
  { subst events'. destruct (dict_get e events) eqn:E; cbn; [done|].
    apply dict_get_set_eq. }
  assert (Hk : k ≠ e → dict_get k events' = dict_get k events).
  { intros Hne. subst events'. destruct (dict_get e events); [done|].
    by apply dict_get_set_ne. }
  rewrite He. cbn. destruct (decide (k = e)) as [->|Hne].
  - by rewrite dict_get_set_eq.
  - rewrite dict_get_set_ne by done. auto.
Qed.

Lemma scan_events_record_blob_NoDup events blob_name :
  NoDup events.*1 → NoDup (Scan_events.record_blob events blob_name).*1.
Proof.
  intros Hd. unfold Scan_events.record_blob. case_decide; [|done].
  destruct (split_slash blob_name) as [|a [|e [|f rest]]]; try done.
  apply dict_set_NoDup. destruct (dict_get e events); [done|]. by apply dict_set_NoDup.
Qed.

Lemma scan_events_NoDup events blob_names :
  NoDup events.*1 → NoDup (Scan_events.scan_from events blob_names).*1.
Proof.
  revert events. induction blob_names as [|n blob_names IH]; intros events Hd; cbn;
    [done|]. by apply IH, scan_events_record_blob_NoDup.
Qed.

Lemma scan_events_get events blob_names k :
  dict_get k (Scan_events.scan_from events blob_names)
  = foldl (λ e filename, Some (Scan_events.note (default Scan_events.fresh e) filename))
          (dict_get k events) (group blob_names k).
Proof.
  revert events. induction blob_names as [|n blob_names IH]; intros events; [done|].
  cbn. rewrite IH, scan_events_record_blob_get. unfold group. cbn.
  destruct (event_and_file n) as [[id f]|]; cbn; [|done].
  destruct (decide (k = id)) as [->|Hne].
  - by rewrite decide_True.
  - by rewrite decide_False by done.
Qed.

Lemma scan_events_fold e filenames :
  ∃ e',
    foldl (λ e filename, Some (Scan_events.note (default Scan_events.fresh e) filename))
          (Some e) filenames = Some e' ∧
    Scan_events.files e' = Scan_events.files e ++ filenames ∧
    merge (Some (Scan_events.flags e)) filenames = Some (Scan_events.flags e').
Proof.
  revert e. induction filenames as [|f filenames IH]; intros e; cbn.
  - exists e. by rewrite app_nil_r.
  - destruct (IH (Scan_events.note e f)) as (e' & -> & Hfiles & Hflags).
    exists e'. split; [done|]. split.
    + by rewrite Hfiles, scan_events_note_files, <- app_assoc.
    + by rewrite <- scan_events_note_flags.
Qed.

Lemma scan_events_entry blob_names event_id :
  match dict_get event_id (Scan_events.scan_from [] blob_names) with
  | Some e =>
      Scan_events.files e = group blob_names event_id ∧
      group blob_names event_id ≠ [] ∧
      classify blob_names event_id = Some (Scan_events.flags e)
  | None => group blob_names event_id = [] ∧ classify blob_names event_id = None
  end.
Proof.
  rewrite scan_events_get. rewrite <- scan_classify. unfold Thumbnails.scan.
  rewrite scan_from_get. cbn.
  destruct (group blob_names event_id) as [|f filenames]; [done|]. cbn.
  destruct (scan_events_fold (Scan_events.note Scan_events.fresh f) filenames)
    as (e' & -> & Hfiles & Hflags).
  split; [by rewrite Hfiles, scan_events_note_files|]. split; [done|].
  by rewrite <- Hflags, scan_events_note_flags.
Qed.

Lemma filter_keys_elem_of {V} (P : string * V → Prop) `{∀ x, Decision (P x)}
    (d : list (string * V)) k :
  NoDup d.*1 →
  k ∈ (filter P d).*1 ↔ ∃ v, dict_get k d = Some v ∧ P (k, v).
Proof.
  intros Hnodup. rewrite list_elem_of_fmap. split.
  - intros ([k' v] & -> & [HP Hin]%list_elem_of_filter). exists v.
    split; [by apply dict_get_elem_of|done].
  - intros (v & Hget & HP). exists (k, v). split; [done|].
    apply list_elem_of_filter. split; [done|]. by apply dict_get_elem_of.
Qed.

Lemma filter_keys_NoDup {V} (P : string * V → Prop) `{∀ x, Decision (P x)}
    (d : list (string * V)) :
  NoDup d.*1 → NoDup (filter P d).*1.
Proof.
  intros Hnodup. eapply sublist_NoDup; [done|]. apply fmap_sublist, sublist_filter.
Qed.

Lemma with_images_split (events : list (string * Scan_events.entry)) :
  length (filter (λ e, Scan_events.has_image e.2 = true) events)
  = (length (filter (λ e, Scan_events.has_image e.2 = true
                          ∧ Scan_events.has_thumbnail e.2 = false) events)
     + length (filter (λ e, Scan_events.has_image e.2 = true
                            ∧ Scan_events.has_thumbnail e.2 = true) events))%nat.
Proof.
  induction events as [|[event_id [[] [] fs]] events IH]; [done|..];
    rewrite !filter_cons; cbn;
    repeat (first [rewrite decide_True by done
                  |rewrite decide_False by (first [by intros [? ?]|done])]);
    cbn [length]; lia.
Qed.

(** X25.  What [scan_events.py] reports: for every event the file names listed
    under it, in the order of the listing, and the two flags of the bucket
    scanner; the events it names as needing a thumbnail are, up to their
    order, those that [generate_thumbnails.py] selects from the same listing;
    and every event with an image is counted once, as needing a thumbnail or
    as having both. *)
Theorem scan_events_report (blobs : list blob) (event_id : string)
    (report : Scan_events.statistics) :
  Scan_events.scan_events (Some blobs) = Some report →
  match dict_get event_id (Scan_events.scan_from [] (name <$> blobs)) with
  | Some e =>
      Scan_events.files e = group (name <$> blobs) event_id ∧
      classify (name <$> blobs) event_id = Some (Scan_events.flags e)
  | None => classify (name <$> blobs) event_id = None
  end ∧
  Scan_events.need_thumbnails report
  ≡ₚ Thumbnails.get_events_needing_thumbnails (Some blobs) ∧
  Scan_events.with_images report
  = len (Scan_events.need_thumbnails report) + len (Scan_events.with_both report).
Proof.
  intros [= <-]. cbn [Scan_events.need_thumbnails Scan_events.with_images
                      Scan_events.with_both].
  pose proof (scan_events_NoDup [] (name <$> blobs) NoDup_nil_2) as Hnodup.
  split; [|split].
  - pose proof (scan_events_entry (name <$> blobs) event_id) as Hentry.
    destruct (dict_get event_id _); [|by destruct Hentry].
    by destruct Hentry as (? & _ & ?).
  - apply NoDup_Permutation.
    + by apply filter_keys_NoDup.
    + apply get_events_needing_thumbnails_NoDup.
    + intros e. rewrite needing_thumbnails, filter_keys_elem_of by done.
      pose proof (scan_events_entry (name <$> blobs) e) as Hentry. split.
      * intros ([i t fs] & Hget & Hi & Ht). rewrite Hget in Hentry.
        destruct Hentry as (_ & _ & ->). cbn in *. by subst.
      * intros Hclassify. destruct (dict_get e _) as [[i t fs]|].
        -- destruct Hentry as (_ & _ & Hflags). rewrite Hflags in Hclassify.
           injection Hclassify as -> ->. by eexists.
        -- destruct Hentry as [_ Hnone]. congruence.
  - unfold len. rewrite !length_fmap, with_images_split. lia.
Qed.

Lemma scan_events_report_witness :
  let blobs := [Sample.listed "events/e1/event_image.png";
                Sample.listed "events/e1/notes.txt";
                Sample.listed "events/e2/event_thumbnail.png"] in
  ∃ report,
    Scan_events.scan_events (Some blobs) = Some report ∧
    Scan_events.files <$> dict_get "e1" (Scan_events.scan_from [] (name <$> blobs))
    = Some ["event_image.png"; "notes.txt"]%string ∧
    Scan_events.need_thumbnails report
    ≡ₚ Thumbnails.get_events_needing_thumbnails (Some blobs).
Proof.
  intros blobs.
  destruct (Scan_events.scan_events (Some blobs)) as [report|] eqn:Hreport;
    [|discriminate Hreport].
  exists report. split; [reflexivity|]. split; [vm_compute; reflexivity|].
  exact (proj1 (proj2 (scan_events_report blobs "e1" report Hreport))).
Defined.
